(** * QuickUnzip: the icon generator [generate_icon.py]

    A shallow embedding of the script that draws the application icon
    ([create_gradient], [draw_rounded_rect], [create_icon]) and exports it at
    every size of the asset catalogue ([main]), followed by the properties of
    the script that its specification states and by further properties of
    its code.

    Conventions of the embedding.
    - Python [int] is [Z]; Python [float] is an IEEE-754 binary64 number,
      kept as the rational it denotes ([Q]), every operation rounding its
      exact result to nearest, ties to even ([Py.rn]).
    - A Python call either returns, raises, or (the [while] loop of
      [create_icon]) runs out of the fuel it was given: [outcome].
    - An image is its size and its pixels; the drawing calls of Pillow
      update the pixels under a mask.  What Pillow rasterises by its own
      algorithms (ellipses, polygons, Lanczos resampling, boxes given with
      their corners in the wrong order) is a parameter: the class [Pillow].
    - Pillow keeps the sides of an image in C [int]s, and an image takes
      memory: a side of [2^31] or more is an OverflowError, and an image
      that the machine cannot hold a MemoryError.  What the machine holds
      is a parameter too ([has_memory]); it is taken to hold the canvases
      of the script's own run, which are up to 1024 by 1024 pixels.
    - [main] runs in a [world]: the files on disk and the trace of what the
      script wrote and printed. *)

From Stdlib Require Import ZArith QArith Qround Qpower Qabs Lia Lqa.
From Stdlib Require Import Floats.SpecFloat.
From Stdlib Require Import Ascii.
From stdpp Require Import base option list list_numbers gmap strings pretty.

Close Scope Q_scope.
Local Open Scope Z_scope.

(** ** Outcomes of Python computations *)

Inductive exn := OverflowError | ValueError | ZeroDivisionError | MemoryError.

Inductive outcome (A : Type) : Type :=
  | Ok (a : A)
  | Raise (e : exn)
  | OutOfFuel.
Arguments Ok {A} a.
Arguments Raise {A} e.
Arguments OutOfFuel {A}.

#[global] Instance outcome_ret : MRet outcome := @Ok.
#[global] Instance outcome_bind : MBind outcome := λ A B f m,
  match m with
  | Ok a => f a
  | Raise e => Raise e
  | OutOfFuel => OutOfFuel
  end.
#[global] Instance outcome_fmap : FMap outcome := λ A B f m,
  match m with
  | Ok a => Ok (f a)
  | Raise e => Raise e
  | OutOfFuel => OutOfFuel
  end.

(** [for x in xs: acc = body(x, acc)], stopping at the first exception. *)
Fixpoint for_each {A B : Type} (xs : list A) (body : A → B → outcome B)
    (acc : B) : outcome B :=
  match xs with
  | [] => Ok acc
  | x :: xs' => acc' ← body x acc; for_each xs' body acc'
  end.

(** [range(n)] *)
Definition range (n : Z) : list Z := seqZ 0 n.

(** ** Python numbers *)

Module Py.

(** A finite binary64 value, as the rational it denotes. *)
Definition float : Type := Q.

Definition pow2 (k : Z) : Q := Qpower 2 k.
Definition pow10 (k : Z) : Q := Qpower 10 k.

(** [floor (log2 x)] for [x > 0]. *)
Definition ilog2 (x : Q) : Z :=
  let d := Z.log2 (Qnum x) - Z.log2 (Zpos (Qden x)) in
  if Qle_bool (pow2 d) x then d else d - 1.

(** Round to the nearest integer, ties to even. *)
Definition rne (t : Q) : Z :=
  let f := Qfloor t in
  match Qcompare (t - inject_Z f) (1 # 2) with
  | Lt => f
  | Gt => f + 1
  | Eq => if Z.even f then f else f + 1
  end.

(** The exponent of the last place of [x > 0]: 53 significant bits, and
    never below the exponent [-1074] of the subnormal numbers. *)
Definition ulp_exp (x : Q) : Z := Z.max (ilog2 x - 52) (-1074).

Definition round_pos (x : Q) : Q :=
  let k := ulp_exp x in
  Qred (inject_Z (rne (x / pow2 k)) * pow2 k).

(** Round to nearest binary64, ties to even (no bound on the exponent yet). *)
Definition rn (x : Q) : float :=
  match Qcompare x 0 with
  | Eq => 0%Q
  | Gt => round_pos x
  | Lt => Qopp (round_pos (Qopp x))
  end.

(** The rounded result no longer fits below [2^1024]. *)
Definition overflows (y : Q) : bool := Qle_bool (pow2 1024) (Qabs y).

(** The binary64 result of an operation whose exact result is [x].  Every
    float of the script is consumed by [int()], which turns an infinite
    value into OverflowError, as the conversion of an [int] too large for a
    float does at once: an overflow is that exception here. *)
Definition fl (x : Q) : outcome float :=
  let y := rn x in
  if overflows y then Raise OverflowError else Ok y.

(** The unit roundoff, half the least subnormal, and a small rational above
    both: the error of one rounding is stated with them. *)
Definition u : Q := pow2 (-53).
Definition eta : Q := pow2 (-1075).
Definition eps : Q := 1 # 1000000000.

(** The value of a finite float of the standard library's IEEE-754
    specification, to compare the operations here with the ones there. *)
Definition of_spec (f : spec_float) : Q :=
  match f with
  | S754_finite s m e =>
      Qred ((if s then -1 else 1) * inject_Z (Zpos m) * pow2 e)%Q
  | _ => 0%Q
  end.
Definition spec_of_int (n : Z) : spec_float :=
  binary_normalize 53 1024 n 0 false.
Definition spec_dec (n d : Z) : spec_float :=
  SFdiv 53 1024 (spec_of_int n) (spec_of_int d).

(** A decimal literal [n/d] of the source text, e.g. [0.06] is [dec 6 100]. *)
Definition dec (n : Z) (d : positive) : float := rn (n # d).

(** [float(n)], the conversion Python applies to the [int] operand of a
    mixed operation. *)
Definition float_of_int (n : Z) : outcome float := fl (inject_Z n).

(** [a * f] and [a + f] for an [int] [a] and a [float] [f]. *)
Definition int_mul_float (a : Z) (f : float) : outcome float :=
  fa ← float_of_int a; fl (fa * f)%Q.
Definition int_add_float (a : Z) (f : float) : outcome float :=
  fa ← float_of_int a; fl (fa + f)%Q.

(** [a / b] on two [int]s: the correctly rounded quotient. *)
Definition int_truediv (a b : Z) : outcome float :=
  if b =? 0 then Raise ZeroDivisionError
  else fl (inject_Z a / inject_Z b)%Q.

(** [int(f)]: truncation towards zero. *)
Definition int_of_float (f : float) : Z :=
  if Qle_bool 0 f then Qfloor f else Qceiling f.

(** [int(n * c)] for an [int] [n] and a float constant [c]: how every
    measure of the icon is taken. *)
Definition scaled (n : Z) (c : float) : outcome Z :=
  f ← int_mul_float n c; Ok (int_of_float f).

(** [round(x)]: to the nearest integer, ties to even. *)
Definition round (x : Q) : Z := rne x.

(** A number of the size table: an [int] or a [float]. *)
Inductive number := Int (z : Z) | Float (f : float).

Definition value (n : number) : Q :=
  match n with Int z => inject_Z z | Float f => f end.

(** [a * b] *)
Definition mul (a b : number) : outcome number :=
  match a, b with
  | Int x, Int y => Ok (Int (x * y))
  | Int x, Float g => Float <$> int_mul_float x g
  | Float f, Int y => Float <$> int_mul_float y f
  | Float f, Float g => Float <$> fl (f * g)%Q
  end.

(** [int(a)] *)
Definition to_int (a : number) : Z :=
  match a with Int z => z | Float f => int_of_float f end.

(** [a == b]: numbers compare by value, whatever their types. *)
Definition eqb (a b : number) : bool := Qeq_bool (value a) (value b).

(** [a in xs] *)
Definition member (a : number) (xs : list number) : bool :=
  existsb (eqb a) xs.

(** *** [repr] of a float: the shortest decimal that reads back as it *)

(** [floor (log10 x)] for [x > 0]. *)
Definition ilog10 (x : Q) : Z :=
  let e := (ilog2 x * 30103) / 100000 in
  if Qle_bool (pow10 (e + 1)) x then e + 1
  else if Qle_bool (pow10 e) x then e
  else e - 1.

(** The decimal [d * 10^q] with [nd] digits nearest to [x] among those that
    read back as [x], if one does. *)
Definition decimal_with (x : Q) (nd : Z) : option (Z * Z) :=
  let q := ilog10 x - nd + 1 in
  let s := (x / pow10 q)%Q in
  let lo := Qfloor s in
  let hi := Qceiling s in
  let back d := Qeq_bool (rn (inject_Z d * pow10 q)) x in
  match back lo, back hi with
  | true, true =>
      match Qcompare (s - inject_Z lo) (inject_Z hi - s) with
      | Lt => Some (lo, q)
      | Gt => Some (hi, q)
      | Eq => Some (if Z.even lo then lo else hi, q)
      end
  | true, false => Some (lo, q)
  | false, true => Some (hi, q)
  | false, false => None
  end.

Fixpoint shortest_from (x : Q) (nd : Z) (tries : nat) : Z * Z :=
  match tries with
  | O => (rne (x / pow10 (ilog10 x - 16)), ilog10 x - 16)
  | S tries' =>
      match decimal_with x nd with
      | Some r => r
      | None => shortest_from x (nd + 1) tries'
      end
  end.

Fixpoint strip_zeros (fuel : nat) (d q : Z) : Z * Z :=
  match fuel with
  | O => (d, q)
  | S fuel' =>
      if (d mod 10 =? 0) && negb (d =? 0) then strip_zeros fuel' (d / 10) (q + 1)
      else (d, q)
  end.

(** The digits of [x > 0] and the position of its decimal point. *)
Definition digits (x : Q) : string * Z :=
  let '(d, q) := shortest_from x 1 16 in
  let '(d, q) := strip_zeros 17 d q in
  let ds := pretty d in
  (ds, Z.of_nat (String.length ds) + q).

Fixpoint zeros (n : nat) : string :=
  match n with O => "" | S n' => "0" +:+ zeros n' end.

Definition take_str (n : nat) (s : string) : string := String.substring 0 n s.
Definition drop_str (n : nat) (s : string) : string :=
  String.substring n (String.length s - n) s.

Definition repr_pos (x : Q) : string :=
  let '(ds, decpt) := digits x in
  let n := Z.of_nat (String.length ds) in
  if (decpt <=? -4) || (16 <? decpt) then
    let e := decpt - 1 in
    let mant := take_str 1 ds +:+ (if n =? 1 then "" else "." +:+ drop_str 1 ds) in
    let es := pretty (Z.abs e) in
    mant +:+ "e" +:+ (if e <? 0 then "-" else "+")
         +:+ (if Z.abs e <? 10 then "0" else "") +:+ es
  else if decpt <=? 0 then "0." +:+ zeros (Z.to_nat (- decpt)) +:+ ds
  else if n <=? decpt then ds +:+ zeros (Z.to_nat (decpt - n)) +:+ ".0"
  else take_str (Z.to_nat decpt) ds +:+ "." +:+ drop_str (Z.to_nat decpt) ds.

Definition repr_float (x : float) : string :=
  match Qcompare x 0 with
  | Eq => "0.0"
  | Gt => repr_pos x
  | Lt => "-" +:+ repr_pos (Qopp x)
  end.

(** [str(a)], what an f-string puts in place of [{a}]. *)
Definition str (a : number) : string :=
  match a with
  | Int z => pretty z
  | Float f => repr_float f
  end.

End Py.

(** ** Images and the drawing calls of Pillow *)

Record rgba := RGBA { red : Z; green : Z; blue : Z; alpha : Z }.

(** A colour as the script writes it, [(r, g, b)] and [(r, g, b, a)]. *)
Definition rgb : Type := Z * Z * Z.
Definition colour : Type := Z * Z * Z * Z.

(** [color + (a,)] *)
Definition with_alpha (c : rgb) (a : Z) : colour :=
  let '(r, g, b) := c in (r, g, b, a).

(** Pillow stores each channel of a fill in eight bits. *)
Definition clip8 (v : Z) : Z := Z.max 0 (Z.min 255 v).
Definition ink (c : colour) : rgba :=
  let '(r, g, b, a) := c in RGBA (clip8 r) (clip8 g) (clip8 b) (clip8 a).

Record image := Image { width : Z; height : Z; pixels : Z → Z → rgba }.

Definition inside (img : image) (x y : Z) : bool :=
  (0 <=? x) && (x <? width img) && (0 <=? y) && (y <? height img).

(** [img.getpixel((x, y))] *)
Definition getpixel (img : image) (x y : Z) : option rgba :=
  if inside img x y then Some (pixels img x y) else None.

(** The largest value of a C [int], in which Pillow keeps a side. *)
Definition int_max : Z := 2 ^ 31 - 1.
Definition fits_int (v : Z) : bool := (- 2 ^ 31 <=? v) && (v <=? int_max).

(** Every pixel of the image under the mask takes the colour; in RGBA mode
    a fill replaces the pixel, alpha included. *)
Definition paint (img : image) (mask : Z → Z → bool) (c : rgba) : image :=
  Image (width img) (height img)
        (λ x y, if inside img x y && mask x y then c else pixels img x y).

(** A bounding box [[x0, y0, x1, y1]], both corners included. *)
Definition box : Type := Z * Z * Z * Z.
Definition point : Type := Z * Z.

Definition well_ordered (b : box) : bool :=
  let '(x0, y0, x1, y1) := b in (x0 <=? x1) && (y0 <=? y1).

Definition rect_mask (b : box) (x y : Z) : bool :=
  let '(x0, y0, x1, y1) := b in
  (x0 <=? x) && (x <=? x1) && (y0 <=? y) && (y <=? y1).

(** The smallest box around the points of a polygon. *)
Definition bounding_box (pts : list point) : box :=
  match pts with
  | [] => (0, 0, -1, -1)
  | (x, y) :: rest =>
      foldr (λ '(px, py) '(x0, y0, x1, y1),
               (Z.min px x0, Z.min py y0, Z.max px x1, Z.max py y1))
            (x, y, x, y) rest
  end.

Inductive shape := Rectangle | Ellipse.

(** What the script leaves to Pillow's own algorithms and to the machine. *)
Class Pillow := {
  (** the pixels [ImageDraw.ellipse] fills for a box *)
  ellipse_mask : box → Z → Z → bool;
  (** the pixels [ImageDraw.polygon] fills for its vertices *)
  polygon_mask : list point → Z → Z → bool;
  (** a box with [x1 < x0] or [y1 < y0]: the releases of Pillow differ
      (ValueError, here [None]; or some pixels filled all the same) *)
  inverted_box : shape → box → option (Z → Z → bool);
  (** the pixel [(x, y)] of [img.resize((w, h), Image.LANCZOS)] *)
  resample : image → Z → Z → Z → Z → rgba;
  (** there is memory for a new image of this width and height *)
  has_memory : Z → Z → bool;
}.

(** What the properties below need of them: a shape stays in its box. *)
Class PillowLaws (P : Pillow) : Prop := {
  ellipse_in_box : ∀ b x y, ellipse_mask b x y = true → rect_mask b x y = true;
  polygon_in_box : ∀ pts x y,
    polygon_mask pts x y = true → rect_mask (bounding_box pts) x y = true;
}.

Section Drawing.
Context {P : Pillow}.

(** There is memory for an image of [w] by [h] pixels: the machine holds
    what [has_memory] says, and at least an image the size of the master
    canvas of the script. *)
Definition fits_memory (w h : Z) : bool :=
  ((w <=? 1024) && (h <=? 1024)) || has_memory w h.

(** [Image.new('RGBA', (w, h))]: transparent black.  A negative side is
    refused before anything else (ValueError); a side that does not fit a
    C [int] is an OverflowError; an image there is no memory for is a
    MemoryError. *)
Definition Image_new (w h : Z) : outcome image :=
  if (w <? 0) || (h <? 0) then Raise ValueError
  else if (int_max <? w) || (int_max <? h) then Raise OverflowError
  else if fits_memory w h then Ok (Image w h (λ _ _, RGBA 0 0 0 0))
  else Raise MemoryError.

(** [draw.point((x, y), fill=...)] *)
Definition draw_point (img : image) (xy : point) (fill : colour) : image :=
  paint img (λ x y, (x =? xy.1) && (y =? xy.2)) (ink fill).

Definition shape_mask (s : shape) (b : box) : Z → Z → bool :=
  match s with
  | Rectangle => rect_mask b
  | Ellipse => ellipse_mask b
  end.

Definition draw_shape (s : shape) (img : image) (b : box) (fill : colour)
    : outcome image :=
  if well_ordered b then Ok (paint img (shape_mask s b) (ink fill))
  else match inverted_box s b with
       | Some mask => Ok (paint img mask (ink fill))
       | None => Raise ValueError
       end.

(** [draw.rectangle([x0, y0, x1, y1], fill=...)] *)
Definition draw_rectangle := draw_shape Rectangle.
(** [draw.ellipse([x0, y0, x1, y1], fill=...)] *)
Definition draw_ellipse := draw_shape Ellipse.

(** [draw.polygon(points, fill=...)] *)
Definition draw_polygon (img : image) (pts : list point) (fill : colour)
    : image :=
  paint img (polygon_mask pts) (ink fill).

(** [img.resize((w, h), Image.LANCZOS)]: a new image of the size asked.
    A side that does not fit a C [int] is an OverflowError; then a side
    below one is refused (ValueError); an image there is no memory for is
    a MemoryError. *)
Definition resize (img : image) (w h : Z) : outcome image :=
  if negb (fits_int w && fits_int h) then Raise OverflowError
  else if (w <=? 0) || (h <=? 0) then Raise ValueError
  else if fits_memory w h then Ok (Image w h (resample img w h))
  else Raise MemoryError.

(** ** [create_gradient] *)

(** [int(c1 + (c2 - c1) * ratio)] *)
Definition gradient_channel (c1 c2 : Z) (ratio : Py.float) : outcome Z :=
  p ← Py.int_mul_float (c2 - c1) ratio;
  s ← Py.int_add_float c1 p;
  Ok (Py.int_of_float s).

(** The body of the inner loop: the fill of pixel [(x, y)]. *)
Definition gradient_fill (size : Z) (color1 color2 : rgb) (x y : Z)
    : outcome colour :=
  ratio ← Py.int_truediv (x + y) (2 * size);
  r ← gradient_channel color1.1.1 color2.1.1 ratio;
  g ← gradient_channel color1.1.2 color2.1.2 ratio;
  b ← gradient_channel color1.2 color2.2 ratio;
  Ok (r, g, b, 255).

Definition create_gradient (size : Z) (color1 color2 : rgb) : outcome image :=
  img ← Image_new size size;
  for_each (range size) (λ y img,
    for_each (range size) (λ x img,
      fill ← gradient_fill size color1 color2 x y;
      Ok (draw_point img (x, y) fill)) img) img.

(** ** [draw_rounded_rect] *)

Definition draw_rounded_rect (img : image) (coords : box) (radius : Z)
    (fill : colour) : outcome image :=
  let '(x1, y1, x2, y2) := coords in
  img ← draw_rectangle img (x1 + radius, y1, x2 - radius, y2) fill;
  img ← draw_rectangle img (x1, y1 + radius, x2, y2 - radius) fill;
  img ← draw_ellipse img (x1, y1, x1 + 2 * radius, y1 + 2 * radius) fill;
  img ← draw_ellipse img (x2 - 2 * radius, y1, x2, y1 + 2 * radius) fill;
  img ← draw_ellipse img (x1, y2 - 2 * radius, x1 + 2 * radius, y2) fill;
  draw_ellipse img (x2 - 2 * radius, y2 - 2 * radius, x2, y2) fill.

(** ** [create_icon] *)

Definition color1 : rgb := (102, 126, 234).
Definition color2 : rgb := (118, 75, 162).

(** One turn of the loop body: the tooth drawn at height [y]. *)
Definition tooth_box (zipper_x zipper_width tooth_height y : Z)
    (toggle : bool) : box :=
  if toggle
  then (zipper_x - zipper_width, y, zipper_x - 2, y + tooth_height)
  else (zipper_x + 2, y, zipper_x + zipper_width, y + tooth_height).

Definition tooth_fill (toggle : bool) : colour :=
  if toggle then with_alpha color1 255 else with_alpha color2 255.

(** [while y < zipper_bottom - tooth_height: ...; y += tooth_gap;
    toggle = not toggle].  One unit of fuel per turn. *)
Fixpoint teeth_loop (fuel : nat)
    (zipper_x zipper_width tooth_height tooth_gap zipper_bottom : Z)
    (img : image) (y : Z) (toggle : bool) : outcome image :=
  if y <? zipper_bottom - tooth_height then
    match fuel with
    | O => OutOfFuel
    | S fuel' =>
        img ← draw_rectangle img
               (tooth_box zipper_x zipper_width tooth_height y toggle)
               (tooth_fill toggle);
        teeth_loop fuel' zipper_x zipper_width tooth_height tooth_gap
                   zipper_bottom img (y + tooth_gap) (negb toggle)
    end
  else Ok img.

Definition create_icon (fuel : nat) (size : Z) : outcome image :=
  img ← create_gradient size color1 color2;
  let center := size / 2 in
  box_size ← Py.scaled size (Py.dec 5 10);
  let box_left := center - box_size / 2 in
  inset ← Py.scaled size (Py.dec 5 100);
  let box_top := center - box_size / 2 + inset in
  let box_right := box_left + box_size in
  let box_bottom := box_top + box_size in
  radius ← Py.scaled size (Py.dec 5 100);
  img ← draw_rounded_rect img (box_left, box_top, box_right, box_bottom)
                          radius (255, 255, 255, 230);
  let zipper_x := center in
  zipper_width ← Py.scaled size (Py.dec 8 100);
  tooth_height ← Py.scaled size (Py.dec 4 100);
  tooth_gap ← Py.scaled size (Py.dec 6 100);
  top_offset ← Py.scaled size (Py.dec 8 100);
  let zipper_top := box_top + top_offset in
  bottom_offset ← Py.scaled size (Py.dec 8 100);
  let zipper_bottom := box_bottom - bottom_offset in
  img ← teeth_loop fuel zipper_x zipper_width tooth_height tooth_gap
                   zipper_bottom img zipper_top true;
  pull_size ← Py.scaled size (Py.dec 8 100);
  let pull_y := zipper_top - pull_size in
  img ← draw_ellipse img
         (center - pull_size, pull_y, center + pull_size, pull_y + pull_size * 2)
         (255, 215, 0, 255);
  crown_y ← Py.scaled size (Py.dec 12 100);
  crown_height ← Py.scaled size (Py.dec 12 100);
  crown_width ← Py.scaled size (Py.dec 25 100);
  let crown_left := center - crown_width in
  let crown_right := center + crown_width in
  let points :=
    [ (crown_left, crown_y + crown_height);
      (crown_left, crown_y + crown_height / 2);
      (crown_left + crown_width / 2, crown_y + crown_height);
      (center, crown_y);
      (crown_right - crown_width / 2, crown_y + crown_height);
      (crown_right, crown_y + crown_height / 2);
      (crown_right, crown_y + crown_height) ] in
  let img := draw_polygon img points (255, 215, 0, 255) in
  gem_size ← Py.scaled size (Py.dec 25 1000);
  draw_ellipse img
    (center - gem_size, crown_y + gem_size,
     center + gem_size, crown_y + gem_size * 3)
    (255, 100, 100, 255).

End Drawing.


(** ** The manifest: JSON values and [json.dump(contents, f, indent=2)] *)

#[local] Unset Elimination Schemes.
Inductive json :=
  | JStr (s : string)
  | JInt (z : Z)
  | JList (items : list json)
  | JDict (fields : list (string * json)).
#[local] Set Elimination Schemes.

(** [d[key].append(item)] on a dict [d] whose [key] holds a list. *)
Definition append_at (key : string) (item : json) (d : json) : json :=
  match d with
  | JDict fields =>
      JDict (List.map (λ '(k, v),
               if String.eqb k key
               then (k, match v with JList l => JList (l ++ [item]) | _ => v end)
               else (k, v)) fields)
  | _ => d
  end.

(** [d[key]] *)
Definition dict_get (key : string) (d : json) : option json :=
  match d with
  | JDict fields => snd <$> List.find (λ kv, String.eqb kv.1 key) fields
  | _ => None
  end.

Definition newline : string := String (ascii_of_nat 10) "".
Definition dquote : string := String (ascii_of_nat 34) "".
Definition backslash : string := String (ascii_of_nat 92) "".

Definition hex_digit (n : nat) : string :=
  String.substring n 1 "0123456789abcdef".

(** One character of a JSON string, as [ensure_ascii=True] writes it (a
    character of the embedding is one byte, read as a code point). *)
Definition escape_char (c : ascii) : string :=
  let n := nat_of_ascii c in
  if (n =? 34)%nat then backslash +:+ dquote
  else if (n =? 92)%nat then backslash +:+ backslash
  else if (n =? 10)%nat then backslash +:+ "n"
  else if (n =? 13)%nat then backslash +:+ "r"
  else if (n =? 9)%nat then backslash +:+ "t"
  else if (n =? 8)%nat then backslash +:+ "b"
  else if (n =? 12)%nat then backslash +:+ "f"
  else if (n <? 32)%nat || (126 <? n)%nat
       then backslash +:+ "u00" +:+ hex_digit (n / 16) +:+ hex_digit (n mod 16)
  else String c "".

Fixpoint escape (s : string) : string :=
  match s with
  | EmptyString => ""
  | String c s' => escape_char c +:+ escape s'
  end.

Definition quoted (s : string) : string := dquote +:+ escape s +:+ dquote.

Fixpoint spaces (n : nat) : string :=
  match n with O => "" | S n' => " " +:+ spaces n' end.

(** A line break followed by the indentation of nesting depth [level]. *)
Definition break (level : nat) : string := newline +:+ spaces (2 * level).

Fixpoint join (sep : string) (parts : list string) : string :=
  match parts with
  | [] => ""
  | [p] => p
  | p :: rest => p +:+ sep +:+ join sep rest
  end.

Fixpoint dump_at (level : nat) (j : json) : string :=
  match j with
  | JStr s => quoted s
  | JInt z => pretty z
  | JList [] => "[]"
  | JList items =>
      "[" +:+ break (S level)
          +:+ join ("," +:+ break (S level)) (List.map (dump_at (S level)) items)
          +:+ break level +:+ "]"
  | JDict [] => "{}"
  | JDict fields =>
      "{" +:+ break (S level)
          +:+ join ("," +:+ break (S level))
                (List.map (λ kv, quoted kv.1 +:+ ": " +:+ dump_at (S level) kv.2)
                          fields)
          +:+ break level +:+ "}"
  end.

(** The text [json.dump(j, f, indent=2)] writes. *)
Definition dump (j : json) : string := dump_at 0 j.

(** ** The world [main] runs in *)

Inductive platform := Posix | Windows.

Definition last_char (s : string) : option ascii :=
  last (String.list_ascii_of_string s).
Definition first_char (s : string) : option ascii :=
  head (String.list_ascii_of_string s).

Definition is_sep (os : platform) (c : ascii) : bool :=
  match os with
  | Posix => Ascii.eqb c "/"
  | Windows => Ascii.eqb c "/" || Ascii.eqb c (ascii_of_nat 92)
  end.

Definition separator (os : platform) : string :=
  match os with Posix => "/" | Windows => backslash end.

(** The drive of a path: on Windows its first two characters, when the
    second is a colon. *)
Definition drive_of (os : platform) (a : string) : string :=
  match os, a with
  | Windows, String c (String ":"%char _) => String c ":"
  | _, _ => ""
  end.

(** The path without its drive. *)
Definition after_drive (os : platform) (a : string) : string :=
  let n := String.length (drive_of os a) in
  String.substring n (String.length a - n) a.

(** [os.path.join(a, p)] for a second part [p] that names no drive, neither
    part starting with a UNC or device prefix: a rooted [p] replaces [a] but
    for its drive; otherwise the parts are put together with the platform's
    separator, unless what [a] holds after its drive is empty or already
    ends in one. *)
Definition path_join (os : platform) (a p : string) : string :=
  match first_char p with
  | Some c =>
      if is_sep os c then drive_of os a +:+ p
      else match last_char (after_drive os a) with
           | None => a +:+ p
           | Some l => if is_sep os l then a +:+ p else a +:+ separator os +:+ p
           end
  | None =>
      match last_char (after_drive os a) with
      | None => a
      | Some l => if is_sep os l then a else a +:+ separator os
      end
  end.

(** A file opened in text mode writes a line break as the platform's. *)
Fixpoint text_bytes (os : platform) (s : string) : string :=
  match s with
  | EmptyString => ""
  | String c s' =>
      (if Ascii.eqb c (ascii_of_nat 10)
       then match os with
            | Posix => newline
            | Windows => String (ascii_of_nat 13) newline
            end
       else String c "") +:+ text_bytes os s'
  end.

(** A file: a PNG holds its pixels without loss, a text file its bytes. *)
Inductive file := Png (img : image) | Text (bytes : string).

Inductive event := Saved (path : string) (f : file) | Printed (line : string).

(** The files on disk and, latest last, what the script wrote and printed.
    The output directory is taken to exist and to be writable. *)
Record world := World { files : gmap string file; trace : list event }.

Definition save (w : world) (path : string) (f : file) : world :=
  World (<[path := f]> (files w)) (trace w ++ [Saved path f]).

Definition print (w : world) (line : string) : world :=
  World (files w) (trace w ++ [Printed line]).

(** ** [main] *)

Definition sizes : list (Py.number * Z) :=
  [ (Py.Int 20, 1); (Py.Int 20, 2); (Py.Int 20, 3);
    (Py.Int 29, 1); (Py.Int 29, 2); (Py.Int 29, 3);
    (Py.Int 40, 1); (Py.Int 40, 2); (Py.Int 40, 3);
    (Py.Int 60, 2); (Py.Int 60, 3);
    (Py.Int 76, 1); (Py.Int 76, 2);
    (Py.Float (Py.dec 835 10), 2);
    (Py.Int 1024, 1) ].

Definition output_dir : string :=
  "C:\Users\Admin\Desktop\QuickUnzip\QuickUnzip\Assets.xcassets\AppIcon.appiconset".

(** [int(base_size * scale)] *)
Definition actual_size (base_size : Py.number) (scale : Z) : outcome Z :=
  Py.to_int <$> Py.mul base_size (Py.Int scale).

(** [f"icon_{actual_size}x{actual_size}.png"] *)
Definition icon_filename (actual_size : Z) : string :=
  "icon_" +:+ pretty actual_size +:+ "x" +:+ pretty actual_size +:+ ".png".

(** [idiom = "iphone" if base_size in [20, 29, 40, 60] else "ipad"], then
    [if base_size == 1024: idiom = "ios-marketing"]. *)
Definition idiom_of (base_size : Py.number) : string :=
  let idiom :=
    if Py.member base_size [Py.Int 20; Py.Int 29; Py.Int 40; Py.Int 60]
    then "iphone" else "ipad" in
  if Py.eqb base_size (Py.Int 1024) then "ios-marketing" else idiom.

(** The entry appended to [contents["images"]]. *)
Definition manifest_entry (filename : string) (base_size : Py.number)
    (scale : Z) : json :=
  JDict [ ("filename", JStr filename);
          ("idiom", JStr (idiom_of base_size));
          ("scale", JStr (pretty scale +:+ "x"));
          ("size", JStr (Py.str base_size +:+ "x" +:+ Py.str base_size)) ].

Definition empty_contents : json :=
  JDict [ ("images", JList []);
          ("info", JDict [ ("author", JStr "xcode"); ("version", JInt 1) ]) ].

Section ExportLoop.
Context {P : Pillow}.

(** One turn of [for base_size, scale in sizes]. *)
Definition export_one (os : platform) (output_dir : string) (master : image)
    (spec : Py.number * Z) (st : world * json) : outcome (world * json) :=
  let '(base_size, scale) := spec in
  let '(w, contents) := st in
  actual_size ← actual_size base_size scale;
  let filename := icon_filename actual_size in
  let filepath := path_join os output_dir filename in
  icon ← resize master actual_size actual_size;
  let w := save w filepath (Png icon) in
  let w := print w ("Created: " +:+ filename) in
  Ok (w, append_at "images" (manifest_entry filename base_size scale) contents).

(** The body of [main], its two local constants [sizes] and [output_dir]
    taken as arguments. *)
Definition main_with (os : platform) (sizes : list (Py.number * Z))
    (output_dir : string) (fuel : nat) (w : world) : outcome world :=
  master ← create_icon fuel 1024;
  st ← for_each sizes (export_one os output_dir master) (w, empty_contents);
  let '(w, contents) := st in
  let contents_path := path_join os output_dir "Contents.json" in
  let w := save w contents_path (Text (text_bytes os (dump contents))) in
  Ok (print w "Created: Contents.json").

Definition main (os : platform) (fuel : nat) (w : world) : outcome world :=
  main_with os sizes output_dir fuel w.

End ExportLoop.

(** ** A rasteriser to run the script with

    An instance of [Pillow] for examples: an ellipse is the lattice points
    of the inscribed ellipse, a polygon is filled by the even-odd rule, a
    box with its corners in the wrong order is refused (as current Pillow
    does), resizing samples the nearest pixel in place of Lanczos, and there
    is memory for images of up to 2^30 pixels. *)

Definition lattice_ellipse (b : box) (x y : Z) : bool :=
  let '(x0, y0, x1, y1) := b in
  let w := x1 - x0 in
  let h := y1 - y0 in
  rect_mask b x y
  && ((2 * x - x0 - x1) ^ 2 * h ^ 2 + (2 * y - y0 - y1) ^ 2 * w ^ 2
      <=? w ^ 2 * h ^ 2).

(** The ray from [(x, y)] to the right crosses the edge from [p] to [q]. *)
Definition crosses (x y : Z) (p q : point) : bool :=
  let '(xi, yi) := p in
  let '(xj, yj) := q in
  negb (Bool.eqb (y <? yi) (y <? yj))
  && (if yi <? yj
      then (x - xi) * (yj - yi) <? (xj - xi) * (y - yi)
      else (xj - xi) * (y - yi) <? (x - xi) * (yj - yi)).

Definition even_odd (pts : list point) (x y : Z) : bool :=
  match pts with
  | [] => false
  | p :: rest =>
      Nat.odd (length (filter (λ e, crosses x y e.1 e.2 = true)
                              (zip pts (rest ++ [p]))))
  end.

Definition nearest (img : image) (w h x y : Z) : rgba :=
  pixels img (x * width img / w) (y * height img / h).

Definition plain_pillow : Pillow := {|
  ellipse_mask := lattice_ellipse;
  polygon_mask pts x y := rect_mask (bounding_box pts) x y && even_odd pts x y;
  inverted_box _ _ := None;
  resample := nearest;
  has_memory w h := w * h <=? 2 ^ 30;
|}.

(** The same rasteriser on an older Pillow, which puts the corners of a
    box in order before it draws. *)
Definition ordered (b : box) : box :=
  let '(x0, y0, x1, y1) := b in
  (Z.min x0 x1, Z.min y0 y1, Z.max x0 x1, Z.max y0 y1).

Definition tolerant_pillow : Pillow := {|
  ellipse_mask := lattice_ellipse;
  polygon_mask pts x y := rect_mask (bounding_box pts) x y && even_odd pts x y;
  inverted_box s b :=
    Some (match s with
          | Rectangle => rect_mask (ordered b)
          | Ellipse => lattice_ellipse (ordered b)
          end);
  resample := nearest;
  has_memory w h := w * h <=? 2 ^ 30;
|}.

(** ** Vocabulary of the properties *)

(** The three channels of a gradient pixel of [create_icon], from its
    ratio: each product and each sum rounded, the result cut by [int()]. *)
Definition red_of (ratio : Q) : Z :=
  Py.int_of_float (Py.rn (102 + Py.rn (16 * ratio)))%Q.
Definition green_of (ratio : Q) : Z :=
  Py.int_of_float (Py.rn (126 + Py.rn (-51 * ratio)))%Q.
Definition blue_of (ratio : Q) : Z :=
  Py.int_of_float (Py.rn (234 + Py.rn (-72 * ratio)))%Q.

(** The side converts to a float: [float(size)] does not overflow, which
    holds below [2^1024]. *)
Definition fits_float (size : Z) : Prop :=
  ∃ f, Py.float_of_int size = Ok f.

(** Pillow and the machine take a square image of this side: the side
    fits a C [int] and there is memory for the pixels.  Every side up to
    1024 qualifies. *)
Definition room_for {P : Pillow} (side : Z) : Prop :=
  side < 2 ^ 31 ∧ fits_memory side side = true.

(** A release of Pillow that fills a box given with its corners in the
    wrong order instead of refusing it. *)
Definition lenient (P : Pillow) : Prop :=
  ∀ s b, is_Some (inverted_box s b).

(** The pixel [(x, y)] of the gradient of side [size]. *)
Definition gradient_ratio (size x y : Z) : Q :=
  Py.rn (inject_Z (x + y) / inject_Z (2 * size))%Q.
Definition gradient_pixel (size x y : Z) : rgba :=
  let ratio := gradient_ratio size x y in
  ink (red_of ratio, green_of ratio, blue_of ratio, 255).

(** Every pixel of the image has this alpha, or one of these two. *)
Definition all_alpha (a : Z) (img : image) : Prop :=
  ∀ x y, inside img x y = true → alpha (pixels img x y) = a.
Definition alpha_among (a a' : Z) (img : image) : Prop :=
  ∀ x y, inside img x y = true →
         alpha (pixels img x y) = a ∨ alpha (pixels img x y) = a'.

Definition square (n : Z) (img : image) : Prop :=
  width img = n ∧ height img = n.

(** A canvas of side [n] whose pixels all have the alpha of the background
    or the alpha of the box. *)
Definition painted (n : Z) (img : image) : Prop :=
  square n img ∧ alpha_among 255 230 img.

(** Two channels, or two pixels, are within one unit of each other. *)
Definition near (a b : Z) : Prop := Z.abs (a - b) <= 1.
Definition near_rgb (p : rgba) (c : rgb) : Prop :=
  near (red p) c.1.1 ∧ near (green p) c.1.2 ∧ near (blue p) c.2.

(** The horizontal and vertical extent of a box, and the pixel columns and
    rows it covers (both corners are included). *)
Definition extent_x (b : box) : Z := let '(x0, _, x1, _) := b in x1 - x0.
Definition extent_y (b : box) : Z := let '(_, y0, _, y1) := b in y1 - y0.
Definition columns (b : box) : Z := extent_x b + 1.
Definition rows (b : box) : Z := extent_y b + 1.

(** The teeth of the zipper, in the order drawn: tooth [k] starts at
    [y0 + k * tooth_gap], on the left when [k] is even. *)
Definition tooth (zipper_x zipper_width tooth_height tooth_gap y0 : Z)
    (k : nat) : box * colour :=
  (tooth_box zipper_x zipper_width tooth_height
             (y0 + Z.of_nat k * tooth_gap) (Nat.even k),
   tooth_fill (Nat.even k)).

Definition teeth (zipper_x zipper_width tooth_height tooth_gap y0 : Z)
    (n : nat) : list (box * colour) :=
  tooth zipper_x zipper_width tooth_height tooth_gap y0 <$> seq 0 n.

(** How many turns the loop takes from [y0] up to [limit], for a gap of at
    least one. *)
Definition tooth_count (y0 limit tooth_gap : Z) : nat :=
  if y0 <? limit then Z.to_nat ((limit - y0 + tooth_gap - 1) / tooth_gap)
  else O.

(** Drawing a list of rectangles, one after the other. *)
Definition draw_all {P : Pillow} (shapes : list (box * colour)) (img : image)
    : outcome image :=
  for_each shapes (λ bc img, draw_rectangle img bc.1 bc.2) img.

(** The pixel size the specification asks for: the exact product of the
    logical size and the scale, rounded to the nearest integer. *)
Definition rounded_size (spec : Py.number * Z) : Z :=
  Py.round (Py.value spec.1 * inject_Z spec.2)%Q.

(** The largest pixel size of a size table. *)
Definition max_size (table : list (Py.number * Z)) : Z :=
  foldr Z.max 0 (rounded_size <$> table).

(** The file names of a size table, in order. *)
Definition table_filenames (table : list (Py.number * Z))
    : list (outcome string) :=
  (λ spec, icon_filename <$> actual_size spec.1 spec.2) <$> table.

(** The files after the events of a trace. *)
Definition replay (evs : list event) (fs : gmap string file)
    : gmap string file :=
  foldl (λ fs e, match e with
                 | Saved path f => <[path := f]> fs
                 | Printed _ => fs
                 end) fs evs.

(** The images saved by a trace, with their paths, in order. *)
Definition saved_images (evs : list event) : list (string * image) :=
  omap (λ e, match e with
             | Saved path (Png img) => Some (path, img)
             | _ => None
             end) evs.

(** The lines printed by a trace, in order. *)
Definition printed_lines (evs : list event) : list string :=
  omap (λ e, match e with Printed line => Some line | Saved _ _ => None end) evs.

(** The manifest entry the specification describes for one size. *)
Definition entry (filename idiom scale size : string) : json :=
  JDict [ ("filename", JStr filename); ("idiom", JStr idiom);
          ("scale", JStr scale); ("size", JStr size) ].

Definition info : json :=
  JDict [ ("author", JStr "xcode"); ("version", JInt 1) ].

Definition reference_images : list json :=
  [ entry "icon_20x20.png" "iphone" "1x" "20x20";
    entry "icon_40x40.png" "iphone" "2x" "20x20";
    entry "icon_60x60.png" "iphone" "3x" "20x20";
    entry "icon_29x29.png" "iphone" "1x" "29x29";
    entry "icon_58x58.png" "iphone" "2x" "29x29";
    entry "icon_87x87.png" "iphone" "3x" "29x29";
    entry "icon_40x40.png" "iphone" "1x" "40x40";
    entry "icon_80x80.png" "iphone" "2x" "40x40";
    entry "icon_120x120.png" "iphone" "3x" "40x40";
    entry "icon_120x120.png" "iphone" "2x" "60x60";
    entry "icon_180x180.png" "iphone" "3x" "60x60";
    entry "icon_76x76.png" "ipad" "1x" "76x76";
    entry "icon_152x152.png" "ipad" "2x" "76x76";
    entry "icon_167x167.png" "ipad" "2x" "83.5x83.5";
    entry "icon_1024x1024.png" "ios-marketing" "1x" "1024x1024" ].

(** A world with nothing on disk and nothing printed yet. *)
Definition fresh : world := World ∅ [].

(** [create_icon] once the background is painted and the measures are
    taken, with the loop of the teeth as the step [loop]: the drawing calls
    in their order. *)
Definition compose_icon {P : Pillow} (loop : image → outcome image)
    (size : Z) (bg : image)
    (box_size inset zipper_width crown crown_width gem_size : Z)
    : outcome image :=
  let center := size / 2 in
  let box_left := center - box_size / 2 in
  let box_top := center - box_size / 2 + inset in
  let box_right := box_left + box_size in
  let box_bottom := box_top + box_size in
  img ← draw_rounded_rect bg (box_left, box_top, box_right, box_bottom)
                          inset (255, 255, 255, 230);
  img ← loop img;
  let zipper_top := box_top + zipper_width in
  let pull_y := zipper_top - zipper_width in
  img ← draw_ellipse img
         (center - zipper_width, pull_y,
          center + zipper_width, pull_y + zipper_width * 2)
         (255, 215, 0, 255);
  let crown_left := center - crown_width in
  let crown_right := center + crown_width in
  let points :=
    [ (crown_left, crown + crown);
      (crown_left, crown + crown / 2);
      (crown_left + crown_width / 2, crown + crown);
      (center, crown);
      (crown_right - crown_width / 2, crown + crown);
      (crown_right, crown + crown / 2);
      (crown_right, crown + crown) ] in
  let img := draw_polygon img points (255, 215, 0, 255) in
  draw_ellipse img
    (center - gem_size, crown + gem_size,
     center + gem_size, crown + gem_size * 3)
    (255, 100, 100, 255).

(** Where the box of the icon starts and ends vertically. *)
Definition box_top_of (size box_size inset : Z) : Z :=
  size / 2 - box_size / 2 + inset.
Definition box_bottom_of (size box_size inset : Z) : Z :=
  box_top_of size box_size inset + box_size.

(** The loop of the teeth as [create_icon] calls it. *)
Definition teeth_step {P : Pillow} (fuel : nat)
    (size box_size inset zipper_width tooth_height tooth_gap : Z)
    (img : image) : outcome image :=
  teeth_loop fuel (size / 2) zipper_width tooth_height tooth_gap
             (box_bottom_of size box_size inset - zipper_width) img
             (box_top_of size box_size inset + zipper_width) true.

(** What one turn of the export loop writes and prints, and the entry it
    adds to the manifest. *)
Definition export_output {P : Pillow} (os : platform) (output_dir : string)
    (master : image) (spec : Py.number * Z) : outcome (list event * json) :=
  a ← actual_size spec.1 spec.2;
  icon ← resize master a a;
  Ok ([ Saved (path_join os output_dir (icon_filename a)) (Png icon);
        Printed ("Created: " +:+ icon_filename a) ],
      manifest_entry (icon_filename a) spec.1 spec.2).

(** The output of the whole loop, and the manifest it leaves. *)
Fixpoint exports {P : Pillow} (os : platform) (output_dir : string)
    (master : image) (table : list (Py.number * Z)) (contents : json)
    : outcome (list event * json) :=
  match table with
  | [] => Ok ([], contents)
  | spec :: rest =>
      r ← export_output os output_dir master spec;
      r' ← exports os output_dir master rest (append_at "images" r.2 contents);
      Ok (r.1 ++ r'.1, r'.2)
  end.

(** Everything a run writes and prints, from the master image alone. *)
Definition run_output {P : Pillow} (os : platform) (table : list (Py.number * Z))
    (output_dir : string) (master : image) : outcome (list event) :=
  r ← exports os output_dir master table empty_contents;
  Ok (r.1 ++ [ Saved (path_join os output_dir "Contents.json")
                     (Text (text_bytes os (dump r.2)));
               Printed "Created: Contents.json" ]).

(** The last file a trace saved under a path. *)
Definition last_saved (path : string) (evs : list event) : option file :=
  foldl (λ acc e, match e with
                  | Saved p f => if String.eqb p path then Some f else acc
                  | Printed _ => acc
                  end) None evs.

(** The pixel sizes of the reference table, in order, and what a run on it
    writes and prints. *)
Definition reference_sizes : list Z :=
  [20; 40; 60; 29; 58; 87; 40; 80; 120; 120; 180; 76; 152; 167; 1024].

Definition reference_manifest : json :=
  JDict [ ("images", JList reference_images); ("info", info) ].

Definition reference_output {P : Pillow} (os : platform) (master : image)
    : list event :=
  (reference_sizes ≫= λ a,
     [ Saved (path_join os output_dir (icon_filename a))
             (Png (Image a a (resample master a a)));
       Printed ("Created: " +:+ icon_filename a) ])
  ++ [ Saved (path_join os output_dir "Contents.json")
             (Text (text_bytes os (dump reference_manifest)));
       Printed "Created: Contents.json" ].

Definition reference_names : list string :=
  [ "icon_20x20.png"; "icon_40x40.png"; "icon_60x60.png";
    "icon_29x29.png"; "icon_58x58.png"; "icon_87x87.png";
    "icon_40x40.png"; "icon_80x80.png"; "icon_120x120.png";
    "icon_120x120.png"; "icon_180x180.png";
    "icon_76x76.png"; "icon_152x152.png";
    "icon_167x167.png"; "icon_1024x1024.png" ].

(** The manifest as a text file, written out line by line.  A row is the
    four values of an entry: file name, idiom, scale and size. *)
Definition row : Type := string * string * string * string.

Definition row_entry (r : row) : json :=
  let '(filename, idiom, scale, size) := r in entry filename idiom scale size.

Definition reference_rows : list row :=
  [ ("icon_20x20.png", "iphone", "1x", "20x20");
    ("icon_40x40.png", "iphone", "2x", "20x20");
    ("icon_60x60.png", "iphone", "3x", "20x20");
    ("icon_29x29.png", "iphone", "1x", "29x29");
    ("icon_58x58.png", "iphone", "2x", "29x29");
    ("icon_87x87.png", "iphone", "3x", "29x29");
    ("icon_40x40.png", "iphone", "1x", "40x40");
    ("icon_80x80.png", "iphone", "2x", "40x40");
    ("icon_120x120.png", "iphone", "3x", "40x40");
    ("icon_120x120.png", "iphone", "2x", "60x60");
    ("icon_180x180.png", "iphone", "3x", "60x60");
    ("icon_76x76.png", "ipad", "1x", "76x76");
    ("icon_152x152.png", "ipad", "2x", "76x76");
    ("icon_167x167.png", "ipad", "2x", "83.5x83.5");
    ("icon_1024x1024.png", "ios-marketing", "1x", "1024x1024") ].

(** The line break of a text file on the platform. *)
Definition eol (os : platform) : string :=
  match os with
  | Posix => newline
  | Windows => String (ascii_of_nat 13) newline
  end.

Definition in_quotes (s : string) : string := dquote +:+ s +:+ dquote.

(** The six lines of one entry; an entry that is not the last of the list
    has a comma after its closing brace. *)
Definition entry_lines (last : bool) (r : row) : list string :=
  let '(filename, idiom, scale, size) := r in
  [ "    {";
    "      " +:+ in_quotes "filename" +:+ ": " +:+ in_quotes filename +:+ ",";
    "      " +:+ in_quotes "idiom" +:+ ": " +:+ in_quotes idiom +:+ ",";
    "      " +:+ in_quotes "scale" +:+ ": " +:+ in_quotes scale +:+ ",";
    "      " +:+ in_quotes "size" +:+ ": " +:+ in_quotes size;
    if last then "    }" else "    }," ].

Fixpoint entries_lines (rows : list row) : list string :=
  match rows with
  | [] => []
  | [r] => entry_lines true r
  | r :: rest => entry_lines false r ++ entries_lines rest
  end.

(** The lines of the manifest file whose list of images has these rows,
    one at least. *)
Definition manifest_lines (rows : list row) : list string :=
  [ "{"; "  " +:+ in_quotes "images" +:+ ": [" ]
  ++ entries_lines rows
  ++ [ "  ],";
       "  " +:+ in_quotes "info" +:+ ": {";
       "    " +:+ in_quotes "author" +:+ ": " +:+ in_quotes "xcode" +:+ ",";
       "    " +:+ in_quotes "version" +:+ ": 1";
       "  }";
       "}" ].

(** A string without the letter x. *)
Fixpoint free_of_x (s : string) : Prop :=
  match s with
  | EmptyString => True
  | String c s' => c ≠ "x"%char ∧ free_of_x s'
  end.

(** ** Vocabulary of the further properties *)

(** A release of Pillow that refuses every box given with its corners in
    the wrong order (ValueError), as the current ones do. *)
Definition strict (P : Pillow) : Prop :=
  ∀ s b, inverted_box s b = None.

(** The radius of a rounded rectangle fits its box: it is not negative and
    the two corner circles of a side fit next to each other. *)
Definition fits_corners (coords : box) (radius : Z) : Prop :=
  let '(x1, y1, x2, y2) := coords in
  0 <= radius ∧ 2 * radius <= x2 - x1 ∧ 2 * radius <= y2 - y1.

(** The two strips of a rounded rectangle: the box without its four corner
    squares. *)
Definition in_strips (coords : box) (radius x y : Z) : Prop :=
  let '(x1, y1, x2, y2) := coords in
  (x1 + radius <= x <= x2 - radius ∧ y1 <= y <= y2)
  ∨ (x1 <= x <= x2 ∧ y1 + radius <= y <= y2 - radius).

(** [v] is [k/1000] of [n], up to the floor and to the rounding of the
    float product, in whole numbers: how the order of the measures of the
    icon is settled. *)
Definition about (k n v : Z) : Prop :=
  0 <= v
  ∧ 1000000 * v <= (1000 * k + 1) * n + 100000
  ∧ (1000 * k - 1) * n < 1000000 * v + 1100000.

(** The order of the measures that the layout of the icon relies on: the
    corners fit the box, a tooth has room, the crown and its gem end above
    the box, and everything drawn stays off the rim of the canvas. *)
Definition layout_facts (N bs ins zw th gap cr cw gs : Z) : Prop :=
  let c := N / 2 in
  let box_left := c - bs / 2 in
  let box_top := box_left + ins in
  let box_right := box_left + bs in
  let box_bottom := box_top + bs in
  (0 <= ins ∧ 2 * ins <= bs ∧ bs <= N)
  ∧ (2 <= zw ∧ 0 <= th ∧ 1 <= gap ∧ th < 2 * gap ∧ 0 <= gs ∧ 1 <= cr)
  ∧ (gs <= zw ∧ zw <= cw ∧ zw <= bs / 2 ∧ 2 * zw + th < bs)
  ∧ (2 * cr < box_top ∧ cr + 3 * gs < box_top)
  ∧ (1 <= c - cw ∧ 1 <= box_left ∧ c + cw <= N - 2 ∧ box_right <= N - 2
     ∧ box_bottom <= N - 2).

(** The box of the icon, and the smallest box around it and the crown:
    nothing is drawn outside the second one. *)
Definition icon_box (N bs ins : Z) : box :=
  (N / 2 - bs / 2, box_top_of N bs ins,
   N / 2 - bs / 2 + bs, box_bottom_of N bs ins).

Definition frame (N bs ins cr cw : Z) : box :=
  (Z.min (N / 2 - bs / 2) (N / 2 - cw), cr,
   Z.max (N / 2 - bs / 2 + bs) (N / 2 + cw), box_bottom_of N bs ins).

(** The boxes of the pull, of the crown and of the gem. *)
Definition pull_box (N bs ins zw : Z) : box :=
  (N / 2 - zw, box_top_of N bs ins,
   N / 2 + zw, box_top_of N bs ins + 2 * zw).

Definition crown_box (N cr cw : Z) : box :=
  (N / 2 - cw, cr, N / 2 + cw, cr + cr).

Definition gem_box (N cr gs : Z) : box :=
  (N / 2 - gs, cr + gs, N / 2 + gs, cr + gs * 3).

(** What one turn of the export loop writes and prints for the pixel size
    [a]. *)
Definition export_events {P : Pillow} (os : platform) (dir : string)
    (master : image) (a : Z) : list event :=
  [ Saved (path_join os dir (icon_filename a))
          (Png (Image a a (resample master a a)));
    Printed ("Created: " +:+ icon_filename a) ].

(** The manifest with these entries. *)
Definition manifest_of (entries : list json) : json :=
  JDict [ ("images", JList entries); ("info", info) ].

(** The entries of a size table whose pixel sizes are [pixel_sizes]. *)
Definition table_entries (table : list (Py.number * Z)) (pixel_sizes : list Z)
    : list json :=
  zip_with (λ spec a, manifest_entry (icon_filename a) spec.1 spec.2)
           table pixel_sizes.

(** Everything a run on such a table writes and prints. *)
Definition table_output {P : Pillow} (os : platform) (dir : string)
    (master : image) (table : list (Py.number * Z)) (pixel_sizes : list Z)
    : list event :=
  (pixel_sizes ≫= export_events os dir master)
  ++ [ Saved (path_join os dir "Contents.json")
             (Text (text_bytes os (dump (manifest_of
                                           (table_entries table pixel_sizes)))));
       Printed "Created: Contents.json" ].

(** The pixel sizes of a size table, each of them positive and such that
    Pillow and the machine take an image of that side (a side below 2^31,
    and memory for its pixels). *)
Definition sized {P : Pillow} (table : list (Py.number * Z))
    (pixel_sizes : list Z) : Prop :=
  Forall2 (λ spec a, actual_size spec.1 spec.2 = Ok a ∧ 0 < a ∧ room_for a)
          table pixel_sizes.

(** The seven vertices of the crown, as [create_icon] lists them. *)
Definition crown_points (N cr cw : Z) : list point :=
  [ (N / 2 - cw, cr + cr);
    (N / 2 - cw, cr + cr / 2);
    (N / 2 - cw + cw / 2, cr + cr);
    (N / 2, cr);
    (N / 2 + cw - cw / 2, cr + cr);
    (N / 2 + cw, cr + cr / 2);
    (N / 2 + cw, cr + cr) ].

(** * Properties *)

(** ** Rounding to binary64 *)

Module PyFacts.
Import Py.
Local Open Scope Q_scope.

Lemma pow2_pos k : 0 < pow2 k.
Proof. unfold pow2. apply Qpower_0_lt. reflexivity. Qed.

Lemma pow2_add a b : pow2 (a + b) == pow2 a * pow2 b.
Proof. unfold pow2. apply Qpower_plus. discriminate. Qed.

Lemma pow2_Z n : (0 <= n)%Z → pow2 n == inject_Z (2 ^ n).
Proof.
  intros Hn. unfold pow2. rewrite Zpower_Qpower by exact Hn. reflexivity.
Qed.

Lemma pow2_ge_1 n : (0 <= n)%Z → 1 <= pow2 n.
Proof.
  intros Hn. rewrite pow2_Z by exact Hn.
  change 1 with (inject_Z 1). rewrite <- Zle_Qle.
  pose proof (Z.pow_pos_nonneg 2 n). lia.
Qed.

Lemma pow2_le a b : (a <= b)%Z → pow2 a <= pow2 b.
Proof.
  intros Hab. replace b with (a + (b - a))%Z by lia.
  rewrite pow2_add.
  pose proof (pow2_pos a). pose proof (pow2_ge_1 (b - a) ltac:(lia)). nra.
Qed.

Lemma Q_as_fraction (x : Q) : x * inject_Z (Zpos (Qden x)) == inject_Z (Qnum x).
Proof.
  destruct x as [p q]. unfold Qeq, Qmult, inject_Z. simpl. lia.
Qed.

(** [ilog2] is the integer part of the logarithm: [2^ilog2 x <= x] here,
    which is all the error bound needs, and [x < 2^(ilog2 x + 1)] below. *)
Lemma ilog2_lower x : 0 < x → pow2 (ilog2 x) <= x.
Proof.
  intros Hx. unfold ilog2.
  set (d := (Z.log2 (Qnum x) - Z.log2 (Zpos (Qden x)))%Z).
  destruct (Qle_bool (pow2 d) x) eqn:E.
  - by apply Qle_bool_iff.
  - assert (Hp : (0 < Qnum x)%Z).
    { destruct x as [p q]. unfold Qlt in Hx. simpl in *. lia. }
    pose proof (Z.log2_spec (Qnum x) Hp) as [Hlo _].
    pose proof (Z.log2_spec (Zpos (Qden x)) eq_refl) as [_ Hhi].
    pose proof (Z.log2_nonneg (Qnum x)) as Hn1.
    pose proof (Z.log2_nonneg (Zpos (Qden x))) as Hn2.
    assert (E1 : pow2 (d - 1) * pow2 (Z.succ (Z.log2 (Zpos (Qden x))))
                 == pow2 (Z.log2 (Qnum x))).
    { rewrite <- pow2_add. unfold d.
      replace (Z.log2 (Qnum x) - Z.log2 (Z.pos (Qden x)) - 1
               + Z.succ (Z.log2 (Z.pos (Qden x))))%Z
        with (Z.log2 (Qnum x)) by lia.
      reflexivity. }
    rewrite (pow2_Z (Z.log2 (Qnum x))) in E1 by lia.
    rewrite (pow2_Z (Z.succ _)) in E1 by lia.
    rewrite Zle_Qle in Hlo. rewrite Zlt_Qlt in Hhi.
    pose proof (Q_as_fraction x) as Hf.
    pose proof (pow2_pos (d - 1)) as Hd.
    set (a := pow2 (d - 1)) in *.
    set (q := inject_Z (Z.pos (Qden x))) in *.
    set (p := inject_Z (Qnum x)) in *.
    set (P := inject_Z (2 ^ Z.log2 (Qnum x))) in *.
    set (Q' := inject_Z (2 ^ Z.succ (Z.log2 (Z.pos (Qden x))))) in *.
    assert (0 < q) by (unfold q; change 0 with (inject_Z 0);
                       rewrite <- Zlt_Qlt; lia).
    nra.
Qed.

Lemma ilog2_upper x : 0 < x → x < pow2 (ilog2 x + 1).
Proof.
  intros Hx. unfold ilog2.
  set (d := (Z.log2 (Qnum x) - Z.log2 (Zpos (Qden x)))%Z).
  destruct (Qle_bool (pow2 d) x) eqn:E.
  - assert (Hp : (0 < Qnum x)%Z).
    { destruct x as [p q]. unfold Qlt in Hx. simpl in *. lia. }
    pose proof (Z.log2_spec (Qnum x) Hp) as [_ Hhi].
    pose proof (Z.log2_spec (Zpos (Qden x)) eq_refl) as [Hlo _].
    pose proof (Z.log2_nonneg (Qnum x)) as Hn1.
    pose proof (Z.log2_nonneg (Zpos (Qden x))) as Hn2.
    assert (E1 : pow2 (d + 1) * pow2 (Z.log2 (Zpos (Qden x)))
                 == pow2 (Z.succ (Z.log2 (Qnum x)))).
    { rewrite <- pow2_add. unfold d.
      replace (Z.log2 (Qnum x) - Z.log2 (Z.pos (Qden x)) + 1
               + Z.log2 (Z.pos (Qden x)))%Z
        with (Z.succ (Z.log2 (Qnum x))) by lia.
      reflexivity. }
    rewrite (pow2_Z (Z.succ _)) in E1 by lia.
    rewrite (pow2_Z (Z.log2 (Zpos _))) in E1 by lia.
    rewrite Zle_Qle in Hlo. rewrite Zlt_Qlt in Hhi.
    pose proof (Q_as_fraction x) as Hf.
    pose proof (pow2_pos (d + 1)) as Hd.
    set (a := pow2 (d + 1)) in *.
    set (q := inject_Z (Z.pos (Qden x))) in *.
    set (p := inject_Z (Qnum x)) in *.
    set (P := inject_Z (2 ^ Z.succ (Z.log2 (Qnum x)))) in *.
    set (Q' := inject_Z (2 ^ Z.log2 (Z.pos (Qden x)))) in *.
    assert (0 < q) by (unfold q; change 0 with (inject_Z 0);
                       rewrite <- Zlt_Qlt; lia).
    nra.
  - replace (d - 1 + 1)%Z with d by lia.
    apply Qnot_le_lt. intros H. apply Qle_bool_iff in H. congruence.
Qed.

Lemma rne_error t : Qabs (inject_Z (rne t) - t) <= 1 # 2.
Proof.
  pose proof (Qfloor_le t) as Hlo. pose proof (Qlt_floor t) as Hhi.
  rewrite inject_Z_plus in Hhi. change (inject_Z 1) with 1 in Hhi.
  unfold rne. apply Qabs_Qle_condition.
  destruct (Qcompare (t - inject_Z (Qfloor t)) (1 # 2)) eqn:E.
  - apply Qeq_alt in E. destruct (Z.even (Qfloor t));
      rewrite ?inject_Z_plus; change (inject_Z 1) with 1; split; lra.
  - apply Qlt_alt in E. split; lra.
  - apply Qgt_alt in E.
    rewrite inject_Z_plus; change (inject_Z 1) with 1. split; lra.
Qed.

Lemma rne_nonneg t : 0 <= t → (0 <= rne t)%Z.
Proof.
  intros Ht. assert (0 <= Qfloor t)%Z.
  { change 0%Z with (Qfloor 0). by apply Qfloor_resp_le. }
  unfold rne. destruct (Qcompare _ _); [destruct (Z.even _)| |]; lia.
Qed.

Lemma round_pos_eq x :
  round_pos x == inject_Z (rne (x / pow2 (ulp_exp x))) * pow2 (ulp_exp x).
Proof. unfold round_pos. apply Qred_correct. Qed.

Lemma round_pos_nonneg x : 0 <= x → 0 <= round_pos x.
Proof.
  intros Hx. rewrite round_pos_eq.
  pose proof (pow2_pos (ulp_exp x)) as Hk.
  assert (0 <= x / pow2 (ulp_exp x)).
  { apply Qle_shift_div_l; [exact Hk | lra]. }
  pose proof (rne_nonneg _ H) as Hr. rewrite Zle_Qle in Hr.
  change (inject_Z 0) with 0 in Hr. nra.
Qed.

Lemma round_pos_error x :
  0 < x → Qabs (round_pos x - x) <= x * u + eta.
Proof.
  intros Hx. rewrite round_pos_eq.
  set (k := ulp_exp x).
  pose proof (pow2_pos k) as Hk.
  pose proof (rne_error (x / pow2 k)) as He.
  apply Qabs_Qle_condition in He. destruct He as [He1 He2].
  assert (Hx' : x / pow2 k * pow2 k == x) by (field; lra).
  set (t := x / pow2 k) in *. set (n := inject_Z (rne t)) in *.
  assert (Hhalf : pow2 k * (1 # 2) <= x * u + eta).
  { unfold k, ulp_exp.
    destruct (Z.max_spec (ilog2 x - 52) (-1074)) as [[_ ->]|[_ ->]].
    - assert (pow2 (-1074) * (1 # 2) == eta) as -> by (vm_compute; reflexivity).
      pose proof (pow2_pos (-53)). unfold u. nra.
    - pose proof (ilog2_lower x Hx) as Hl.
      assert (pow2 (ilog2 x - 52) * (1 # 2) == pow2 (ilog2 x) * u) as ->.
      { replace (ilog2 x - 52)%Z with (ilog2 x + -52)%Z by lia.
        rewrite pow2_add. unfold u.
        assert (pow2 (-52) == 2 * pow2 (-53)) as -> by (vm_compute; reflexivity).
        ring. }
      pose proof (pow2_pos (-1075)). pose proof (pow2_pos (-53)).
      unfold u, eta. nra. }
  apply Qabs_Qle_condition. split; nra.
Qed.

(** The error of one rounding: relative in the normal range, absolute
    below it. *)
Lemma rn_error x : Qabs (rn x - x) <= Qabs x * u + eta.
Proof.
  unfold rn. destruct (Qcompare x 0) eqn:E.
  - apply Qeq_alt in E. rewrite E.
    pose proof (pow2_pos (-1075)). pose proof (pow2_pos (-53)).
    unfold u, eta. change (Qabs (0 - 0)) with 0. change (Qabs 0) with 0. lra.
  - apply Qlt_alt in E.
    assert (H : 0 < - x) by lra.
    pose proof (round_pos_error _ H) as He.
    apply Qabs_Qle_condition in He.
    rewrite (Qabs_neg x) by lra.
    apply Qabs_Qle_condition. split; lra.
  - apply Qgt_alt in E.
    rewrite (Qabs_pos x) by lra. by apply round_pos_error.
Qed.

Lemma rn_nonneg x : 0 <= x → 0 <= rn x.
Proof.
  intros Hx. unfold rn. destruct (Qcompare x 0) eqn:E.
  - lra.
  - apply Qlt_alt in E. lra.
  - by apply round_pos_nonneg.
Qed.

Lemma rn_nonpos x : x <= 0 → rn x <= 0.
Proof.
  intros Hx. unfold rn. destruct (Qcompare x 0) eqn:E.
  - lra.
  - assert (0 <= - x) by lra.
    pose proof (round_pos_nonneg _ H). lra.
  - apply Qgt_alt in E. lra.
Qed.

(** *** The same bounds with small rational constants, for [lra] *)

Lemma u_small : u <= eps.
Proof. vm_compute. discriminate. Qed.

Lemma eta_small : eta <= eps.
Proof. vm_compute. discriminate. Qed.

Lemma rn_close_pos x :
  0 <= x → x * (1 - eps) - eps <= rn x ∧ rn x <= x * (1 + eps) + eps.
Proof.
  intros Hx. pose proof (rn_error x) as He.
  pose proof u_small. pose proof eta_small.
  assert (0 < u) by apply pow2_pos. assert (0 < eta) by apply pow2_pos.
  rewrite (Qabs_pos x) in He by exact Hx.
  apply Qabs_Qle_condition in He. unfold eps in *. split; nra.
Qed.

Lemma rn_close_neg x :
  x <= 0 → x * (1 + eps) - eps <= rn x ∧ rn x <= x * (1 - eps) + eps.
Proof.
  intros Hx. pose proof (rn_error x) as He.
  pose proof u_small. pose proof eta_small.
  assert (0 < u) by apply pow2_pos. assert (0 < eta) by apply pow2_pos.
  rewrite (Qabs_neg x) in He by exact Hx.
  apply Qabs_Qle_condition in He. unfold eps in *. split; nra.
Qed.

Lemma pow2_1024 : pow2 1024 == 2 * pow2 1023.
Proof. change 1024%Z with (1 + 1023)%Z. rewrite pow2_add. reflexivity. Qed.

(** A result of magnitude below [2^1023] before rounding does not overflow. *)
Lemma fl_ok x : Qabs x <= pow2 1023 → fl x = Ok (rn x).
Proof.
  intros Hx. unfold fl, overflows.
  destruct (Qle_bool (pow2 1024) (Qabs (rn x))) eqn:E; [|reflexivity].
  exfalso. apply Qle_bool_iff in E. rewrite pow2_1024 in E.
  pose proof (pow2_ge_1 1023 ltac:(lia)) as H1.
  pose proof (rn_error x) as He.
  pose proof u_small. pose proof eta_small.
  assert (0 < u) by apply pow2_pos. assert (0 < eta) by apply pow2_pos.
  apply Qabs_Qle_condition in He.
  apply Qabs_Qle_condition in Hx.
  pose proof (Qabs_nonneg x) as Hax.
  assert (Hr : Qabs (rn x) <= Qabs x + (Qabs x * u + eta)).
  { apply Qabs_Qle_condition. destruct (Qlt_le_dec x 0).
    - rewrite (Qabs_neg x) in * by lra. split; lra.
    - rewrite (Qabs_pos x) in * by lra. split; lra. }
  assert (Qabs x <= pow2 1023).
  { apply Qabs_Qle_condition. lra. }
  unfold eps in *. nra.
Qed.

Lemma fl_inv x y : fl x = Ok y → y = rn x ∧ Qabs y < pow2 1024.
Proof.
  unfold fl, overflows.
  destruct (Qle_bool (pow2 1024) (Qabs (rn x))) eqn:E; [discriminate|].
  intros [= <-]. split; [reflexivity|].
  apply Qnot_le_lt. intros H. apply Qle_bool_iff in H. congruence.
Qed.

Lemma fl_halts x : fl x ≠ OutOfFuel.
Proof. unfold fl. by destruct (overflows _). Qed.

(** *** [int()] of a float that is not negative *)

Lemma int_of_float_floor f : 0 <= f → int_of_float f = Qfloor f.
Proof.
  intros Hf. unfold int_of_float.
  destruct (Qle_bool 0 f) eqn:E; [reflexivity|].
  apply Qle_bool_iff in Hf. congruence.
Qed.

Lemma int_of_float_bounds f :
  0 <= f →
  (0 <= int_of_float f)%Z
  ∧ inject_Z (int_of_float f) <= f
  ∧ f < inject_Z (int_of_float f) + 1.
Proof.
  intros Hf. rewrite int_of_float_floor by exact Hf.
  pose proof (Qfloor_le f). pose proof (Qlt_floor f) as Hl.
  rewrite inject_Z_plus in Hl. change (inject_Z 1) with 1 in Hl.
  repeat split; try assumption.
  change 0%Z with (Qfloor 0). by apply Qfloor_resp_le.
Qed.

Lemma int_of_float_nonpos f : f <= 0 → (int_of_float f <= 0)%Z.
Proof.
  intros Hf. unfold int_of_float. destruct (Qle_bool 0 f) eqn:E.
  - change 0%Z with (Qfloor 0). by apply Qfloor_resp_le.
  - change 0%Z with (Qceiling 0). by apply Qceiling_resp_le.
Qed.

(** *** [float(n)] and [int(n * c)] *)

Lemma float_of_int_bounds n f :
  (0 <= n)%Z → float_of_int n = Ok f →
  0 <= f ∧ f < pow2 1024
  ∧ inject_Z n * (1 - eps) - eps <= f ∧ f <= inject_Z n * (1 + eps) + eps.
Proof.
  intros Hn Hf. apply fl_inv in Hf as [-> Hlt].
  assert (H0 : 0 <= inject_Z n).
  { change 0 with (inject_Z 0). by rewrite <- Zle_Qle. }
  pose proof (rn_nonneg _ H0) as Hp.
  rewrite (Qabs_pos _ Hp) in Hlt.
  destruct (rn_close_pos _ H0). auto.
Qed.

Lemma float_of_int_ok n :
  (0 <= n <= 2 ^ 1023)%Z → ∃ f, float_of_int n = Ok f.
Proof.
  intros [H0 H1]. exists (rn (inject_Z n)). apply fl_ok.
  rewrite Qabs_pos.
  - rewrite pow2_Z by lia. by rewrite <- Zle_Qle.
  - change 0 with (inject_Z 0). by rewrite <- Zle_Qle.
Qed.

(** [int(n * c)] for a constant [c] between 0 and 1/2, once [float(n)]
    is known: the product taken on the float [f], rounded, cut. *)
Lemma scaled_bounds n f c :
  float_of_int n = Ok f → 0 <= f → f < pow2 1024 →
  0 <= c → c <= 1 # 2 →
  ∃ v, scaled n c = Ok v
       ∧ (0 <= v)%Z
       ∧ inject_Z v <= f * c * (1 + eps) + eps
       ∧ f * c * (1 - eps) - eps - 1 < inject_Z v.
Proof.
  intros Hf H0 Hlt Hc0 Hc1. unfold scaled, int_mul_float. rewrite Hf. simpl.
  assert (Hx : 0 <= f * c) by nra.
  rewrite fl_ok.
  2:{ rewrite Qabs_pos by exact Hx. rewrite pow2_1024 in Hlt. nra. }
  simpl. eexists. split; [reflexivity|].
  pose proof (rn_nonneg _ Hx) as Hr.
  destruct (rn_close_pos _ Hx) as [Hlo Hhi].
  destruct (int_of_float_bounds _ Hr) as (Hv0 & Hv1 & Hv2).
  repeat split; [exact Hv0 | lra | lra].
Qed.

(** The binary64 values of the literals of the script. *)
Lemma dec_0_5 : dec 5 10 = 1 # 2.
Proof. vm_compute. reflexivity. Qed.
Lemma dec_0_25 : dec 25 100 = 1 # 4.
Proof. vm_compute. reflexivity. Qed.
Lemma dec_0_05 : dec 5 100 = 3602879701896397 # 72057594037927936.
Proof. vm_compute. reflexivity. Qed.
Lemma dec_0_08 : dec 8 100 = 5764607523034235 # 72057594037927936.
Proof. vm_compute. reflexivity. Qed.
Lemma dec_0_04 : dec 4 100 = 5764607523034235 # 144115188075855872.
Proof. vm_compute. reflexivity. Qed.
Lemma dec_0_06 : dec 6 100 = 1080863910568919 # 18014398509481984.
Proof. vm_compute. reflexivity. Qed.
Lemma dec_0_12 : dec 12 100 = 1080863910568919 # 9007199254740992.
Proof. vm_compute. reflexivity. Qed.
Lemma dec_0_025 : dec 25 1000 = 3602879701896397 # 144115188075855872.
Proof. vm_compute. reflexivity. Qed.

(** They are the values the IEEE-754 specification of the standard library
    gives the same literals, and a product taken here is the product there. *)
Lemma literals_agree_with_SpecFloat :
  of_spec (spec_dec 5 10) = dec 5 10 ∧ of_spec (spec_dec 5 100) = dec 5 100
  ∧ of_spec (spec_dec 8 100) = dec 8 100 ∧ of_spec (spec_dec 4 100) = dec 4 100
  ∧ of_spec (spec_dec 6 100) = dec 6 100 ∧ of_spec (spec_dec 12 100) = dec 12 100
  ∧ of_spec (spec_dec 25 100) = dec 25 100
  ∧ of_spec (spec_dec 25 1000) = dec 25 1000
  ∧ of_spec (spec_dec 835 10) = dec 835 10.
Proof. vm_compute. repeat split. Qed.

Lemma products_agree_with_SpecFloat :
  Forall (λ c : Z * Z,
    int_mul_float 1024 (dec c.1 (Z.to_pos c.2))
    = Ok (of_spec (SFmul 53 1024 (spec_of_int 1024) (spec_dec c.1 c.2))))
    [(5, 10); (5, 100); (8, 100); (4, 100); (6, 100); (12, 100); (25, 100);
     (25, 1000)]%Z.
Proof. repeat constructor. Qed.

End PyFacts.

(** ** Loops and outcomes *)

Lemma bind_Ok {A B} (a : A) (f : A → outcome B) : (Ok a ≫= f) = f a.
Proof. reflexivity. Qed.

Lemma bind_Ok_inv {A B} (m : outcome A) (f : A → outcome B) b :
  m ≫= f = Ok b → ∃ a, m = Ok a ∧ f a = Ok b.
Proof. destruct m as [a| |]; simpl; try discriminate. eauto. Qed.

Lemma fmap_Ok_inv {A B} (m : outcome A) (f : A → B) b :
  f <$> m = Ok b → ∃ a, m = Ok a ∧ b = f a.
Proof. destruct m as [a| |]; simpl; try discriminate. intros [= <-]. eauto. Qed.

(** A loop over [seqZ m len] that keeps an invariant indexed by the next
    value of the loop variable runs to its end. *)
Lemma for_each_seqZ_inv {A} (body : Z → A → outcome A) (I : Z → A → Prop) len :
  0 <= len → ∀ m a, I m a →
  (∀ i a, m <= i < m + len → I i a → ∃ a', body i a = Ok a' ∧ I (i + 1) a') →
  ∃ a', for_each (seqZ m len) body a = Ok a' ∧ I (m + len) a'.
Proof.
  intros Hlen. pattern len. apply natlike_ind; [| |exact Hlen]; clear len Hlen.
  - intros m a Ha _. rewrite seqZ_nil by lia. exists a. simpl.
    by rewrite Z.add_0_r.
  - intros n Hn IH m a Ha Hbody. rewrite seqZ_cons by lia. simpl.
    destruct (Hbody m a) as (a1 & E1 & I1); [lia|done|].
    rewrite E1, bind_Ok. replace (Z.pred (Z.succ n)) with n by lia.
    destruct (IH (Z.succ m) a1) as (a2 & E2 & I2).
    + by replace (Z.succ m) with (m + 1) by lia.
    + intros i a' Hi HI. apply Hbody; [lia|done].
    + exists a2. split; [done|].
      by replace (m + Z.succ n) with (Z.succ m + n) by lia.
Qed.

Lemma for_each_range_inv {A} (body : Z → A → outcome A) (I : Z → A → Prop) n a :
  0 <= n → I 0 a →
  (∀ i a, 0 <= i < n → I i a → ∃ a', body i a = Ok a' ∧ I (i + 1) a') →
  ∃ a', for_each (range n) body a = Ok a' ∧ I n a'.
Proof.
  intros Hn Ha Hbody.
  destruct (for_each_seqZ_inv body I n Hn 0 a Ha) as (a' & E & HI); [|by eauto].
  intros i b Hi. apply Hbody. lia.
Qed.

(** A loop whose body keeps a property of the accumulator keeps it. *)
Lemma for_each_preserves {A B} (body : A → B → outcome B) (I : B → Prop) xs :
  (∀ x b b', body x b = Ok b' → I b → I b') →
  ∀ b b', for_each xs body b = Ok b' → I b → I b'.
Proof.
  intros Hbody. induction xs as [|x xs IH]; simpl; intros b b' E Hb.
  - by injection E as <-.
  - apply bind_Ok_inv in E as (b1 & E1 & E2). eauto.
Qed.

Lemma for_each_halts {A B} (body : A → B → outcome B) xs :
  (∀ x b, body x b ≠ OutOfFuel) → ∀ b, for_each xs body b ≠ OutOfFuel.
Proof.
  intros Hbody. induction xs as [|x xs IH]; simpl; intros b; [done|].
  specialize (Hbody x b). destruct (body x b); simpl; [apply IH|done|done].
Qed.

(** ** Painting *)

Lemma inside_paint img mask c x y : inside (paint img mask c) x y = inside img x y.
Proof. reflexivity. Qed.

Lemma inside_iff img x y :
  inside img x y = true ↔ 0 <= x < width img ∧ 0 <= y < height img.
Proof. unfold inside. rewrite !andb_true_iff. lia. Qed.

Lemma pixels_paint img mask c x y :
  pixels (paint img mask c) x y
  = if inside img x y && mask x y then c else pixels img x y.
Proof. reflexivity. Qed.

Lemma square_paint n img mask c : square n img → square n (paint img mask c).
Proof. by intros [??]. Qed.

Lemma alpha_among_paint a a' img mask c :
  alpha c = a ∨ alpha c = a' →
  alpha_among a a' img → alpha_among a a' (paint img mask c).
Proof.
  intros Hc Himg x y Hin. rewrite pixels_paint.
  destruct (inside img x y && mask x y); [done|]. by apply Himg.
Qed.

Lemma all_alpha_among a a' img : all_alpha a img → alpha_among a a' img.
Proof. intros H x y Hin. left. by apply H. Qed.

Lemma clip8_id v : 0 <= v <= 255 → clip8 v = v.
Proof. unfold clip8. lia. Qed.

Lemma alpha_ink r g b a : 0 <= a <= 255 → alpha (ink (r, g, b, a)) = a.
Proof. intros Ha. simpl. by apply clip8_id. Qed.

(** ** [create_gradient] *)

Module GradientFacts.
Import Py PyFacts.

Lemma pow2_1023_big : (1000 <= pow2 1023)%Q.
Proof. vm_compute. discriminate. Qed.

Lemma Qdiv_unit_interval a b :
  0 <= a → a < b → (0 <= inject_Z a / inject_Z b ∧ inject_Z a / inject_Z b < 1)%Q.
Proof.
  intros Ha Hb.
  assert (Hb' : (0 < inject_Z b)%Q).
  { change 0%Q with (inject_Z 0). rewrite <- Zlt_Qlt. lia. }
  split.
  - apply Qle_shift_div_l; [done|]. rewrite Qmult_0_l.
    change 0%Q with (inject_Z 0). rewrite <- Zle_Qle. lia.
  - apply Qlt_shift_div_r; [done|]. rewrite Qmult_1_l.
    rewrite <- Zlt_Qlt. lia.
Qed.

(** The ratio of a pixel of the canvas: a float between 0 and 1. *)
Lemma ratio_ok size x y :
  0 <= x < size → 0 <= y < size →
  ∃ ratio, int_truediv (x + y) (2 * size) = Ok ratio
           ∧ ratio = rn (inject_Z (x + y) / inject_Z (2 * size))
           ∧ (0 <= ratio)%Q ∧ (ratio <= 1 + 2 * eps)%Q.
Proof.
  intros Hx Hy. unfold int_truediv.
  destruct (Z.eqb_spec (2 * size) 0) as [|_]; [lia|].
  destruct (Qdiv_unit_interval (x + y) (2 * size)) as [H0 H1]; [lia..|].
  pose proof pow2_1023_big.
  rewrite fl_ok by (rewrite Qabs_pos by done; lra).
  eexists. split; [reflexivity|]. split; [reflexivity|].
  split; [by apply rn_nonneg|].
  destruct (rn_close_pos _ H0). unfold eps in *. lra.
Qed.

(** One channel, once the two [int]s it converts are known as floats. *)
Lemma gradient_channel_eq c1 c2 ratio fd fc :
  float_of_int (c2 - c1) = Ok fd → float_of_int c1 = Ok fc →
  (Qabs fd <= 300)%Q → (Qabs fc <= 300)%Q →
  (0 <= ratio)%Q → (ratio <= 1 + 2 * eps)%Q →
  gradient_channel c1 c2 ratio
  = Ok (int_of_float (rn (fc + rn (fd * ratio)))).
Proof.
  intros Hd Hc Bd Bc R0 R1. unfold gradient_channel, int_mul_float, int_add_float.
  rewrite Hd, bind_Ok.
  pose proof pow2_1023_big.
  assert (Bp : (Qabs (fd * ratio) <= 301)%Q).
  { rewrite Qabs_Qmult, (Qabs_pos ratio) by done.
    pose proof (Qabs_nonneg fd). unfold eps in *. nra. }
  rewrite fl_ok by lra. rewrite bind_Ok, Hc, bind_Ok.
  assert (Br : (Qabs (rn (fd * ratio)) <= 302)%Q).
  { pose proof (rn_error (fd * ratio)) as He.
    pose proof u_small. pose proof eta_small.
    assert (0 < u)%Q by apply pow2_pos. assert (0 < eta)%Q by apply pow2_pos.
    apply Qabs_Qle_condition in He. apply Qabs_Qle_condition in Bp.
    pose proof (Qabs_nonneg (fd * ratio)).
    assert (Qabs (fd * ratio) <= 301)%Q by (apply Qabs_Qle_condition; lra).
    apply Qabs_Qle_condition. unfold eps in *. split; nra. }
  rewrite fl_ok; [reflexivity|].
  apply Qabs_Qle_condition in Br. apply Qabs_Qle_condition in Bc.
  apply Qabs_Qle_condition. lra.
Qed.

Lemma float_of_small_ints :
  float_of_int 16 = Ok 16%Q ∧ float_of_int (-51) = Ok (-51)%Q
  ∧ float_of_int (-72) = Ok (-72)%Q ∧ float_of_int 102 = Ok 102%Q
  ∧ float_of_int 126 = Ok 126%Q ∧ float_of_int 234 = Ok 234%Q.
Proof. vm_compute. repeat split. Qed.

Lemma gradient_fill_eq size x y :
  0 <= x < size → 0 <= y < size →
  (0 <= gradient_ratio size x y)%Q
  ∧ (gradient_ratio size x y <= 1 + 2 * eps)%Q
  ∧ gradient_fill size color1 color2 x y
    = Ok (red_of (gradient_ratio size x y), green_of (gradient_ratio size x y),
          blue_of (gradient_ratio size x y), 255).
Proof.
  intros Hx Hy.
  destruct (ratio_ok size x y Hx Hy) as (ratio & E & Hr & R0 & R1).
  fold (gradient_ratio size x y) in Hr. subst ratio.
  set (ratio := gradient_ratio size x y) in *.
  repeat split; try done.
  destruct float_of_small_ints as (F16 & F51 & F72 & F102 & F126 & F234).
  unfold gradient_fill. rewrite E, bind_Ok. simpl fst. simpl snd.
  change (118 - 102) with 16 in *. change (75 - 126) with (-51) in *.
  change (162 - 234) with (-72) in *.
  rewrite (gradient_channel_eq 102 118 ratio 16%Q 102%Q) by (done || (vm_compute; discriminate) || done).
  rewrite bind_Ok.
  rewrite (gradient_channel_eq 126 75 ratio (-51)%Q 126%Q) by (done || (vm_compute; discriminate) || done).
  rewrite bind_Ok.
  rewrite (gradient_channel_eq 234 162 ratio (-72)%Q 234%Q) by (done || (vm_compute; discriminate) || done).
  reflexivity.
Qed.

Section Canvas.
Context {P : Pillow}.

Lemma fits_memory_small w h :
  0 <= w <= 1024 → 0 <= h <= 1024 → fits_memory w h = true.
Proof.
  intros Hw Hh. unfold fits_memory.
  destruct (Z.leb_spec w 1024); [|lia]. destruct (Z.leb_spec h 1024); [|lia].
  reflexivity.
Qed.

Lemma room_for_small N : 0 <= N <= 1024 → room_for N.
Proof.
  intros HN. split; [|by apply fits_memory_small].
  apply Z.le_lt_trans with 1024; [lia|reflexivity].
Qed.

(** A side that fits a C [int] converts to a float. *)
Lemma room_for_float N : 0 <= N → room_for N → fits_float N.
Proof.
  intros H0 [H1 _]. apply float_of_int_ok. split; [done|].
  apply Z.lt_le_incl, Z.lt_le_trans with (2 ^ 31); [done|].
  apply Z.pow_le_mono_r; lia.
Qed.

Lemma Image_new_ok w h :
  0 <= w < 2 ^ 31 → 0 <= h < 2 ^ 31 → fits_memory w h = true →
  Image_new w h = Ok (Image w h (λ _ _, RGBA 0 0 0 0)).
Proof.
  intros Hw Hh Hm. unfold Image_new, int_max. rewrite Hm.
  destruct (Z.ltb_spec w 0); [lia|]. destruct (Z.ltb_spec h 0); [lia|].
  destruct (Z.ltb_spec (2 ^ 31 - 1) w); [lia|].
  destruct (Z.ltb_spec (2 ^ 31 - 1) h); [lia|]. done.
Qed.

(** [Image.new] returns only for sides from 0 that fit, and never runs on. *)
Lemma Image_new_inv w h img :
  Image_new w h = Ok img →
  0 <= w < 2 ^ 31 ∧ 0 <= h < 2 ^ 31 ∧ fits_memory w h = true.
Proof.
  unfold Image_new, int_max.
  destruct (Z.ltb_spec w 0), (Z.ltb_spec h 0); try discriminate.
  destruct (Z.ltb_spec (2 ^ 31 - 1) w), (Z.ltb_spec (2 ^ 31 - 1) h);
    try discriminate.
  destruct (fits_memory w h); [|discriminate]. intros _. lia.
Qed.

Lemma Image_new_halts w h : Image_new w h ≠ OutOfFuel.
Proof.
  unfold Image_new.
  destruct ((w <? 0) || (h <? 0)); [done|].
  destruct ((int_max <? w) || (int_max <? h)); [done|].
  by destruct (fits_memory w h).
Qed.

(** [create_gradient] returns the canvas whose every pixel is the one the
    formula gives. *)
Lemma create_gradient_spec size :
  0 <= size → room_for size →
  ∃ img, create_gradient size color1 color2 = Ok img
    ∧ square size img
    ∧ ∀ x y, 0 <= x < size → 0 <= y < size →
             pixels img x y = gradient_pixel size x y.
Proof.
  intros Hsize [Hint Hmem]. unfold create_gradient.
  rewrite Image_new_ok, bind_Ok by (done || lia).
  pose (I := λ (j : Z) (img : image),
    square size img
    ∧ ∀ x y, 0 <= x < size → 0 <= y < j →
             pixels img x y = gradient_pixel size x y).
  edestruct (for_each_range_inv
               (λ y img, for_each (range size) (λ x img,
                  fill ← gradient_fill size color1 color2 x y;
                  Ok (draw_point img (x, y) fill)) img) I size
               (Image size size (λ _ _, RGBA 0 0 0 0)))
    as (img & E & Hsq & Hpix); [done| | |].
  - split; [by split|]. intros; lia.
  - intros j img0 Hj [Hsq Hrows].
    pose (J := λ (i : Z) (img : image),
      square size img
      ∧ (∀ x y, 0 <= x < size → 0 <= y < j →
                pixels img x y = gradient_pixel size x y)
      ∧ ∀ x, 0 <= x < i → pixels img x j = gradient_pixel size x j).
    edestruct (for_each_range_inv
                 (λ x img, fill ← gradient_fill size color1 color2 x j;
                           Ok (draw_point img (x, j) fill)) J size img0)
      as (img1 & E1 & Hsq1 & Hrows1 & Hrow1); [done| | |].
    + split; [done|]. split; [exact Hrows|]. intros; lia.
    + intros i img1 Hi (Hsq1 & Hrows1 & Hrow1).
      destruct (gradient_fill_eq size i j) as (_ & _ & ->); [done..|].
      rewrite bind_Ok. eexists. split; [reflexivity|].
      unfold draw_point. destruct Hsq1 as [Hw Hh].
      split; [by apply square_paint|]. split.
      * intros x y Hx Hy. rewrite pixels_paint. simpl.
        destruct (Z.eqb_spec y j); [lia|].
        rewrite andb_false_r, andb_false_r. by apply Hrows1.
      * intros x Hx. rewrite pixels_paint. simpl.
        destruct (Z.eqb_spec x i) as [->|Hne].
        -- rewrite Z.eqb_refl.
           assert (inside img1 i j = true) as -> by (apply inside_iff; lia).
           reflexivity.
        -- rewrite andb_false_r. apply Hrow1. lia.
    + exists img1. split; [done|]. split; [done|].
      intros x y Hx Hy. destruct (decide (y = j)) as [->|].
      * by apply Hrow1.
      * apply Hrows1; [done|lia].
  - exists img. split; [done|]. split; [done|]. intros. by apply Hpix.
Qed.

(** It returns only for a side from 0 that Pillow and the machine take. *)
Lemma create_gradient_inv size c1 c2 img :
  create_gradient size c1 c2 = Ok img → 0 <= size ∧ room_for size.
Proof.
  unfold create_gradient. intros E.
  apply bind_Ok_inv in E as (img0 & E0 & _).
  apply Image_new_inv in E0 as (Hw & _ & Hm). split; [lia|]. split; [lia|done].
Qed.

(** A side of [2^31] or more is an OverflowError. *)
Lemma create_gradient_overflow size c1 c2 :
  2 ^ 31 <= size → create_gradient size c1 c2 = Raise OverflowError.
Proof.
  intros Hs. unfold create_gradient, Image_new, int_max.
  assert (0 < 2 ^ 31) by reflexivity.
  destruct (Z.ltb_spec size 0); [lia|].
  destruct (Z.ltb_spec (2 ^ 31 - 1) size); [reflexivity|lia].
Qed.

(** Whatever the side, it returns or raises. *)
Lemma create_gradient_halts size :
  (∃ img, create_gradient size color1 color2 = Ok img)
  ∨ (∃ e, create_gradient size color1 color2 = Raise e).
Proof.
  destruct (Image_new size size) as [img0|e|] eqn:E0.
  - apply Image_new_inv in E0 as (Hw & _ & Hm).
    destruct (create_gradient_spec size) as (img & E & _); [lia|split; [lia|done]|].
    left. by exists img.
  - right. exists e. unfold create_gradient. by rewrite E0.
  - by destruct (Image_new_halts size size).
Qed.

Lemma alpha_gradient_pixel size x y : alpha (gradient_pixel size x y) = 255.
Proof. reflexivity. Qed.

(** After the background fill the canvas is a fully opaque square. *)
Lemma create_gradient_opaque size :
  0 <= size → room_for size →
  ∃ img, create_gradient size color1 color2 = Ok img
         ∧ square size img ∧ all_alpha 255 img.
Proof.
  intros Hsize Hroom.
  destruct (create_gradient_spec size Hsize Hroom) as (img & E & Hsq & Hpix).
  exists img. split; [done|]. split; [done|].
  intros x y Hin. apply inside_iff in Hin. destruct Hsq as [Hw Hh].
  rewrite Hpix by lia. apply alpha_gradient_pixel.
Qed.

End Canvas.

End GradientFacts.

(** ** The two ends of the gradient *)

Module CornerFacts.
Import Py PyFacts GradientFacts.

Lemma gradient_ratio_origin size : gradient_ratio size 0 0 = 0%Q.
Proof. reflexivity. Qed.

(** The first pixel is the start colour, whatever the side. *)
Lemma gradient_origin size : gradient_pixel size 0 0 = RGBA 102 126 234 255.
Proof.
  unfold gradient_pixel. rewrite gradient_ratio_origin. vm_compute. reflexivity.
Qed.

Lemma far_ratio_bounds size :
  37 <= size →
  (36 # 37 <= inject_Z (size - 1 + (size - 1)) / inject_Z (2 * size))%Q
  ∧ (inject_Z (size - 1 + (size - 1)) / inject_Z (2 * size) < 1)%Q.
Proof.
  intros Hs. split.
  - apply Qle_shift_div_l.
    + change 0%Q with (inject_Z 0). rewrite <- Zlt_Qlt. lia.
    + unfold Qle, Qmult, inject_Z. simpl. lia.
  - apply Qdiv_unit_interval; lia.
Qed.

Lemma Zle_of_Qlt_succ a b : (inject_Z a < inject_Z b + 1)%Q → a <= b.
Proof.
  intros H. apply Z.lt_succ_r. unfold Z.succ.
  rewrite Zlt_Qlt, inject_Z_plus. exact H.
Qed.

Lemma Zlt_of_Qlt a b : (inject_Z a < inject_Z b)%Q → a < b.
Proof. by rewrite <- Zlt_Qlt. Qed.

(** From side 37 on, each channel of the last pixel is within one unit of
    the end colour. *)
Lemma far_corner_channels ratio :
  (36 # 37 <= ratio)%Q → (ratio < 1)%Q →
  let r := rn ratio in
  117 <= red_of r <= 118 ∧ 74 <= green_of r <= 76 ∧ 161 <= blue_of r <= 163.
Proof.
  intros Hlo Hhi r.
  destruct (rn_close_pos ratio ltac:(unfold eps in *; lra)) as [R1 R2]. fold r in R1, R2.
  unfold eps in *.
  unfold red_of, green_of, blue_of. repeat split.
  - destruct (rn_close_pos (16 * r) ltac:(unfold eps in *; lra)) as [P1 P2].
    destruct (rn_close_pos (102 + rn (16 * r)) ltac:(unfold eps in *; lra)) as [S1 S2].
    destruct (int_of_float_bounds (rn (102 + rn (16 * r))) ltac:(unfold eps in *; lra))
      as (_ & V1 & V2).
    unfold eps in *. assert (116 < int_of_float (rn (102 + rn (16 * r)))); [|lia].
    apply Zlt_of_Qlt. change (inject_Z 116) with 116%Q. lra.
  - destruct (rn_close_pos (16 * r) ltac:(unfold eps in *; lra)) as [P1 P2].
    destruct (rn_close_pos (102 + rn (16 * r)) ltac:(unfold eps in *; lra)) as [S1 S2].
    destruct (int_of_float_bounds (rn (102 + rn (16 * r))) ltac:(unfold eps in *; lra))
      as (_ & V1 & V2).
    unfold eps in *. assert (int_of_float (rn (102 + rn (16 * r))) < 119); [|lia].
    apply Zlt_of_Qlt. change (inject_Z 119) with 119%Q. lra.
  - destruct (rn_close_neg (-51 * r) ltac:(unfold eps in *; lra)) as [P1 P2].
    destruct (rn_close_pos (126 + rn (-51 * r)) ltac:(unfold eps in *; lra)) as [S1 S2].
    destruct (int_of_float_bounds (rn (126 + rn (-51 * r))) ltac:(unfold eps in *; lra))
      as (_ & V1 & V2).
    unfold eps in *. assert (73 < int_of_float (rn (126 + rn (-51 * r)))); [|lia].
    apply Zlt_of_Qlt. change (inject_Z 73) with 73%Q. lra.
  - destruct (rn_close_neg (-51 * r) ltac:(unfold eps in *; lra)) as [P1 P2].
    destruct (rn_close_pos (126 + rn (-51 * r)) ltac:(unfold eps in *; lra)) as [S1 S2].
    destruct (int_of_float_bounds (rn (126 + rn (-51 * r))) ltac:(unfold eps in *; lra))
      as (_ & V1 & V2).
    unfold eps in *. assert (int_of_float (rn (126 + rn (-51 * r))) < 77); [|lia].
    apply Zlt_of_Qlt. change (inject_Z 77) with 77%Q. lra.
  - destruct (rn_close_neg (-72 * r) ltac:(unfold eps in *; lra)) as [P1 P2].
    destruct (rn_close_pos (234 + rn (-72 * r)) ltac:(unfold eps in *; lra)) as [S1 S2].
    destruct (int_of_float_bounds (rn (234 + rn (-72 * r))) ltac:(unfold eps in *; lra))
      as (_ & V1 & V2).
    unfold eps in *. assert (160 < int_of_float (rn (234 + rn (-72 * r)))); [|lia].
    apply Zlt_of_Qlt. change (inject_Z 160) with 160%Q. lra.
  - destruct (rn_close_neg (-72 * r) ltac:(unfold eps in *; lra)) as [P1 P2].
    destruct (rn_close_pos (234 + rn (-72 * r)) ltac:(unfold eps in *; lra)) as [S1 S2].
    destruct (int_of_float_bounds (rn (234 + rn (-72 * r))) ltac:(unfold eps in *; lra))
      as (_ & V1 & V2).
    unfold eps in *. assert (int_of_float (rn (234 + rn (-72 * r))) < 164); [|lia].
    apply Zlt_of_Qlt. change (inject_Z 164) with 164%Q. lra.
Qed.

Lemma gradient_far_corner size :
  37 <= size →
  near_rgb (gradient_pixel size (size - 1) (size - 1)) color2.
Proof.
  intros Hs. destruct (far_ratio_bounds size Hs) as [Hlo Hhi].
  destruct (far_corner_channels _ Hlo Hhi) as (Hr & Hg & Hb).
  unfold gradient_pixel, gradient_ratio, near_rgb, near. simpl.
  rewrite !clip8_id by lia. simpl. lia.
Qed.

(** Up to side 36 the blue channel of the last pixel is 164 or more: two
    units or more from the end colour. *)
Lemma gradient_far_corner_small size :
  1 <= size <= 36 →
  164 <= blue (gradient_pixel size (size - 1) (size - 1)).
Proof.
  intros Hs.
  assert (Hin : size ∈ seqZ 1 36) by (apply elem_of_seqZ; lia).
  revert size Hin Hs.
  apply (proj1 (Forall_forall
                  (λ size, 1 <= size <= 36 →
                           164 <= blue (gradient_pixel size (size - 1) (size - 1)))
                  (seqZ 1 36))).
  let l := eval vm_compute in (seqZ 1 36) in change (seqZ 1 36) with l.
  repeat (constructor; [intros _; vm_compute; discriminate|]). constructor.
Qed.

End CornerFacts.

(** ** Shapes *)

Section ShapeFacts.
Context {P : Pillow}.

Lemma draw_shape_ok s img b c :
  well_ordered b = true →
  draw_shape s img b c = Ok (paint img (shape_mask s b) (ink c)).
Proof. intros H. unfold draw_shape. by rewrite H. Qed.

Lemma draw_shape_inv s img b c img' :
  draw_shape s img b c = Ok img' → ∃ mask, img' = paint img mask (ink c).
Proof.
  unfold draw_shape. destruct (well_ordered b).
  - intros [= <-]. eauto.
  - destruct (inverted_box s b); [|discriminate]. intros [= <-]. eauto.
Qed.

Lemma draw_shape_halts s img b c : draw_shape s img b c ≠ OutOfFuel.
Proof.
  unfold draw_shape. destruct (well_ordered b); [done|].
  by destruct (inverted_box s b).
Qed.

Lemma painted_paint n img mask r g b a :
  a = 255 ∨ a = 230 → painted n img → painted n (paint img mask (ink (r, g, b, a))).
Proof.
  intros Ha [Hsq Hal]. split; [by apply square_paint|].
  apply alpha_among_paint; [|done].
  rewrite alpha_ink by lia. lia.
Qed.

Lemma painted_draw_shape n s img b r g bl a img' :
  a = 255 ∨ a = 230 → painted n img →
  draw_shape s img b (r, g, bl, a) = Ok img' → painted n img'.
Proof.
  intros Ha Hp E. apply draw_shape_inv in E as [mask ->].
  by apply painted_paint.
Qed.

Lemma painted_rounded_rect n img coords radius img' :
  painted n img →
  draw_rounded_rect img coords radius (255, 255, 255, 230) = Ok img' →
  painted n img'.
Proof.
  intros Hp E. unfold draw_rounded_rect in E.
  destruct coords as [[[x1 y1] x2] y2]. unfold draw_rectangle, draw_ellipse in E.
  repeat (apply bind_Ok_inv in E as (? & ?%(painted_draw_shape n) & E);
          [|lia|assumption]).
  eapply painted_draw_shape; [| |exact E]; [lia|assumption].
Qed.

Lemma tooth_fill_alpha toggle :
  ∃ r g b, tooth_fill toggle = (r, g, b, 255).
Proof. destruct toggle; simpl; eauto. Qed.

Lemma painted_teeth_loop n fuel zx zw th gap zb :
  ∀ img y toggle img',
    painted n img →
    teeth_loop fuel zx zw th gap zb img y toggle = Ok img' → painted n img'.
Proof.
  induction fuel as [|fuel IH]; intros img y toggle img' Hp; simpl;
    destruct (y <? zb - th); try discriminate; try (by intros [= <-]).
  intros E. apply bind_Ok_inv in E as (img1 & E1 & E2).
  destruct (tooth_fill_alpha toggle) as (r & g & b & Hf). rewrite Hf in E1.
  eapply IH; [|exact E2].
  eapply painted_draw_shape; [| |exact E1]; [lia|done].
Qed.

(** ** The loop of the zipper teeth *)

Lemma teeth_loop_done fuel zx zw th gap zb img y toggle :
  zb - th <= y → teeth_loop fuel zx zw th gap zb img y toggle = Ok img.
Proof.
  intros H. destruct fuel; simpl; destruct (Z.ltb_spec y (zb - th)); done || lia.
Qed.

Lemma teeth_loop_step fuel zx zw th gap zb img y toggle :
  y < zb - th →
  teeth_loop (S fuel) zx zw th gap zb img y toggle
  = (img ← draw_rectangle img (tooth_box zx zw th y toggle) (tooth_fill toggle);
     teeth_loop fuel zx zw th gap zb img (y + gap) (negb toggle)).
Proof. intros H. simpl. destruct (Z.ltb_spec y (zb - th)); done || lia. Qed.

Lemma tooth_count_done y0 limit gap : limit <= y0 → tooth_count y0 limit gap = O.
Proof. intros H. unfold tooth_count. destruct (Z.ltb_spec y0 limit); done || lia. Qed.

Lemma tooth_count_step y0 limit gap :
  1 <= gap → y0 < limit →
  tooth_count y0 limit gap = S (tooth_count (y0 + gap) limit gap).
Proof.
  intros Hg Hy. unfold tooth_count.
  destruct (Z.ltb_spec y0 limit); [|lia].
  assert (E : (limit - y0 + gap - 1) / gap
              = (limit - (y0 + gap) + gap - 1) / gap + 1).
  { rewrite <- Z.div_add by lia. f_equal. lia. }
  destruct (Z.ltb_spec (y0 + gap) limit).
  - rewrite E, Z2Nat.inj_add; [lia| |lia].
    apply Z.div_pos; lia.
  - assert ((limit - y0 + gap - 1) / gap = 1) as ->; [|done].
    symmetry. apply (Z.div_unique _ _ 1 (limit - y0 - 1)); lia.
Qed.

(** The cursor of tooth [k]: below the limit for the teeth drawn, at or
    past it for the first one that is not. *)
Lemma tooth_count_spec y0 limit gap k :
  1 <= gap →
  (k < tooth_count y0 limit gap)%nat ↔ y0 + Z.of_nat k * gap < limit.
Proof.
  intros Hg. revert y0. induction k as [|k IH]; intros y0.
  - destruct (Z.lt_ge_cases y0 limit) as [H|H].
    + rewrite tooth_count_step by done. lia.
    + rewrite tooth_count_done by done. lia.
  - destruct (Z.lt_ge_cases y0 limit) as [H|H].
    + rewrite tooth_count_step by done. rewrite <- Nat.succ_lt_mono, IH. nia.
    + rewrite tooth_count_done by done. nia.
Qed.

(** With a gap of at least one and fuel for every tooth, the loop is the
    drawing of the teeth, one after the other. *)
Lemma teeth_loop_unrolled zx zw th gap zb y0 :
  1 <= gap →
  ∀ n k fuel img,
    tooth_count (y0 + Z.of_nat k * gap) (zb - th) gap = n →
    (n <= fuel)%nat →
    teeth_loop fuel zx zw th gap zb img (y0 + Z.of_nat k * gap) (Nat.even k)
    = for_each (tooth zx zw th gap y0 <$> seq k n)
               (λ bc img, draw_rectangle img bc.1 bc.2) img.
Proof.
  intros Hg. induction n as [|n IH]; intros k fuel img Hn Hfuel.
  - simpl. apply teeth_loop_done.
    destruct (Z.lt_ge_cases (y0 + Z.of_nat k * gap) (zb - th)) as [H|H]; [|lia].
    rewrite tooth_count_step in Hn by done. discriminate.
  - destruct (Z.lt_ge_cases (y0 + Z.of_nat k * gap) (zb - th)) as [H|H].
    2:{ rewrite tooth_count_done in Hn by done. discriminate. }
    rewrite tooth_count_step in Hn by done. injection Hn as Hn.
    destruct fuel as [|fuel]; [lia|].
    rewrite teeth_loop_step by done. simpl.
    destruct (draw_rectangle _ _ _) as [img1| |]; simpl; try reflexivity.
    replace (y0 + Z.of_nat k * gap + gap) with (y0 + Z.of_nat (S k) * gap) by lia.
    replace (negb (Nat.even k)) with (Nat.even (S k))
      by (by rewrite Nat.even_succ, <- Nat.negb_even).
    apply IH; [|lia].
    rewrite <- Hn. f_equal. lia.
Qed.

Lemma teeth_loop_teeth zx zw th gap zb y0 fuel img :
  1 <= gap → (tooth_count y0 (zb - th) gap <= fuel)%nat →
  teeth_loop fuel zx zw th gap zb img y0 true
  = draw_all (teeth zx zw th gap y0 (tooth_count y0 (zb - th) gap)) img.
Proof.
  intros Hg Hfuel.
  pose proof (teeth_loop_unrolled zx zw th gap zb y0 Hg
                (tooth_count y0 (zb - th) gap) O fuel img) as H.
  simpl in H. rewrite Z.add_0_r in H. by apply H.
Qed.

Lemma draw_all_halts shapes img : draw_all shapes img ≠ OutOfFuel.
Proof. apply for_each_halts. intros. apply draw_shape_halts. Qed.

Lemma draw_all_ok shapes img :
  Forall (λ bc, well_ordered bc.1 = true) shapes →
  ∃ img', draw_all shapes img = Ok img'.
Proof.
  intros H. revert img. induction H as [|bc shapes Hbc _ IH]; intros img; simpl.
  - by eexists.
  - unfold draw_all, draw_rectangle in *. cbn [for_each].
    rewrite draw_shape_ok, bind_Ok by done. apply IH.
Qed.

(** Without a gap the cursor never moves: the loop cannot return. *)
Lemma teeth_loop_stuck zx zw th zb fuel :
  ∀ img y toggle img',
    y < zb - th → teeth_loop fuel zx zw th 0 zb img y toggle ≠ Ok img'.
Proof.
  induction fuel as [|fuel IH]; intros img y toggle img' Hy; simpl;
    destruct (Z.ltb_spec y (zb - th)); try lia; [done|].
  destruct (draw_rectangle _ _ _) as [img1| |]; simpl; [|done..].
  rewrite Z.add_0_r. by apply IH.
Qed.

End ShapeFacts.

(** ** The measures of the icon *)

Module Measures.
Import Py PyFacts.

Lemma Qle_of_Z a b : a <= b → (inject_Z a <= inject_Z b)%Q.
Proof. by rewrite <- Zle_Qle. Qed.

Lemma Zlt_of_Q a b : (inject_Z a < inject_Z b)%Q → a < b.
Proof. by rewrite <- Zlt_Qlt. Qed.

Lemma scaled_25_008 : scaled 25 (dec 8 100) = Ok 2.
Proof. vm_compute. reflexivity. Qed.

(** Every measure [create_icon] takes of a side [N >= 1] that converts to
    the float [f], and the order the drawing relies on. *)
Lemma measures N f :
  1 <= N → float_of_int N = Ok f →
  ∃ box_size inset zipper_width tooth_height tooth_gap crown crown_width gem_size,
    scaled N (dec 5 10) = Ok box_size
    ∧ scaled N (dec 5 100) = Ok inset
    ∧ scaled N (dec 8 100) = Ok zipper_width
    ∧ scaled N (dec 4 100) = Ok tooth_height
    ∧ scaled N (dec 6 100) = Ok tooth_gap
    ∧ scaled N (dec 12 100) = Ok crown
    ∧ scaled N (dec 25 100) = Ok crown_width
    ∧ scaled N (dec 25 1000) = Ok gem_size
    ∧ 0 <= inset ∧ 2 * inset <= box_size ∧ box_size <= N
    ∧ 0 <= zipper_width ∧ 0 <= tooth_height ∧ 0 <= tooth_gap
    ∧ 0 <= gem_size
    ∧ (25 <= N → 2 <= zipper_width)
    ∧ (17 <= N → 1 <= tooth_gap)
    ∧ (N <= 16 → tooth_gap = 0).
Proof.
  intros HN Hf.
  destruct (float_of_int_bounds N f ltac:(lia) Hf) as (F0 & F1 & F2 & F3).
  pose proof (Qle_of_Z 1 N HN) as HNq. change (inject_Z 1) with 1%Q in HNq.
  destruct (scaled_bounds N f (dec 5 10) Hf F0 F1) as (bs & Ebs & Bbs0 & Bbs1 & Bbs2);
    [rewrite dec_0_5; lra..|].
  destruct (scaled_bounds N f (dec 5 100) Hf F0 F1) as (ins & Eins & Bins0 & Bins1 & Bins2);
    [rewrite dec_0_05; lra..|].
  destruct (scaled_bounds N f (dec 8 100) Hf F0 F1) as (zw & Ezw & Bzw0 & Bzw1 & Bzw2);
    [rewrite dec_0_08; lra..|].
  destruct (scaled_bounds N f (dec 4 100) Hf F0 F1) as (th & Eth & Bth0 & Bth1 & Bth2);
    [rewrite dec_0_04; lra..|].
  destruct (scaled_bounds N f (dec 6 100) Hf F0 F1) as (gap & Egap & Bgap0 & Bgap1 & Bgap2);
    [rewrite dec_0_06; lra..|].
  destruct (scaled_bounds N f (dec 12 100) Hf F0 F1) as (cr & Ecr & Bcr0 & Bcr1 & Bcr2);
    [rewrite dec_0_12; lra..|].
  destruct (scaled_bounds N f (dec 25 100) Hf F0 F1) as (cw & Ecw & Bcw0 & Bcw1 & Bcw2);
    [rewrite dec_0_25; lra..|].
  destruct (scaled_bounds N f (dec 25 1000) Hf F0 F1) as (gs & Egs & Bgs0 & Bgs1 & Bgs2);
    [rewrite dec_0_025; lra..|].
  exists bs, ins, zw, th, gap, cr, cw, gs.
  rewrite dec_0_5 in Bbs1, Bbs2. rewrite dec_0_05 in Bins1, Bins2.
  rewrite dec_0_08 in Bzw1, Bzw2. rewrite dec_0_06 in Bgap1, Bgap2.
  unfold eps in *.
  repeat (split; [assumption|]).
  split; [|split; [|split; [assumption|split; [assumption|split; [assumption|
    split; [assumption|split; [|split]]]]]]].
  - apply Z.lt_succ_r, Zlt_of_Q. unfold Z.succ.
    rewrite inject_Z_plus, inject_Z_mult. change (inject_Z 2) with 2%Q.
    change (inject_Z 1) with 1%Q. lra.
  - apply Z.lt_succ_r, Zlt_of_Q. unfold Z.succ.
    rewrite inject_Z_plus. change (inject_Z 1) with 1%Q. lra.
  - intros H25. destruct (decide (N = 25)) as [->|Hne].
    + rewrite scaled_25_008 in Ezw. injection Ezw as <-. lia.
    + pose proof (Qle_of_Z 26 N ltac:(lia)) as H26.
      change (inject_Z 26) with 26%Q in H26.
      assert (1 < zw); [|lia]. apply Zlt_of_Q. change (inject_Z 1) with 1%Q. lra.
  - intros H17. pose proof (Qle_of_Z 17 N H17) as H17q.
    change (inject_Z 17) with 17%Q in H17q.
    assert (0 < gap); [|lia]. apply Zlt_of_Q. change (inject_Z 0) with 0%Q. lra.
  - intros H16. pose proof (Qle_of_Z N 16 H16) as H16q.
    change (inject_Z 16) with 16%Q in H16q.
    assert (gap < 1); [|lia]. apply Zlt_of_Q. change (inject_Z 1) with 1%Q. lra.
Qed.

End Measures.

(** ** [create_icon] *)

Section IconFacts.
Context {P : Pillow}.
Import Py PyFacts.

Lemma create_icon_measured fuel N bg bs ins zw th gap cr cw gs :
  create_gradient N color1 color2 = Ok bg →
  scaled N (dec 5 10) = Ok bs → scaled N (dec 5 100) = Ok ins →
  scaled N (dec 8 100) = Ok zw → scaled N (dec 4 100) = Ok th →
  scaled N (dec 6 100) = Ok gap → scaled N (dec 12 100) = Ok cr →
  scaled N (dec 25 100) = Ok cw → scaled N (dec 25 1000) = Ok gs →
  create_icon fuel N
  = compose_icon (teeth_step fuel N bs ins zw th gap) N bg bs ins zw cr cw gs.
Proof.
  intros Ebg Ebs Eins Ezw Eth Egap Ecr Ecw Egs.
  unfold create_icon, compose_icon, teeth_step, box_bottom_of, box_top_of.
  rewrite Ebg, Ebs, Eins, Ezw, Eth, Egap, Ecr, Ecw, Egs.
  reflexivity.
Qed.

Lemma compose_icon_ext loop loop' N bg bs ins zw cr cw gs :
  (∀ img, loop img = loop' img) →
  compose_icon loop N bg bs ins zw cr cw gs
  = compose_icon loop' N bg bs ins zw cr cw gs.
Proof.
  intros H. unfold compose_icon.
  destruct (draw_rounded_rect _ _ _ _) as [img| |]; simpl; [|done..].
  by rewrite H.
Qed.

(** Whatever [create_icon] returns is a square of the side asked whose
    pixels have alpha 255 or 230. *)
Lemma create_icon_painted fuel N img :
  create_icon fuel N = Ok img → painted N img.
Proof.
  intros E. unfold create_icon in E. cbv zeta in E.
  apply bind_Ok_inv in E as (bg & Ebg & E).
  assert (Hbg : painted N bg).
  { destruct (GradientFacts.create_gradient_inv _ _ _ _ Ebg) as [HN Hroom].
    destruct (GradientFacts.create_gradient_opaque N HN Hroom)
      as (bg' & E' & Hsq & Hop).
    rewrite Ebg in E'. injection E' as <-.
    split; [done|]. by apply all_alpha_among. }
  apply bind_Ok_inv in E as (bs & _ & E).
  apply bind_Ok_inv in E as (ins & _ & E).
  apply bind_Ok_inv in E as (radius & _ & E).
  apply bind_Ok_inv in E as (img1 & E1%(painted_rounded_rect N) & E); [|done].
  apply bind_Ok_inv in E as (zw & _ & E).
  apply bind_Ok_inv in E as (th & _ & E).
  apply bind_Ok_inv in E as (gap & _ & E).
  apply bind_Ok_inv in E as (off1 & _ & E).
  apply bind_Ok_inv in E as (off2 & _ & E).
  apply bind_Ok_inv in E as (img2 & E2%(painted_teeth_loop N) & E); [|done].
  apply bind_Ok_inv in E as (ps & _ & E).
  apply bind_Ok_inv in E as (img3 & E3%(painted_draw_shape N) & E); [|lia|done].
  apply bind_Ok_inv in E as (cy & _ & E).
  apply bind_Ok_inv in E as (ch & _ & E).
  apply bind_Ok_inv in E as (cw & _ & E).
  apply bind_Ok_inv in E as (gs & _ & E).
  eapply painted_draw_shape; [| |exact E]; [lia|].
  unfold draw_polygon. apply painted_paint; [lia|done].
Qed.

Lemma tooth_count_le y0 limit gap :
  1 <= gap → (tooth_count y0 limit gap <= Z.to_nat (limit - y0))%nat.
Proof.
  intros Hg. destruct (tooth_count y0 limit gap) as [|k] eqn:E; [lia|].
  assert (H : (k < tooth_count y0 limit gap)%nat) by lia.
  apply tooth_count_spec in H; [|done]. nia.
Qed.

Lemma teeth_well_ordered zx zw th gap y0 n :
  2 <= zw → 0 <= th →
  Forall (λ bc : box * colour, well_ordered bc.1 = true) (teeth zx zw th gap y0 n).
Proof.
  intros Hzw Hth. unfold teeth. apply Forall_fmap, Forall_forall.
  intros k _. unfold tooth, tooth_box. simpl.
  destruct (Nat.even k); simpl; apply andb_true_iff; split; lia.
Qed.

(** The step of the teeth with enough fuel: the teeth, drawn in order. *)
Lemma teeth_step_teeth fuel N bs ins zw th gap img :
  1 <= gap → 0 <= zw → 0 <= th → bs <= N → (Z.to_nat N <= fuel)%nat →
  teeth_step fuel N bs ins zw th gap img
  = draw_all (teeth (N / 2) zw th gap (box_top_of N bs ins + zw)
                (tooth_count (box_top_of N bs ins + zw)
                             (box_bottom_of N bs ins - zw - th) gap)) img.
Proof.
  intros Hg Hzw Hth Hbs Hfuel. unfold teeth_step.
  apply teeth_loop_teeth; [done|].
  etrans; [by apply tooth_count_le|]. unfold box_bottom_of. lia.
Qed.

Lemma draw_shape_returns s img b c :
  well_ordered b = true ∨ lenient P → ∃ img', draw_shape s img b c = Ok img'.
Proof.
  intros H. unfold draw_shape. destruct (well_ordered b); [by eexists|].
  destruct H as [|H]; [done|]. destruct (H s b) as [mask ->]. by eexists.
Qed.

Lemma draw_all_returns shapes img :
  Forall (λ bc, well_ordered bc.1 = true) shapes ∨ lenient P →
  ∃ img', draw_all shapes img = Ok img'.
Proof.
  intros [H|H]; [by apply draw_all_ok|].
  revert img. induction shapes as [|bc shapes IH]; intros img.
  - by eexists.
  - unfold draw_all, draw_rectangle in *. cbn [for_each].
    destruct (draw_shape_returns Rectangle img bc.1 bc.2) as [img1 ->]; [by right|].
    rewrite bind_Ok. apply IH.
Qed.

(** With a gap of at least one and fuel for every tooth, [create_icon] is
    the drawing calls in their order, whatever the fuel. *)
Lemma create_icon_composed fuel N bg bs ins zw th gap cr cw gs :
  create_gradient N color1 color2 = Ok bg →
  scaled N (dec 5 10) = Ok bs → scaled N (dec 5 100) = Ok ins →
  scaled N (dec 8 100) = Ok zw → scaled N (dec 4 100) = Ok th →
  scaled N (dec 6 100) = Ok gap → scaled N (dec 12 100) = Ok cr →
  scaled N (dec 25 100) = Ok cw → scaled N (dec 25 1000) = Ok gs →
  1 <= gap → 0 <= zw → 0 <= th → bs <= N → (Z.to_nat N <= fuel)%nat →
  create_icon fuel N
  = compose_icon
      (draw_all (teeth (N / 2) zw th gap (box_top_of N bs ins + zw)
                   (tooth_count (box_top_of N bs ins + zw)
                                (box_bottom_of N bs ins - zw - th) gap)))
      N bg bs ins zw cr cw gs.
Proof.
  intros Ebg Ebs Eins Ezw Eth Egap Ecr Ecw Egs Hgap Hzw Hth Hbs Hfuel.
  rewrite (create_icon_measured fuel N bg bs ins zw th gap cr cw gs) by done.
  apply compose_icon_ext. intros img. by apply teeth_step_teeth.
Qed.

Lemma compose_icon_halts loop N bg bs ins zw cr cw gs :
  (∀ img, loop img ≠ OutOfFuel) →
  compose_icon loop N bg bs ins zw cr cw gs ≠ OutOfFuel.
Proof.
  intros Hloop. unfold compose_icon, draw_rounded_rect, draw_rectangle, draw_ellipse.
  repeat match goal with
  | |- context [draw_shape ?s ?i ?b ?c ≫= _] =>
      let H := fresh in
      pose proof (draw_shape_halts s i b c) as H;
      destruct (draw_shape s i b c); simpl; [clear H|done|done]
  | |- context [loop ?i ≫= _] =>
      let H := fresh in
      pose proof (Hloop i) as H; destruct (loop i); simpl; [clear H|done|done]
  end.
  apply draw_shape_halts.
Qed.

Lemma compose_icon_returns loop N bg bs ins zw cr cw gs :
  (∀ img, ∃ img', loop img = Ok img') →
  0 <= ins → 2 * ins <= bs → 0 <= zw → 0 <= gs →
  ∃ img, compose_icon loop N bg bs ins zw cr cw gs = Ok img.
Proof.
  intros Hloop Hins Hbs Hzw Hgs.
  unfold compose_icon, draw_rounded_rect, draw_rectangle, draw_ellipse.
  repeat (rewrite draw_shape_ok, bind_Ok
            by (simpl; apply andb_true_iff; split; lia)).
  match goal with
  | |- context [loop ?i] => destruct (Hloop i) as [img ->]
  end.
  rewrite bind_Ok.
  rewrite draw_shape_ok, bind_Ok by (simpl; apply andb_true_iff; split; lia).
  rewrite draw_shape_ok by (simpl; apply andb_true_iff; split; lia).
  by eexists.
Qed.

Lemma create_icon_halts N f fuel :
  17 <= N → float_of_int N = Ok f → (Z.to_nat N <= fuel)%nat →
  create_icon fuel N ≠ OutOfFuel
  ∧ create_icon fuel N = create_icon (Z.to_nat N) N.
Proof.
  intros HN Hf Hfuel.
  destruct (Measures.measures N f ltac:(lia) Hf)
    as (bs & ins & zw & th & gap & cr & cw & gs & Ebs & Eins & Ezw & Eth & Egap
        & Ecr & Ecw & Egs & Hins & Hbox & HbsN & Hzw & Hth & Hgap & Hgs
        & Hzw2 & Hgap1 & _).
  specialize (Hgap1 HN).
  destruct (GradientFacts.create_gradient_halts N) as [[bg Ebg]|[e Ebg]].
  - rewrite (create_icon_composed fuel N bg bs ins zw th gap cr cw gs) by done.
    rewrite (create_icon_composed (Z.to_nat N) N bg bs ins zw th gap cr cw gs)
      by done.
    split; [|done].
    apply compose_icon_halts. intros. apply draw_all_halts.
  - unfold create_icon. rewrite Ebg. by split.
Qed.

(** For a side of 25 or more that Pillow and the machine take (or of 17 or
    more, on a release of Pillow that accepts every box), [create_icon]
    returns, given one unit of fuel per pixel of the side. *)
Lemma create_icon_returns N fuel :
  25 <= N ∨ (17 <= N ∧ lenient P) →
  room_for N → (Z.to_nat N <= fuel)%nat →
  ∃ img, create_icon fuel N = Ok img.
Proof.
  intros HN Hroom Hfuel.
  destruct (GradientFacts.room_for_float N ltac:(lia) Hroom) as [f Hf].
  destruct (Measures.measures N f ltac:(lia) Hf)
    as (bs & ins & zw & th & gap & cr & cw & gs & Ebs & Eins & Ezw & Eth & Egap
        & Ecr & Ecw & Egs & Hins & Hbox & HbsN & Hzw & Hth & Hgap & Hgs
        & Hzw2 & Hgap1 & _).
  specialize (Hgap1 ltac:(lia)).
  destruct (GradientFacts.create_gradient_opaque N ltac:(lia) Hroom)
    as (bg & Ebg & _).
  rewrite (create_icon_composed fuel N bg bs ins zw th gap cr cw gs) by done.
  apply compose_icon_returns; try done.
  intros img. apply draw_all_returns.
  destruct HN as [HN|[_ HN]]; [left|by right].
  apply teeth_well_ordered; [by apply Hzw2|done].
Qed.

(** At side 1 every measure is zero and the loop has nothing to draw. *)
Lemma create_icon_side_1 fuel : ∃ img, create_icon fuel 1 = Ok img.
Proof.
  destruct (GradientFacts.create_gradient_opaque 1 ltac:(lia)
              (GradientFacts.room_for_small 1 ltac:(lia))) as (bg & Ebg & _).
  rewrite (create_icon_measured fuel 1 bg 0 0 0 0 0 0 0 0);
    [|done|vm_compute; reflexivity..].
  apply compose_icon_returns; try lia.
  intros img. exists img. unfold teeth_step. apply teeth_loop_done.
  vm_compute. discriminate.
Qed.

Lemma compose_icon_stuck loop N bg bs ins zw cr cw gs img :
  (∀ i i', loop i ≠ Ok i') →
  compose_icon loop N bg bs ins zw cr cw gs ≠ Ok img.
Proof.
  intros Hloop. unfold compose_icon.
  destruct (draw_rounded_rect _ _ _ _) as [img1| |]; simpl; [|done..].
  pose proof (Hloop img1) as H. destruct (loop img1) as [img2| |]; simpl; [|done..].
  by destruct (H img2).
Qed.

(** When the gap is zero and the box leaves room for a tooth, the cursor
    of the loop never moves and [create_icon] returns no image. *)
Lemma create_icon_stuck fuel N bg bs ins zw th cr cw gs img :
  create_gradient N color1 color2 = Ok bg →
  scaled N (dec 5 10) = Ok bs → scaled N (dec 5 100) = Ok ins →
  scaled N (dec 8 100) = Ok zw → scaled N (dec 4 100) = Ok th →
  scaled N (dec 6 100) = Ok 0 → scaled N (dec 12 100) = Ok cr →
  scaled N (dec 25 100) = Ok cw → scaled N (dec 25 1000) = Ok gs →
  2 * zw + th < bs →
  create_icon fuel N ≠ Ok img.
Proof.
  intros Ebg Ebs Eins Ezw Eth Egap Ecr Ecw Egs Hroom.
  rewrite (create_icon_measured fuel N bg bs ins zw th 0 cr cw gs) by done.
  apply compose_icon_stuck. intros i i'. unfold teeth_step.
  apply teeth_loop_stuck. unfold box_bottom_of. lia.
Qed.

(** A side from 2 to 16 takes a gap of zero: no image is returned, however
    much fuel is given. *)
Lemma create_icon_small_sides N fuel img :
  2 <= N <= 16 → create_icon fuel N ≠ Ok img.
Proof.
  intros HN.
  destruct (GradientFacts.create_gradient_opaque N ltac:(lia)
              (GradientFacts.room_for_small N ltac:(lia))) as (bg & Ebg & _).
  assert (H : N = 2 ∨ N = 3 ∨ N = 4 ∨ N = 5 ∨ N = 6 ∨ N = 7 ∨ N = 8 ∨ N = 9
              ∨ N = 10 ∨ N = 11 ∨ N = 12 ∨ N = 13 ∨ N = 14 ∨ N = 15 ∨ N = 16)
    by lia.
  repeat destruct H as [H|H]; subst N;
    (eapply create_icon_stuck;
     [exact Ebg | vm_compute; reflexivity .. | lia]).
Qed.

End IconFacts.

(** ** One pixel through the drawing calls *)

Section PixelFacts.
Context {P : Pillow} {L : PillowLaws P}.
Import Py PyFacts.

Lemma shape_mask_outside s b x y :
  rect_mask b x y = false → shape_mask s b x y = false.
Proof.
  intros H. destruct s; simpl; [done|].
  destruct (ellipse_mask b x y) eqn:E; [|done].
  apply ellipse_in_box in E. congruence.
Qed.

(** A shape whose box does not hold the pixel leaves it as it was. *)
Lemma draw_shape_keeps s img b c img' x y :
  draw_shape s img b c = Ok img' →
  well_ordered b = true → rect_mask b x y = false →
  pixels img' x y = pixels img x y.
Proof.
  intros E Hwo Hout. revert E. rewrite draw_shape_ok by done. intros [= <-].
  rewrite pixels_paint, shape_mask_outside by done. by rewrite andb_false_r.
Qed.

(** A rectangle that holds the pixel gives it the fill. *)
Lemma draw_rectangle_sets img b c img' x y :
  draw_rectangle img b c = Ok img' →
  well_ordered b = true → rect_mask b x y = true → inside img x y = true →
  pixels img' x y = ink c.
Proof.
  intros E Hwo Hin Hins. revert E. unfold draw_rectangle.
  rewrite draw_shape_ok by done. intros [= <-]. rewrite pixels_paint. simpl. by rewrite Hin, Hins.
Qed.

Lemma draw_polygon_keeps img pts c x y :
  rect_mask (bounding_box pts) x y = false →
  pixels (draw_polygon img pts c) x y = pixels img x y.
Proof.
  intros Hout. unfold draw_polygon. rewrite pixels_paint.
  destruct (polygon_mask pts x y) eqn:E; [|by rewrite andb_false_r].
  apply polygon_in_box in E. congruence.
Qed.

Lemma draw_all_keeps shapes x y :
  Forall (λ bc : box * colour,
            well_ordered bc.1 = true ∧ rect_mask bc.1 x y = false) shapes →
  ∀ img img', draw_all shapes img = Ok img' → pixels img' x y = pixels img x y.
Proof.
  induction 1 as [|bc shapes [Hwo Hout] _ IH]; intros img img' E.
  - by injection E as <-.
  - unfold draw_all in *. cbn [for_each] in E.
    apply bind_Ok_inv in E as (img1 & E1 & E2).
    rewrite (IH _ _ E2). by apply (draw_shape_keeps _ _ _ _ _ _ _ E1).
Qed.

Lemma inside_draw_shape s img b c img' x y :
  draw_shape s img b c = Ok img' → inside img' x y = inside img x y.
Proof. intros [mask ->]%draw_shape_inv. apply inside_paint. Qed.

Lemma tooth_avoids zx zw th y0 toggle x y :
  2 <= zw → 0 <= th → x < zx - zw ∨ zx + zw < x →
  well_ordered (tooth_box zx zw th y0 toggle) = true
  ∧ rect_mask (tooth_box zx zw th y0 toggle) x y = false.
Proof.
  intros Hzw Hth Hx. unfold tooth_box.
  destruct toggle; cbv beta iota delta [well_ordered rect_mask]; split.
  - apply andb_true_iff. split; apply Z.leb_le; lia.
  - destruct (Z.leb_spec (zx - zw) x), (Z.leb_spec x (zx - 2)); try done; lia.
  - apply andb_true_iff. split; apply Z.leb_le; lia.
  - destruct (Z.leb_spec (zx + 2) x), (Z.leb_spec x (zx + zw)); try done; lia.
Qed.

(** The loop of the teeth leaves such a pixel as it was, whatever the fuel. *)
Lemma teeth_loop_keeps zx zw th gap zb x y fuel :
  2 <= zw → 0 <= th → x < zx - zw ∨ zx + zw < x →
  ∀ img y0 toggle img',
    teeth_loop fuel zx zw th gap zb img y0 toggle = Ok img' →
    pixels img' x y = pixels img x y.
Proof.
  intros Hzw Hth Hx.
  induction fuel as [|fuel IH]; intros img y0 toggle img'; simpl;
    destruct (y0 <? zb - th); try discriminate; try (by intros [= <-]).
  intros E. apply bind_Ok_inv in E as (img1 & E1 & E2).
  rewrite (IH _ _ _ _ E2).
  destruct (tooth_avoids zx zw th y0 toggle x y Hzw Hth Hx) as [Hwo Hout].
  by apply (draw_shape_keeps _ _ _ _ _ _ _ E1).
Qed.

(** At side 1024 the pixel (300, 600) lies in the box and under nothing
    drawn after it: it keeps the fill of the box, alpha 230. *)
Lemma icon_1024_box_pixel fuel img :
  create_icon fuel 1024 = Ok img →
  getpixel img 300 600 = Some (RGBA 255 255 255 230).
Proof.
  intros E.
  destruct (create_icon_painted _ _ _ E) as [[Hw Hh] _].
  unfold getpixel.
  assert (inside img 300 600 = true) as -> by (apply inside_iff; lia).
  f_equal.
  destruct (GradientFacts.create_gradient_opaque 1024 ltac:(lia)
              (GradientFacts.room_for_small 1024 ltac:(lia)))
    as (bg & Ebg & [Hbw Hbh] & _).
  rewrite (create_icon_measured fuel 1024 bg 512 51 81 40 61 122 256 25) in E;
    [|done|vm_compute; reflexivity..].
  unfold compose_icon in E. cbv zeta in E.
  unfold draw_rounded_rect, draw_ellipse, teeth_step in E.
  apply bind_Ok_inv in E as (i1 & E1 & E).
  apply bind_Ok_inv in E1 as (r1 & R1 & E1).
  apply bind_Ok_inv in E1 as (r2 & R2 & E1).
  apply bind_Ok_inv in E1 as (r3 & R3 & E1).
  apply bind_Ok_inv in E1 as (r4 & R4 & E1).
  apply bind_Ok_inv in E1 as (r5 & R5 & R6).
  apply bind_Ok_inv in E as (i2 & E2 & E).
  apply bind_Ok_inv in E as (i3 & E3 & E4).
  rewrite (draw_shape_keeps _ _ _ _ _ 300 600 E4) by reflexivity.
  rewrite draw_polygon_keeps by reflexivity.
  rewrite (draw_shape_keeps _ _ _ _ _ 300 600 E3) by reflexivity.
  rewrite (teeth_loop_keeps (1024 / 2) 81 40 61 _ 300 600 fuel ltac:(lia)
             ltac:(lia) ltac:(left; reflexivity) _ _ _ _ E2).
  rewrite (draw_shape_keeps _ _ _ _ _ 300 600 R6) by reflexivity.
  rewrite (draw_shape_keeps _ _ _ _ _ 300 600 R5) by reflexivity.
  rewrite (draw_shape_keeps _ _ _ _ _ 300 600 R4) by reflexivity.
  rewrite (draw_shape_keeps _ _ _ _ _ 300 600 R3) by reflexivity.
  rewrite (draw_rectangle_sets _ _ _ _ 300 600 R2); [reflexivity..|].
  rewrite (inside_draw_shape _ _ _ _ _ _ _ R1). apply inside_iff. lia.
Qed.

End PixelFacts.

(** ** The rasteriser of the examples keeps its shapes in their boxes *)

Lemma plain_pillow_laws : PillowLaws plain_pillow.
Proof.
  split.
  - intros [[[x0 y0] x1] y1] x y. simpl. unfold lattice_ellipse.
    intros H. apply andb_true_iff in H as [H _]. exact H.
  - intros pts x y. simpl. intros H. apply andb_true_iff in H as [H _]. exact H.
Qed.

Lemma tolerant_pillow_lenient : lenient tolerant_pillow.
Proof. intros s b. by eexists. Qed.

Lemma float_1024 : fits_float 1024.
Proof. exists 1024%Q. vm_compute. reflexivity. Qed.

Lemma room_for_1024 (P : Pillow) : room_for 1024.
Proof. apply GradientFacts.room_for_small. lia. Qed.

(** * The Icon Renderer *)

(** ** The canvas of [create_icon] (C2) *)

(** C2, as stated, fails: for every side N > 0 the canvas returned would
    have alpha 255 at every pixel.  At side 1024 the pixel (300, 600) lies
    in the box, which is filled with alpha 230, and nothing is drawn over
    it. *)
Lemma icon_box_is_translucent :
  ¬ (∀ P : Pillow, PillowLaws P → ∀ N, 0 < N →
       ∃ fuel img, create_icon fuel N = Ok img
                   ∧ square N img ∧ all_alpha 255 img).
Proof.
  intros H.
  destruct (H plain_pillow plain_pillow_laws 1024 ltac:(lia))
    as (fuel & img & E & [Hw Hh] & Hop).
  pose proof (icon_1024_box_pixel (L := plain_pillow_laws) fuel img E) as Hpx.
  unfold getpixel in Hpx.
  assert (Hin : inside img 300 600 = true) by (apply inside_iff; lia).
  rewrite Hin in Hpx. injection Hpx as Hpx.
  specialize (Hop 300 600 Hin). rewrite Hpx in Hop. discriminate.
Qed.

(** C2 (amended): for every side N > 0 that Pillow and the machine take
    (N below 2^31, and memory for N x N pixels) the background fill alone,
    [create_gradient], returns a canvas of exactly N x N pixels with alpha
    255 everywhere; whatever [create_icon] returns is a canvas of exactly
    N x N pixels whose alpha is 255 or, where the box shows, 230; and
    [create_icon] does return for side 1 and for every side from 25 on that
    Pillow and the machine take.  From side 2^31 on both raise
    OverflowError. *)
Theorem create_icon_canvas (P : Pillow) (N : Z) :
  0 < N →
  (room_for N →
   ∃ bg, create_gradient N color1 color2 = Ok bg
         ∧ square N bg ∧ all_alpha 255 bg)
  ∧ (∀ fuel img, create_icon fuel N = Ok img →
                 square N img ∧ alpha_among 255 230 img)
  ∧ (N = 1 ∨ 25 <= N → room_for N →
     ∀ fuel, (Z.to_nat N <= fuel)%nat → ∃ img, create_icon fuel N = Ok img)
  ∧ (2 ^ 31 <= N →
     create_gradient N color1 color2 = Raise OverflowError
     ∧ ∀ fuel, create_icon fuel N = Raise OverflowError).
Proof.
  intros HN. split; [|split; [|split]].
  - intros Hroom. apply GradientFacts.create_gradient_opaque; [lia|done].
  - intros fuel img E. exact (create_icon_painted fuel N img E).
  - intros [->|H25] Hroom fuel Hfuel; [apply create_icon_side_1|].
    apply create_icon_returns; auto.
  - intros Hbig.
    pose proof (GradientFacts.create_gradient_overflow N color1 color2 Hbig) as E.
    split; [exact E|]. intros fuel. unfold create_icon. by rewrite E.
Qed.

Lemma create_icon_canvas_1024 :
  ∃ img, create_icon (P := plain_pillow) 1024 1024 = Ok img
         ∧ square 1024 img ∧ alpha_among 255 230 img.
Proof.
  destruct (create_icon_canvas plain_pillow 1024 ltac:(lia)) as (_ & Hp & Hr & _).
  destruct (Hr ltac:(right; lia) (room_for_1024 plain_pillow) 1024%nat ltac:(lia))
    as [img E].
  exists img. split; [exact E|]. exact (Hp _ _ E).
Defined.

(** ** The ends of the gradient (C7) *)

(** C7, as stated, fails for the small sides.  At side 1 the only pixel is
    the first and the last one at once: it has the start colour, which is
    16, 51 and 72 units away from the end colour. *)
Lemma gradient_side_1_misses_end :
  ∃ img p, create_gradient (P := plain_pillow) 1 color1 color2 = Ok img
           ∧ getpixel img (1 - 1) (1 - 1) = Some p
           ∧ p = RGBA 102 126 234 255 ∧ ¬ near_rgb p color2.
Proof.
  destruct (GradientFacts.create_gradient_spec (P := plain_pillow) 1 ltac:(lia)
              (GradientFacts.room_for_small 1 ltac:(lia)))
    as (img & E & [Hw Hh] & Hpix).
  exists img, (RGBA 102 126 234 255). split; [exact E|]. split; [|split].
  - unfold getpixel.
    assert (inside img (1 - 1) (1 - 1) = true) as ->
      by (apply inside_iff; lia).
    f_equal. rewrite Hpix by lia. apply CornerFacts.gradient_origin.
  - reflexivity.
  - unfold near_rgb, near. simpl. lia.
Qed.

(** The last side for which it fails is 36: the blue channel of the last
    pixel is 164, two units from 162. *)
Lemma gradient_side_36_last_pixel :
  gradient_pixel 36 35 35 = RGBA 117 76 164 255.
Proof. vm_compute. reflexivity. Qed.

(** C7 (amended): for every side N > 0 that Pillow and the machine take,
    the pixel (0, 0) of the gradient is the start colour (102, 126, 234),
    and the pixel (N-1, N-1) is within one unit per channel of the end
    colour (118, 75, 162) exactly when N >= 37: for every side from 1 to 36
    its blue channel is two units or more above 162. *)
Theorem gradient_endpoints (P : Pillow) (N : Z) :
  0 < N → room_for N →
  ∃ img, create_gradient N color1 color2 = Ok img
    ∧ getpixel img 0 0 = Some (RGBA 102 126 234 255)
    ∧ ∃ p, getpixel img (N - 1) (N - 1) = Some p
           ∧ (near_rgb p color2 ↔ 37 <= N)
           ∧ (N <= 36 → 164 <= blue p).
Proof.
  intros HN Hroom.
  destruct (GradientFacts.create_gradient_spec N ltac:(lia) Hroom)
    as (img & E & [Hw Hh] & Hpix).
  exists img. split; [exact E|]. split.
  - unfold getpixel.
    assert (inside img 0 0 = true) as -> by (apply inside_iff; lia).
    f_equal. rewrite Hpix by lia. apply CornerFacts.gradient_origin.
  - exists (gradient_pixel N (N - 1) (N - 1)). split; [|split].
    + unfold getpixel.
      assert (inside img (N - 1) (N - 1) = true) as ->
        by (apply inside_iff; lia).
      f_equal. apply Hpix; lia.
    + split.
      * intros (_ & _ & Hb). destruct (Z.le_gt_cases 37 N) as [|Hs]; [done|].
        pose proof (CornerFacts.gradient_far_corner_small N ltac:(lia)) as H164.
        unfold near in Hb. change (color2.2) with 162 in Hb. lia.
      * apply CornerFacts.gradient_far_corner.
    + intros Hs. apply CornerFacts.gradient_far_corner_small. lia.
Qed.

Lemma gradient_endpoints_1024 :
  ∃ img p, create_gradient (P := plain_pillow) 1024 color1 color2 = Ok img
    ∧ getpixel img 0 0 = Some (RGBA 102 126 234 255)
    ∧ getpixel img 1023 1023 = Some p ∧ near_rgb p color2.
Proof.
  destruct (gradient_endpoints plain_pillow 1024 ltac:(lia)
              (room_for_1024 plain_pillow))
    as (img & E & H0 & p & Hp & Hnear & _).
  exists img, p. split; [exact E|]. split; [exact H0|]. split; [exact Hp|].
  apply Hnear. lia.
Defined.

(** ** The zipper teeth (C8) *)

Section Zipper.
Context (P : Pillow).
Import Py PyFacts.

Lemma teeth_length zx zw th gap y0 n : length (teeth zx zw th gap y0 n) = n.
Proof. unfold teeth. by rewrite length_fmap, length_seq. Qed.

Lemma teeth_lookup zx zw th gap y0 n k :
  (k < n)%nat →
  teeth zx zw th gap y0 n !! k = Some (tooth zx zw th gap y0 k).
Proof.
  intros Hk. unfold teeth. rewrite list_lookup_fmap, lookup_seq_lt by done.
  reflexivity.
Qed.

(** C8 (amended): for a side N >= 25 that Pillow and the machine take and
    enough fuel, [create_icon] returns, and its loop draws, between the box
    and the pull, exactly the teeth [k = 0 .. n-1] in this order, where
    tooth [k] starts at [y = box_top + int(0.08 N) + k * int(0.06 N)] and
    the teeth drawn are those with
    [y < box_bottom - int(0.08 N) - int(0.04 N)].  An even tooth is on the
    left, [N/2 - int(0.08 N), y, N/2 - 2, y + int(0.04 N)], filled with
    (102, 126, 234, 255); an odd tooth is on the right,
    [N/2 + 2, y, N/2 + int(0.08 N), y + int(0.04 N)], filled with
    (118, 75, 162, 255).  A tooth therefore spans int(0.08 N) - 2 units
    horizontally (int(0.08 N) - 1 pixel columns), from two pixels off the
    centre line, and int(0.04 N) units vertically (one pixel row more);
    its corners are in order. *)
Theorem zipper_teeth (N : Z) (fuel : nat) :
  25 <= N → room_for N → (Z.to_nat N <= fuel)%nat →
  ∃ bg bs ins zw th gap cr cw gs n img,
    create_gradient N color1 color2 = Ok bg
    ∧ scaled N (dec 5 10) = Ok bs ∧ scaled N (dec 5 100) = Ok ins
    ∧ scaled N (dec 8 100) = Ok zw ∧ scaled N (dec 4 100) = Ok th
    ∧ scaled N (dec 6 100) = Ok gap ∧ scaled N (dec 12 100) = Ok cr
    ∧ scaled N (dec 25 100) = Ok cw ∧ scaled N (dec 25 1000) = Ok gs
    ∧ 1 <= gap ∧ 2 <= zw ∧ 0 <= th
    ∧ let y0 := box_top_of N bs ins + zw in
      let limit := box_bottom_of N bs ins - zw - th in
      create_icon fuel N = Ok img
      ∧ create_icon fuel N
        = compose_icon (draw_all (teeth (N / 2) zw th gap y0 n))
                       N bg bs ins zw cr cw gs
      ∧ (∀ canvas,
           teeth_loop fuel (N / 2) zw th gap (box_bottom_of N bs ins - zw)
                      canvas y0 true
           = draw_all (teeth (N / 2) zw th gap y0 n) canvas)
      ∧ length (teeth (N / 2) zw th gap y0 n) = n
      ∧ (∀ k, (k < n)%nat ↔ y0 + Z.of_nat k * gap < limit)
      ∧ ∀ k, (k < n)%nat →
          let y := y0 + Z.of_nat k * gap in
          let b := if Nat.even k
                   then (N / 2 - zw, y, N / 2 - 2, y + th)
                   else (N / 2 + 2, y, N / 2 + zw, y + th) in
          let c := if Nat.even k
                   then (102, 126, 234, 255) else (118, 75, 162, 255) in
          teeth (N / 2) zw th gap y0 n !! k = Some (b, c)
          ∧ well_ordered b = true
          ∧ extent_x b = zw - 2 ∧ extent_y b = th
          ∧ columns b = zw - 1 ∧ rows b = th + 1.
Proof.
  intros HN Hroom Hfuel.
  destruct (GradientFacts.room_for_float N ltac:(lia) Hroom) as [f Hf].
  destruct (Measures.measures N f ltac:(lia) Hf)
    as (bs & ins & zw & th & gap & cr & cw & gs & Ebs & Eins & Ezw & Eth & Egap
        & Ecr & Ecw & Egs & Hins & Hbox & HbsN & Hzw & Hth & Hgap & Hgs
        & Hzw2 & Hgap1 & _).
  specialize (Hgap1 ltac:(lia)). specialize (Hzw2 HN).
  destruct (GradientFacts.create_gradient_opaque N ltac:(lia) Hroom)
    as (bg & Ebg & _).
  destruct (create_icon_returns N fuel ltac:(by left) Hroom Hfuel) as [img E].
  exists bg, bs, ins, zw, th, gap, cr, cw, gs.
  exists (tooth_count (box_top_of N bs ins + zw)
                      (box_bottom_of N bs ins - zw - th) gap), img.
  repeat (split; [assumption|]). cbv zeta.
  split; [|split; [|split; [|split]]].
  - by apply create_icon_composed.
  - intros canvas.
    exact (teeth_step_teeth fuel N bs ins zw th gap canvas Hgap1 Hzw Hth HbsN
             Hfuel).
  - apply teeth_length.
  - intros k. by apply tooth_count_spec.
  - intros k Hk. rewrite teeth_lookup by done. unfold tooth, tooth_box, tooth_fill.
    unfold columns, rows.
    destruct (Nat.even k); simpl; repeat split; try lia;
      apply andb_true_iff; split; apply Z.leb_le; lia.
Qed.

Lemma scaled_float N c v : scaled N c = Ok v → fits_float N.
Proof.
  unfold scaled, int_mul_float. intros E.
  apply bind_Ok_inv in E as (p & E & _).
  apply bind_Ok_inv in E as (f & E & _). by exists f.
Qed.

Lemma scaled_nonpos N c v :
  N <= 0 → (0 <= c)%Q → scaled N c = Ok v → v <= 0.
Proof.
  intros HN Hc E. unfold scaled, int_mul_float, float_of_int in E.
  apply bind_Ok_inv in E as (p & E & [= <-]).
  apply bind_Ok_inv in E as (f & [-> _]%fl_inv & [-> _]%fl_inv).
  apply int_of_float_nonpos, rn_nonpos.
  assert (inject_Z N <= 0)%Q.
  { change 0%Q with (inject_Z 0). by rewrite <- Zle_Qle. }
  pose proof (rn_nonpos _ H). nra.
Qed.

(** The gap of the teeth is at least one exactly from side 17 on. *)
Lemma tooth_gap_positive N :
  (∃ gap, scaled N (dec 6 100) = Ok gap ∧ 1 <= gap)
  ↔ 17 <= N ∧ fits_float N.
Proof.
  split.
  - intros (gap & E & Hgap). pose proof (scaled_float _ _ _ E) as Hfl.
    split; [|done]. destruct Hfl as [f Hf].
    destruct (Z.le_gt_cases N 0) as [H0|H0].
    { assert (Hc : (0 <= dec 6 100)%Q) by (rewrite dec_0_06; lra).
      pose proof (scaled_nonpos N (dec 6 100) gap H0 Hc E). lia. }
    destruct (Measures.measures N f ltac:(lia) Hf)
      as (bs & ins & zw & th & gap' & cr & cw & gs & _ & _ & _ & _ & Egap & _ & _
          & _ & _ & _ & _ & _ & _ & _ & _ & _ & _ & H16).
    rewrite E in Egap. injection Egap as <-.
    destruct (Z.le_gt_cases N 16) as [Hle|Hgt]; [|lia].
    specialize (H16 Hle). lia.
  - intros [HN [f Hf]].
    destruct (Measures.measures N f ltac:(lia) Hf)
      as (bs & ins & zw & th & gap & cr & cw & gs & _ & _ & _ & _ & Egap & _ & _
          & _ & _ & _ & _ & _ & _ & _ & _ & _ & H17 & _).
    exists gap. split; [done|]. by apply H17.
Qed.

End Zipper.

(** X1: a side from 2 to 16 takes a gap int(0.06 * N) of zero while the box
    leaves room for a tooth, so the cursor of the loop never moves:
    [create_icon] returns no image, whatever fuel it is given (the loop
    runs on, unless Pillow first refuses the box of the first tooth, whose
    corners are in the wrong order). *)
Theorem small_sides_return_nothing (P : Pillow) (N : Z) (fuel : nat)
    (img : image) :
  2 <= N <= 16 → create_icon fuel N ≠ Ok img.
Proof. apply create_icon_small_sides. Qed.

Lemma small_sides_return_nothing_2 :
  create_icon (P := tolerant_pillow) 1000 2
  ≠ Ok (Image 2 2 (λ _ _, RGBA 0 0 0 0)).
Proof.
  apply (small_sides_return_nothing tolerant_pillow 2 1000). lia.
Defined.

Lemma zipper_teeth_1024 :
  ∃ bg zw th gap cr cw gs n img,
    Py.scaled 1024 (Py.dec 8 100) = Ok zw
    ∧ Py.scaled 1024 (Py.dec 4 100) = Ok th
    ∧ Py.scaled 1024 (Py.dec 6 100) = Ok gap
    ∧ create_icon (P := plain_pillow) 1024 1024 = Ok img
    ∧ create_icon (P := plain_pillow) 1024 1024
      = compose_icon (P := plain_pillow)
          (draw_all (P := plain_pillow)
             (teeth (1024 / 2) zw th gap (box_top_of 1024 512 51 + zw) n))
          1024 bg 512 51 zw cr cw gs.
Proof.
  destruct (zipper_teeth plain_pillow 1024 1024 ltac:(lia)
              (room_for_1024 plain_pillow) ltac:(lia))
    as (bg & bs & ins & zw & th & gap & cr & cw & gs & n & img & _ & Ebs & Eins
        & Ezw & Eth & Egap & _ & _ & _ & _ & _ & _ & Eimg & E & _).
  assert (bs = 512) as -> by (vm_compute in Ebs; congruence).
  assert (ins = 51) as -> by (vm_compute in Eins; congruence).
  exists bg, zw, th, gap, cr, cw, gs, n, img.
  split; [exact Ezw|]. split; [exact Eth|]. split; [exact Egap|].
  split; [exact Eimg|exact E].
Defined.

(** From side 17 to side 24 the width int(0.08 * N) is 1, so the box of the
    first tooth runs from [N/2 - 1] to [N/2 - 2]: a Pillow that refuses
    such a box ends [create_icon] there, with ValueError. *)
Lemma narrow_teeth_are_refused (N : Z) :
  17 <= N <= 24 →
  create_icon (P := plain_pillow) (Z.to_nat N) N = Raise ValueError.
Proof.
  intros HN.
  assert (N = 17 ∨ N = 18 ∨ N = 19 ∨ N = 20 ∨ N = 21 ∨ N = 22 ∨ N = 23
          ∨ N = 24) as H by lia.
  repeat (destruct H as [->|H]; [vm_compute; reflexivity|]).
  subst N. vm_compute. reflexivity.
Qed.

(** C8, as stated, fails on the width of a tooth.  At side 1024 the
    measure int(0.08 * N) is 81, the loop draws six teeth, and the first
    one has the box [431, 388, 510, 428]: it spans 79 units, 80 pixel
    columns, not 81. *)
Lemma first_tooth_is_narrower :
  Py.scaled 1024 (Py.dec 8 100) = Ok 81
  ∧ (∃ bg,
       create_gradient (P := plain_pillow) 1024 color1 color2 = Ok bg
       ∧ create_icon (P := plain_pillow) 1024 1024
         = compose_icon (P := plain_pillow)
             (draw_all (P := plain_pillow) (teeth (1024 / 2) 81 40 61 388 6))
             1024 bg 512 51 81 122 256 25)
  ∧ ∃ b c, teeth (1024 / 2) 81 40 61 388 6 !! 0%nat = Some (b, c)
      ∧ b = (431, 388, 510, 428)
      ∧ extent_x b = 79 ∧ columns b = 80
      ∧ extent_x b ≠ 81 ∧ columns b ≠ 81.
Proof.
  split; [vm_compute; reflexivity|]. split.
  - destruct (GradientFacts.create_gradient_opaque (P := plain_pillow) 1024
                ltac:(lia) (room_for_1024 plain_pillow))
      as (bg & Ebg & _).
    exists bg. split; [exact Ebg|].
    rewrite (create_icon_composed 1024 1024 bg 512 51 81 40 61 122 256 25);
      [reflexivity|exact Ebg|vm_compute; reflexivity..|lia|lia|lia|lia|lia].
  - exists (431, 388, 510, 428), (102, 126, 234, 255).
    repeat split; try reflexivity; vm_compute; discriminate.
Qed.

(** * The Export Pipeline *)

(** ** The trace of a run *)

Lemma replay_app evs evs' fs : replay (evs ++ evs') fs = replay evs' (replay evs fs).
Proof. unfold replay. apply foldl_app. Qed.

Lemma last_saved_snoc path evs e :
  last_saved path (evs ++ [e])
  = match e with
    | Saved p f => if String.eqb p path then Some f else last_saved path evs
    | Printed _ => last_saved path evs
    end.
Proof. unfold last_saved. by rewrite foldl_app. Qed.

(** The file at a path after a trace: the last one saved there, or the one
    that was there before. *)
Lemma replay_lookup evs fs path :
  replay evs fs !! path
  = match last_saved path evs with Some f => Some f | None => fs !! path end.
Proof.
  induction evs as [|e evs IH] using rev_ind; [done|].
  rewrite replay_app, last_saved_snoc. destruct e as [p f|line]; simpl; [|done].
  destruct (String.eqb_spec p path) as [->|Hne].
  - by rewrite lookup_insert_eq.
  - by rewrite lookup_insert_ne.
Qed.

(** Replaying a trace over its own result changes nothing. *)
Lemma replay_idempotent evs fs : replay evs (replay evs fs) = replay evs fs.
Proof.
  apply map_eq. intros path. rewrite !replay_lookup.
  by destruct (last_saved path evs).
Qed.

Lemma append_at_manifest entries e :
  append_at "images" e (manifest_of entries) = manifest_of (entries ++ [e]).
Proof. reflexivity. Qed.

Section ExportFacts.
Context {P : Pillow}.

(** ** [resize] *)

Lemma resize_ok img a :
  0 < a → room_for a → resize img a a = Ok (Image a a (resample img a a)).
Proof.
  intros Ha [Hint Hmem]. unfold resize, fits_int, int_max. rewrite Hmem.
  assert (0 < 2 ^ 31) by reflexivity.
  destruct (Z.leb_spec (- 2 ^ 31) a); [|lia].
  destruct (Z.leb_spec a (2 ^ 31 - 1)); [|lia]. simpl.
  destruct (Z.leb_spec a 0); [lia|]. reflexivity.
Qed.

Lemma resize_inv img a icon :
  resize img a a = Ok icon →
  0 < a ∧ room_for a ∧ icon = Image a a (resample img a a).
Proof.
  unfold resize, fits_int, int_max.
  destruct (Z.leb_spec (- 2 ^ 31) a); [|discriminate].
  destruct (Z.leb_spec a (2 ^ 31 - 1)); [|discriminate]. simpl.
  destruct (Z.leb_spec a 0); [discriminate|]. simpl.
  destruct (fits_memory a a) eqn:Hmem; [|discriminate].
  intros [= <-]. split; [done|]. split; [|done]. split; [lia|done].
Qed.

(** A side below one is refused, and a side that does not fit a C [int]
    is an OverflowError before that. *)
Lemma resize_refused img a :
  - 2 ^ 31 <= a <= 0 → resize img a a = Raise ValueError.
Proof.
  intros Ha. unfold resize, fits_int, int_max.
  assert (0 < 2 ^ 31) by reflexivity.
  destruct (Z.leb_spec (- 2 ^ 31) a); [|lia].
  destruct (Z.leb_spec a (2 ^ 31 - 1)); [|lia]. simpl.
  destruct (Z.leb_spec a 0); [reflexivity|lia].
Qed.

Lemma resize_overflow img a :
  a < - 2 ^ 31 ∨ 2 ^ 31 <= a → resize img a a = Raise OverflowError.
Proof.
  intros Ha. unfold resize, fits_int, int_max.
  destruct (Z.leb_spec (- 2 ^ 31) a); [|reflexivity].
  destruct (Z.leb_spec a (2 ^ 31 - 1)); [lia|reflexivity].
Qed.

(** ** The export loop *)

Lemma export_output_sized os dir master spec a :
  actual_size spec.1 spec.2 = Ok a → 0 < a → room_for a →
  export_output os dir master spec
  = Ok (export_events os dir master a,
        manifest_entry (icon_filename a) spec.1 spec.2).
Proof.
  intros Ea Ha Hroom. unfold export_output. rewrite Ea, bind_Ok.
  by rewrite resize_ok.
Qed.

Lemma export_output_refused os dir master spec a :
  actual_size spec.1 spec.2 = Ok a → - 2 ^ 31 <= a <= 0 →
  export_output os dir master spec = Raise ValueError.
Proof.
  intros Ea Ha. unfold export_output. rewrite Ea, bind_Ok.
  by rewrite resize_refused.
Qed.

Lemma export_output_overflow os dir master spec a :
  actual_size spec.1 spec.2 = Ok a → a < - 2 ^ 31 ∨ 2 ^ 31 <= a →
  export_output os dir master spec = Raise OverflowError.
Proof.
  intros Ea Ha. unfold export_output. rewrite Ea, bind_Ok.
  by rewrite resize_overflow.
Qed.

Lemma exports_sized os dir master table pixel_sizes :
  sized table pixel_sizes →
  ∀ entries,
    exports os dir master table (manifest_of entries)
    = Ok (pixel_sizes ≫= export_events os dir master,
          manifest_of (entries ++ table_entries table pixel_sizes)).
Proof.
  induction 1 as [|spec a table pixel_sizes (Ea & Ha & Hr) _ IH]; intros entries.
  - cbn. by rewrite app_nil_r.
  - cbn [exports]. rewrite (export_output_sized _ _ _ _ a) by done.
    rewrite bind_Ok. cbn [fst snd]. rewrite append_at_manifest, IH, bind_Ok.
    cbn [fst snd]. unfold table_entries. cbn [zip_with].
    by rewrite <- app_assoc.
Qed.

(** The loop stops at the first spec whose export raises. *)
Lemma exports_stopped os dir master good pixel_sizes bad e rest :
  sized good pixel_sizes →
  export_output os dir master bad = Raise e →
  ∀ entries,
    exports os dir master (good ++ bad :: rest) (manifest_of entries)
    = Raise e.
Proof.
  intros Hgood Hbad.
  induction Hgood as [|spec b table sizes' (Eb & Hb & Hr) _ IH]; intros entries.
  - cbn [app exports]. by rewrite Hbad.
  - cbn [app exports]. rewrite (export_output_sized _ _ _ _ b) by done.
    rewrite bind_Ok. cbn [fst snd]. by rewrite append_at_manifest, IH.
Qed.

Lemma run_output_sized os dir master table pixel_sizes :
  sized table pixel_sizes →
  run_output os table dir master
  = Ok (table_output os dir master table pixel_sizes).
Proof.
  intros Hs. unfold run_output.
  change empty_contents with (manifest_of []).
  by rewrite (exports_sized _ _ _ _ _ Hs).
Qed.

Lemma sized_cons spec a table pixel_sizes :
  actual_size spec.1 spec.2 = Ok a → 0 < a <= 1024 →
  sized table pixel_sizes → sized (spec :: table) (a :: pixel_sizes).
Proof.
  intros Ea Ha Hs. constructor; [|exact Hs].
  split; [exact Ea|]. split; [lia|]. apply GradientFacts.room_for_small. lia.
Qed.

(** The pixel sizes of the reference table. *)
Lemma reference_sized : sized sizes reference_sizes.
Proof.
  unfold sizes, reference_sizes.
  repeat (apply sized_cons; [vm_compute; reflexivity|lia|]). constructor.
Qed.

Lemma export_one_output os dir master spec w contents :
  export_one os dir master spec (w, contents)
  = (r ← export_output os dir master spec;
     Ok (World (replay r.1 (files w)) (trace w ++ r.1),
         append_at "images" r.2 contents)).
Proof.
  destruct spec as [base_size scale]. unfold export_one, export_output.
  simpl. destruct (actual_size base_size scale) as [a| |]; simpl; [|done..].
  destruct (resize master a a) as [icon| |]; simpl; [|done..].
  unfold print, save. simpl. by rewrite <- app_assoc.
Qed.

Lemma export_loop os dir master table :
  ∀ w contents,
    for_each table (export_one os dir master) (w, contents)
    = (r ← exports os dir master table contents;
       Ok (World (replay r.1 (files w)) (trace w ++ r.1), r.2)).
Proof.
  induction table as [|spec table IH]; intros w contents.
  - simpl. rewrite app_nil_r. by destruct w.
  - cbn [for_each exports]. rewrite export_one_output.
    destruct (export_output os dir master spec) as [[evs e]| |]; simpl; [|done..].
    rewrite IH. simpl.
    destruct (exports os dir master table _) as [[evs' c']| |]; simpl; [|done..].
    by rewrite replay_app, app_assoc.
Qed.

(** A run is its master image, then the output computed from it. *)
Lemma main_with_output os table dir fuel w :
  main_with os table dir fuel w
  = (master ← create_icon fuel 1024;
     out ← run_output os table dir master;
     Ok (World (replay out (files w)) (trace w ++ out))).
Proof.
  unfold main_with, run_output.
  destruct (create_icon fuel 1024) as [master| |]; simpl; [|done..].
  rewrite export_loop.
  destruct (exports os dir master table empty_contents) as [[evs c]| |];
    simpl; [|done..].
  unfold print, save. simpl.
  by rewrite replay_app, <- !app_assoc.
Qed.

(** Every image a run saves is the master resized to a square. *)
Lemma exports_resized os dir master table :
  ∀ contents evs c,
    exports os dir master table contents = Ok (evs, c) →
    Forall (λ pi : string * image,
              ∃ a, 0 < a ∧ pi.2 = Image a a (resample master a a))
           (saved_images evs).
Proof.
  induction table as [|spec table IH]; intros contents evs c E.
  - injection E as <- <-. constructor.
  - cbn [exports] in E.
    apply bind_Ok_inv in E as ([evs1 e] & E1 & E).
    apply bind_Ok_inv in E as ([evs2 c2] & E2 & [= <- <-]).
    unfold saved_images. rewrite omap_app. apply Forall_app. split.
    + unfold export_output in E1.
      apply bind_Ok_inv in E1 as (a & _ & E1).
      apply bind_Ok_inv in E1 as (icon & Eicon & [= <- <-]).
      apply resize_inv in Eicon as (Ha & _ & ->).
      repeat constructor. exists a. done.
    + by eapply IH.
Qed.

(** What a run on the reference table writes and prints. *)
Lemma reference_run os master :
  run_output os sizes output_dir master = Ok (reference_output os master).
Proof.
  rewrite (run_output_sized _ _ _ _ _ reference_sized). reflexivity.
Qed.

Lemma master_1024 fuel :
  (1024 <= fuel)%nat →
  ∃ master, create_icon fuel 1024 = Ok master
            ∧ create_icon 1024 1024 = Ok master ∧ square 1024 master.
Proof.
  intros Hfuel.
  destruct (create_icon_returns 1024 fuel ltac:(left; lia)
              (room_for_1024 P) ltac:(lia))
    as [master E].
  exists master. split; [done|].
  destruct float_1024 as [f Hf].
  destruct (create_icon_halts 1024 f fuel ltac:(lia) Hf ltac:(lia)) as [_ Heq].
  change (Z.to_nat 1024) with 1024%nat in Heq.
  split; [congruence|]. by destruct (create_icon_painted _ _ _ E).
Qed.

(** A run of [main] with enough fuel returns, and all it does is append the
    reference output, computed from the one master image. *)
Lemma main_run os fuel w :
  (1024 <= fuel)%nat →
  ∃ master, create_icon 1024 1024 = Ok master ∧ square 1024 master
    ∧ main os fuel w
      = Ok (World (replay (reference_output os master) (files w))
                  (trace w ++ reference_output os master)).
Proof.
  intros Hfuel. destruct (master_1024 fuel Hfuel) as (master & E & E' & Hsq).
  exists master. split; [done|]. split; [done|].
  unfold main. rewrite main_with_output, E, bind_Ok, reference_run. done.
Qed.

End ExportFacts.

(** ** File names *)

Lemma free_of_x_app s t : free_of_x s → free_of_x t → free_of_x (s +:+ t).
Proof. induction s as [|c s IH]; simpl; [done|]. intros [??] ?. auto. Qed.

Lemma pretty_N_go_free_of_x n s : free_of_x s → free_of_x (pretty_N_go n s).
Proof.
  revert s. induction (N.lt_wf_0 n) as [n _ IH]; intros s Hs.
  assert (n = 0 ∨ 0 < n)%N as [->|Hn] by lia.
  - by rewrite pretty_N_go_0.
  - rewrite pretty_N_go_step by done. apply IH.
    { by apply N.div_lt. }
    split; [|done]. unfold pretty_N_char. by repeat case_match.
Qed.

(** The decimal form of an integer holds no letter x. *)
Lemma pretty_Z_free_of_x (z : Z) : free_of_x (pretty z).
Proof.
  destruct z as [|p|p]; unfold pretty, pretty_Z; simpl; [done| |].
  - unfold pretty, pretty_positive, pretty, pretty_N. case_decide; [done|].
    by apply pretty_N_go_free_of_x.
  - split; [done|].
    unfold pretty, pretty_positive, pretty, pretty_N. case_decide; [done|].
    by apply pretty_N_go_free_of_x.
Qed.

(** Two texts that agree up to and after their first x agree before it. *)
Lemma before_x_inj s1 s2 t1 t2 :
  free_of_x s1 → free_of_x s2 →
  s1 +:+ "x" +:+ t1 = s2 +:+ "x" +:+ t2 → s1 = s2.
Proof.
  revert s2. induction s1 as [|c s1 IH]; intros [|c' s2]; simpl.
  - done.
  - intros _ [Hc _] [= <- _]. done.
  - intros [Hc _] _ [= -> _]. done.
  - intros [_ H1] [_ H2] [= -> E]. f_equal. by apply IH.
Qed.

(** The file name tells the pixel size. *)
Lemma icon_filename_inj a b : icon_filename a = icon_filename b → a = b.
Proof.
  unfold icon_filename. intros E. simpl in E.
  injection E as E.
  apply before_x_inj in E; [|apply pretty_Z_free_of_x..].
  by apply (inj pretty).
Qed.

(** ** The claims on the pipeline *)

Lemma saved_has_last path f evs :
  Saved path f ∈ evs → is_Some (last_saved path evs).
Proof.
  induction evs as [|e evs IH] using rev_ind; [by intros ?%elem_of_nil|].
  rewrite last_saved_snoc. intros [H|H%list_elem_of_singleton]%elem_of_app.
  - destruct e as [p g|]; [|by apply IH].
    destruct (String.eqb p path); [done|by apply IH].
  - subst e. by rewrite String.eqb_refl.
Qed.

Section Pipeline.
Context (P : Pillow).

Lemma reference_saved os master :
  saved_images (reference_output os master)
  = (λ a, (path_join os output_dir (icon_filename a),
           Image a a (resample master a a))) <$> reference_sizes.
Proof. destruct os; vm_compute; reflexivity. Qed.

(** C1: for every Size Spec of the size table, in order, a run saves
    exactly one image; it is round(logical * scale) pixels wide and high, it
    is saved under icon_{W}x{W}.png in the output directory, W being that
    pixel size, and it is what the file holds when the run is over. *)
Theorem export_saves_each_size (os : platform) (fuel : nat) (w : world) :
  (1024 <= fuel)%nat →
  ∃ w', main os fuel w = Ok w'
    ∧ Forall2 (λ (spec : Py.number * Z) (saved : string * image),
                 let W := rounded_size spec in
                 saved.1 = path_join os output_dir
                             ("icon_" +:+ pretty W +:+ "x" +:+ pretty W
                              +:+ ".png")
                 ∧ width saved.2 = W ∧ height saved.2 = W
                 ∧ files w' !! saved.1 = Some (Png saved.2))
              sizes
              (saved_images (drop (length (trace w)) (trace w'))).
Proof.
  intros Hfuel. destruct (main_run os fuel w Hfuel) as (master & _ & _ & E).
  eexists. split; [exact E|]. cbn [trace files].
  rewrite drop_app_length.
  eapply Forall2_impl with
    (P := λ (spec : Py.number * Z) (saved : string * image),
            (saved.1 = path_join os output_dir
                         (icon_filename (rounded_size spec))
             ∧ width saved.2 = rounded_size spec
             ∧ height saved.2 = rounded_size spec)
            ∧ last_saved saved.1 (reference_output os master)
              = Some (Png saved.2)).
  - rewrite reference_saved. apply Forall2_fmap_r.
    destruct os;
      repeat (constructor;
              [split; [split; [f_equal; vm_compute; reflexivity
                              |split; vm_compute; reflexivity]
                      |vm_compute; reflexivity]|]);
      constructor.
  - intros spec saved [H1 H2]. cbv zeta. split; [apply H1|].
    split; [apply H1|]. split; [apply H1|].
    by rewrite replay_lookup, H2.
Qed.

Lemma reference_manifest_saved os master :
  last_saved (path_join os output_dir "Contents.json") (reference_output os master)
  = Some (Text (text_bytes os (dump reference_manifest))).
Proof. destruct os; vm_compute; reflexivity. Qed.

Lemma reference_manifest_text os :
  text_bytes os (dump reference_manifest)
  = join (eol os) (manifest_lines reference_rows).
Proof. destruct os; vm_compute; reflexivity. Qed.

(** C3: after a run on the reference size table the manifest holds the
    fixed info record {author: "xcode", version: 1} and an images array of
    15 entries, one per Size Spec and in the order of the table, each made
    of that spec's file name, its idiom, its scale as "<int>x" and its size
    as "<logical>x<logical>".  This is the value the export loop leaves and
    [main] passes to [json.dump], and [Contents.json] holds its text: the
    98 lines written out by [manifest_lines], the six lines of each entry
    between the opening of the images list and the info record, separated
    by the platform's line break. *)
Theorem manifest_lists_each_size (os : platform) (fuel : nat) (w : world) :
  (1024 <= fuel)%nat →
  ∃ w' master evs,
    main os fuel w = Ok w'
    ∧ create_icon fuel 1024 = Ok master
    ∧ exports os output_dir master sizes empty_contents
      = Ok (evs, reference_manifest)
    ∧ reference_manifest
      = JDict [ ("images", JList reference_images);
                ("info", JDict [ ("author", JStr "xcode");
                                 ("version", JInt 1) ]) ]
    ∧ files w' !! path_join os output_dir "Contents.json"
      = Some (Text (text_bytes os (dump reference_manifest)))
    ∧ text_bytes os (dump reference_manifest)
      = join (eol os) (manifest_lines reference_rows)
    ∧ length (manifest_lines reference_rows) = 98%nat
    ∧ reference_images = row_entry <$> reference_rows
    ∧ dict_get "images" reference_manifest = Some (JList reference_images)
    ∧ dict_get "info" reference_manifest
      = Some (JDict [ ("author", JStr "xcode"); ("version", JInt 1) ])
    ∧ length reference_images = 15%nat
    ∧ Forall2 (λ (spec : Py.number * Z) (r : row),
                 ∃ a, actual_size spec.1 spec.2 = Ok a
                   ∧ r = (icon_filename a, idiom_of spec.1,
                          pretty spec.2 +:+ "x",
                          Py.str spec.1 +:+ "x" +:+ Py.str spec.1))
              sizes reference_rows
    ∧ Forall2 (λ (spec : Py.number * Z) (e : json),
                 ∃ a, actual_size spec.1 spec.2 = Ok a
                   ∧ e = JDict
                       [ ("filename", JStr (icon_filename a));
                         ("idiom", JStr (idiom_of spec.1));
                         ("scale", JStr (pretty spec.2 +:+ "x"));
                         ("size", JStr (Py.str spec.1 +:+ "x"
                                        +:+ Py.str spec.1)) ])
              sizes reference_images.
Proof.
  intros Hfuel. destruct (master_1024 fuel Hfuel) as (master & Em & _ & _).
  eexists _, master, _. split.
  { unfold main. rewrite main_with_output, Em, bind_Ok, reference_run.
    reflexivity. }
  split; [exact Em|]. clear Em. split.
  { change empty_contents with (manifest_of []).
    rewrite (exports_sized _ _ _ _ _ reference_sized). reflexivity. }
  split; [reflexivity|]. cbn [files]. split.
  { by rewrite replay_lookup, reference_manifest_saved. }
  split; [apply reference_manifest_text|].
  split; [reflexivity|]. split; [reflexivity|].
  split; [reflexivity|]. split; [reflexivity|]. split; [reflexivity|]. split.
  - repeat (constructor;
            [eexists; split; [vm_compute; reflexivity|vm_compute; reflexivity]|]).
    constructor.
  - repeat (constructor;
            [eexists; split; [vm_compute; reflexivity|vm_compute; reflexivity]|]).
    constructor.
Qed.

(** C4 (amended): a run renders the master canvas once, at the side 1024
    written in the script, whatever the size table and the output
    directory: every image it saves is that one canvas resized.  The side
    1024 is the largest pixel size of the reference size table. *)
Theorem master_rendered_once (os : platform) (fuel : nat) :
  (1024 <= fuel)%nat →
  ∃ master,
    create_icon fuel 1024 = Ok master ∧ square 1024 master
    ∧ max_size sizes = 1024
    ∧ ∀ table dir w,
        main_with os table dir fuel w
        = (out ← run_output os table dir master;
           Ok (World (replay out (files w)) (trace w ++ out)))
        ∧ ∀ out, run_output os table dir master = Ok out →
            Forall (λ saved : string * image,
                      ∃ a, 0 < a
                           ∧ saved.2 = Image a a (resample master a a))
                   (saved_images out).
Proof.
  intros Hfuel. destruct (master_1024 fuel Hfuel) as (master & E & _ & Hsq).
  exists master. split; [done|]. split; [done|].
  split; [vm_compute; reflexivity|].
  intros table dir w. split.
  - by rewrite main_with_output, E, bind_Ok.
  - intros out Eout. unfold run_output in Eout.
    apply bind_Ok_inv in Eout as ([evs c] & Eex & [= <-]).
    unfold saved_images. rewrite omap_app. apply Forall_app. split.
    + by eapply exports_resized.
    + simpl. constructor.
Qed.

(** C9: two runs, whatever was on disk or printed before each and whatever
    fuel each is given, append the same trace: the same files with the same
    pixels and the same bytes under the same paths, and the same lines.
    Every file written holds the same in both worlds afterwards, and a
    second run over the result of the first leaves every file as it is. *)
Theorem runs_are_identical (os : platform) (fuel1 fuel2 : nat) (w1 w2 : world) :
  (1024 <= fuel1)%nat → (1024 <= fuel2)%nat →
  ∃ r1 r2 r1',
    main os fuel1 w1 = Ok r1 ∧ main os fuel2 w2 = Ok r2
    ∧ drop (length (trace w1)) (trace r1) = drop (length (trace w2)) (trace r2)
    ∧ (∀ path f, Saved path f ∈ drop (length (trace w1)) (trace r1) →
                 files r1 !! path = files r2 !! path)
    ∧ main os fuel2 r1 = Ok r1' ∧ files r1' = files r1.
Proof.
  intros H1 H2.
  destruct (main_run os fuel1 w1 H1) as (m1 & Em1 & _ & E1).
  destruct (main_run os fuel2 w2 H2) as (m2 & Em2 & _ & E2).
  assert (m2 = m1) as -> by congruence.
  set (out := reference_output os m1) in *.
  destruct (main_run os fuel2 (World (replay out (files w1)) (trace w1 ++ out)) H2)
    as (m3 & Em3 & _ & E3).
  assert (m3 = m1) as -> by congruence. fold out in E3.
  eexists _, _, _. split; [exact E1|]. split; [exact E2|]. cbn [trace files].
  rewrite !drop_app_length. split; [done|]. split.
  - intros path f Hin. rewrite !replay_lookup.
    by destruct (saved_has_last path f out Hin) as [g ->].
  - split; [exact E3|]. cbn [files]. apply replay_idempotent.
Qed.

Lemma reference_printed os master :
  printed_lines (reference_output os master)
  = ((λ name, "Created: " +:+ name) <$> reference_names)
    ++ ["Created: Contents.json"].
Proof. destruct os; vm_compute; reflexivity. Qed.

(** X2: a run prints one line "Created: <filename>" for each image it
    saves, in the order of the size table, and "Created: Contents.json"
    at the end. *)
Theorem run_reports_each_file (os : platform) (fuel : nat) (w : world) :
  (1024 <= fuel)%nat →
  ∃ w', main os fuel w = Ok w'
    ∧ printed_lines (drop (length (trace w)) (trace w'))
      = ((λ name, "Created: " +:+ name) <$> reference_names)
        ++ ["Created: Contents.json"].
Proof.
  intros Hfuel. destruct (main_run os fuel w Hfuel) as (master & _ & _ & E).
  eexists. split; [exact E|]. cbn [trace].
  by rewrite drop_app_length, reference_printed.
Qed.

End Pipeline.

Lemma export_saves_each_size_fresh :
  ∃ w', main (P := plain_pillow) Windows 1024 fresh = Ok w'
        ∧ length (saved_images (trace w')) = 15%nat.
Proof.
  destruct (export_saves_each_size plain_pillow Windows 1024 fresh ltac:(lia))
    as (w' & E & H).
  exists w'. split; [exact E|]. symmetry. exact (Forall2_length _ _ _ H).
Defined.

Lemma run_reports_each_file_fresh :
  ∃ w', main (P := plain_pillow) Posix 1024 fresh = Ok w'
        ∧ length (printed_lines (trace w')) = 16%nat.
Proof.
  destruct (run_reports_each_file plain_pillow Posix 1024 fresh ltac:(lia))
    as (w' & E & H).
  exists w'. split; [exact E|].
  change (trace w') with (drop (length (trace fresh)) (trace w')).
  rewrite H. reflexivity.
Defined.

Lemma manifest_lists_each_size_fresh :
  ∃ w', main (P := plain_pillow) Windows 1024 fresh = Ok w'
    ∧ files w' !! path_join Windows output_dir "Contents.json"
      = Some (Text (join (eol Windows) (manifest_lines reference_rows))).
Proof.
  destruct (manifest_lists_each_size plain_pillow Windows 1024 fresh ltac:(lia))
    as (w' & master & evs & E & _ & _ & _ & H & Htext & _).
  exists w'. split; [exact E|]. rewrite <- Htext. exact H.
Defined.

Lemma master_rendered_once_plain :
  ∃ master, create_icon (P := plain_pillow) 1024 1024 = Ok master
            ∧ square 1024 master ∧ max_size sizes = 1024.
Proof.
  destruct (master_rendered_once plain_pillow Posix 1024 ltac:(lia))
    as (master & E & Hsq & Hmax & _).
  exists master. auto.
Defined.

Lemma runs_are_identical_twice :
  ∃ r1 r2,
    main (P := plain_pillow) Posix 1024 fresh = Ok r1
    ∧ main (P := plain_pillow) Posix 2048
           (World {[ "notes.txt" := Text "kept" ]} [Printed "before"]) = Ok r2
    ∧ trace r1 = drop 1 (trace r2).
Proof.
  destruct (runs_are_identical plain_pillow Posix 1024 2048 fresh
              (World {[ "notes.txt" := Text "kept" ]} [Printed "before"])
              ltac:(lia) ltac:(lia))
    as (r1 & r2 & r1' & E1 & E2 & Ht & _).
  exists r1, r2. split; [exact E1|]. split; [exact E2|exact Ht].
Defined.

(** C4, as stated, fails: the side of the master is not computed from the
    size table.  For a table whose only size is 2048 the master is still
    rendered at side 1024, and the image saved is that canvas resized up to
    2048 pixels. *)
Lemma master_side_ignores_table :
  max_size [(Py.Int 2048, 1)] = 2048
  ∧ ∃ master w',
      create_icon (P := plain_pillow) 1024 1024 = Ok master
      ∧ square 1024 master
      ∧ main_with (P := plain_pillow) Posix [(Py.Int 2048, 1)] "out" 1024 fresh
        = Ok w'
      ∧ saved_images (trace w')
        = [ ("out/icon_2048x2048.png",
             Image 2048 2048 (nearest master 2048 2048)) ].
Proof.
  split; [vm_compute; reflexivity|].
  destruct (master_1024 (P := plain_pillow) 1024 ltac:(lia))
    as (master & E & _ & Hsq).
  exists master. eexists. split; [exact E|]. split; [exact Hsq|].
  rewrite main_with_output, E, bind_Ok. split; [vm_compute; reflexivity|].
  vm_compute. reflexivity.
Qed.

(** ** File names (C5) *)

(** C5, as stated, fails: the file names of the reference size table are
    not pairwise distinct.  The specs (20, 2) and (40, 1), second and
    seventh of the table, both give icon_40x40.png. *)
Lemma reference_names_collide :
  ¬ NoDup (table_filenames sizes).
Proof.
  intros H.
  assert (E1 : table_filenames sizes !! 1%nat = Some (Ok "icon_40x40.png"))
    by (vm_compute; reflexivity).
  assert (E2 : table_filenames sizes !! 6%nat = Some (Ok "icon_40x40.png"))
    by (vm_compute; reflexivity).
  pose proof (NoDup_lookup _ _ _ _ H E1 E2). discriminate.
Qed.

(** C5 (amended): a file name is derived from the pixel size alone, and two
    sizes give the same name only when they are equal.  In the reference
    size table the sizes 40 and 120 each come twice, (20, 2) with (40, 1)
    and (40, 3) with (60, 2); the 13 other names are distinct. *)
Theorem names_follow_pixel_size :
  (∀ a b, icon_filename a = icon_filename b ↔ a = b)
  ∧ table_filenames sizes = Ok <$> reference_names
  ∧ reference_names = icon_filename <$> reference_sizes
  ∧ reference_names !! 1%nat = reference_names !! 6%nat
  ∧ reference_names !! 8%nat = reference_names !! 9%nat
  ∧ NoDup (delete 6%nat (delete 9%nat reference_names)).
Proof.
  split; [|split; [|split; [|split; [|split]]]].
  - intros a b. split; [apply icon_filename_inj|by intros ->].
  - vm_compute. reflexivity.
  - vm_compute. reflexivity.
  - reflexivity.
  - reflexivity.
  - apply (bool_decide_unpack (NoDup _)). vm_compute. exact I.
Qed.

(** ** Idioms (C6) *)

(** C6: the idiom of a manifest entry depends on the logical size alone:
    "ios-marketing" for 1024, before any other rule; "iphone" for 20, 29,
    40 and 60; "ipad" for every other size.  So 20 gives "iphone", 76 gives
    "ipad" and 1024 gives "ios-marketing". *)
Theorem idiom_by_logical_size (base_size : Py.number) (scale : Z)
    (filename : string) :
  dict_get "idiom" (manifest_entry filename base_size scale)
  = Some (JStr (idiom_of base_size))
  ∧ idiom_of base_size
    = (if Qeq_bool (Py.value base_size) 1024 then "ios-marketing"
       else if Qeq_bool (Py.value base_size) 20
               || Qeq_bool (Py.value base_size) 29
               || Qeq_bool (Py.value base_size) 40
               || Qeq_bool (Py.value base_size) 60
            then "iphone" else "ipad")
  ∧ (∀ other, (Py.value other == Py.value base_size)%Q →
              idiom_of other = idiom_of base_size)
  ∧ idiom_of (Py.Int 20) = "iphone" ∧ idiom_of (Py.Int 29) = "iphone"
  ∧ idiom_of (Py.Int 40) = "iphone" ∧ idiom_of (Py.Int 60) = "iphone"
  ∧ idiom_of (Py.Int 76) = "ipad"
  ∧ idiom_of (Py.Float (Py.dec 835 10)) = "ipad"
  ∧ idiom_of (Py.Int 1024) = "ios-marketing".
Proof.
  split; [reflexivity|]. split.
  { unfold idiom_of, Py.member, Py.eqb. simpl.
    change (inject_Z 1024) with 1024%Q. change (inject_Z 20) with 20%Q.
    change (inject_Z 29) with 29%Q. change (inject_Z 40) with 40%Q.
    change (inject_Z 60) with 60%Q.
    destruct (Qeq_bool (Py.value base_size) 1024); [done|].
    by rewrite orb_false_r, !orb_assoc. }
  split; [|repeat split; vm_compute; reflexivity].
  intros other Heq. unfold idiom_of, Py.member, Py.eqb. simpl.
  assert (R : ∀ q, Qeq_bool (Py.value other) q = Qeq_bool (Py.value base_size) q).
  { intros q. destruct (Qeq_bool (Py.value base_size) q) eqn:E.
    - apply Qeq_bool_iff. apply Qeq_bool_iff in E. by rewrite Heq.
    - apply not_true_is_false. intros E'. apply Qeq_bool_iff in E'.
      rewrite Heq in E'. apply Qeq_bool_iff in E'. congruence. }
  by rewrite !R.
Qed.

(** * Further properties of the script *)

(** ** Rounding keeps the order *)

Module RoundingOrder.
Import Py PyFacts.
Local Open Scope Q_scope.

Lemma rne_cases t : rne t = Qfloor t ∨ rne t = (Qfloor t + 1)%Z.
Proof.
  unfold rne. destruct (Qcompare _ _); [destruct (Z.even _)|..]; auto.
Qed.

Lemma rne_int m : rne (inject_Z m) = m.
Proof.
  unfold rne. rewrite Qfloor_Z.
  assert (Qcompare (inject_Z m - inject_Z m) (1 # 2) = Lt) as ->; [|done].
  rewrite <- Qlt_alt. lra.
Qed.

Lemma rne_comp t t' : t == t' → rne t = rne t'.
Proof.
  intros E. assert (H1 : Qfloor t = Qfloor t') by (by apply Qfloor_comp).
  unfold rne. rewrite H1.
  assert (Qcompare (t - inject_Z (Qfloor t')) (1 # 2)
          = Qcompare (t' - inject_Z (Qfloor t')) (1 # 2)) as ->; [|done].
  apply Qcompare_comp; [by rewrite E|reflexivity].
Qed.

Lemma rne_mono t t' : t <= t' → (rne t <= rne t')%Z.
Proof.
  intros Hle. pose proof (Qfloor_resp_le _ _ Hle) as Hf.
  destruct (Z.eq_dec (Qfloor t) (Qfloor t')) as [E|E].
  - unfold rne. rewrite E. set (f := Qfloor t').
    destruct (Qcompare_spec (t - inject_Z f) (1 # 2)) as [H|H|H],
             (Qcompare_spec (t' - inject_Z f) (1 # 2)) as [H'|H'|H'];
      try (destruct (Z.even f); lia); exfalso; lra.
  - destruct (rne_cases t) as [->| ->], (rne_cases t') as [->| ->]; lia.
Qed.

Lemma ilog2_mono x y : 0 < x → x <= y → (ilog2 x <= ilog2 y)%Z.
Proof.
  intros Hx Hxy. destruct (Z.le_gt_cases (ilog2 x) (ilog2 y)) as [|Hgt]; [done|].
  pose proof (pow2_le (ilog2 y + 1) (ilog2 x) ltac:(lia)).
  pose proof (ilog2_lower x Hx). pose proof (ilog2_upper y ltac:(lra)). lra.
Qed.

(** A power of two that is not below the last place of [x] is a float:
    rounding [x] does not cross it. *)
Lemma round_pos_le_pow2 x e :
  0 < x → (ulp_exp x <= e)%Z → x <= pow2 e → round_pos x <= pow2 e.
Proof.
  intros Hx He H. pose proof (pow2_pos (ulp_exp x)) as Hk.
  rewrite round_pos_eq.
  assert (Hs : pow2 e == inject_Z (2 ^ (e - ulp_exp x)) * pow2 (ulp_exp x)).
  { rewrite <- pow2_Z by lia. rewrite <- pow2_add. by replace (e - ulp_exp x + ulp_exp x)%Z with e by lia. }
  rewrite Hs. apply Qmult_le_compat_r; [|lra].
  rewrite <- Zle_Qle. rewrite <- (rne_int (2 ^ (e - ulp_exp x))).
  apply rne_mono. apply Qle_shift_div_r; [done|]. by rewrite <- Hs.
Qed.

Lemma round_pos_ge_pow2 x e :
  0 < x → (ulp_exp x <= e)%Z → pow2 e <= x → pow2 e <= round_pos x.
Proof.
  intros Hx He H. pose proof (pow2_pos (ulp_exp x)) as Hk.
  rewrite round_pos_eq.
  assert (Hs : pow2 e == inject_Z (2 ^ (e - ulp_exp x)) * pow2 (ulp_exp x)).
  { rewrite <- pow2_Z by lia. rewrite <- pow2_add. by replace (e - ulp_exp x + ulp_exp x)%Z with e by lia. }
  rewrite Hs. apply Qmult_le_compat_r; [|lra].
  rewrite <- Zle_Qle. rewrite <- (rne_int (2 ^ (e - ulp_exp x))).
  apply rne_mono. apply Qle_shift_div_l; [done|]. by rewrite <- Hs.
Qed.

Lemma round_pos_mono x y : 0 < x → x <= y → round_pos x <= round_pos y.
Proof.
  intros Hx Hxy. assert (Hy : 0 < y) by lra.
  pose proof (ilog2_mono x y Hx Hxy) as Hl.
  destruct (Z.eq_dec (ulp_exp x) (ulp_exp y)) as [E|E].
  - rewrite !round_pos_eq, E. pose proof (pow2_pos (ulp_exp y)) as Hk.
    apply Qmult_le_compat_r; [|lra]. rewrite <- Zle_Qle. apply rne_mono.
    apply Qmult_le_compat_r; [done|]. apply Qlt_le_weak, Qinv_lt_0_compat. done.
  - assert (Hlt : (ilog2 x + 1 <= ilog2 y)%Z ∧ (ulp_exp x <= ilog2 y)%Z
                  ∧ (ulp_exp y <= ilog2 y)%Z).
    { unfold ulp_exp in *. lia. }
    destruct Hlt as (H1 & H2 & H3).
    apply Qle_trans with (pow2 (ilog2 y)).
    + apply round_pos_le_pow2; [done..|].
      pose proof (ilog2_upper x Hx). pose proof (pow2_le _ _ H1). lra.
    + apply round_pos_ge_pow2; [done..|]. by apply ilog2_lower.
Qed.

(** Rounding to binary64 keeps the order. *)
Lemma rn_mono x y : x <= y → rn x <= rn y.
Proof.
  intros Hxy. unfold rn.
  destruct (Qcompare_spec x 0) as [Hx|Hx|Hx],
           (Qcompare_spec y 0) as [Hy|Hy|Hy]; try (exfalso; lra).
  - lra.
  - apply round_pos_nonneg. lra.
  - pose proof (round_pos_nonneg (- x) ltac:(lra)). lra.
  - pose proof (round_pos_mono (- y) (- x) ltac:(lra) ltac:(lra)). lra.
  - pose proof (round_pos_nonneg (- x) ltac:(lra)).
    pose proof (round_pos_nonneg y ltac:(lra)). lra.
  - by apply round_pos_mono.
Qed.

Lemma int_of_float_mono a b : a <= b → (int_of_float a <= int_of_float b)%Z.
Proof.
  intros Hab. unfold int_of_float.
  destruct (Qle_bool 0 a) eqn:Ea, (Qle_bool 0 b) eqn:Eb.
  - by apply Qfloor_resp_le.
  - apply Qle_bool_iff in Ea. assert (¬ 0 <= b) by (rewrite <- Qle_bool_iff; congruence). lra.
  - assert (Ha : ¬ 0 <= a) by (rewrite <- Qle_bool_iff; congruence).
    apply Qle_bool_iff in Eb.
    pose proof (Qceiling_resp_le a 0 ltac:(lra)) as H1.
    pose proof (Qfloor_resp_le 0 b Eb) as H2.
    change (Qceiling 0) with 0%Z in H1. change (Qfloor 0) with 0%Z in H2. lia.
  - by apply Qceiling_resp_le.
Qed.

End RoundingOrder.

(** ** The gradient along the diagonal *)

Module GradientOrder.
Import Py PyFacts RoundingOrder.

Lemma rn_of_ends : rn 0 = 0%Q ∧ rn 1 = 1%Q.
Proof. vm_compute. done. Qed.

Lemma channels_at_ends :
  red_of 0 = 102 ∧ red_of 1 = 118 ∧ green_of 0 = 126 ∧ green_of 1 = 75
  ∧ blue_of 0 = 234 ∧ blue_of 1 = 162.
Proof. vm_compute. repeat split. Qed.

Lemma gradient_ratio_mono size x y x' y' :
  0 < size → x + y <= x' + y' →
  (gradient_ratio size x y <= gradient_ratio size x' y')%Q.
Proof.
  intros Hs Hle. unfold gradient_ratio. apply rn_mono. unfold Qdiv.
  apply Qmult_le_compat_r; [by rewrite <- Zle_Qle|].
  apply Qlt_le_weak, Qinv_lt_0_compat.
  change 0%Q with (inject_Z 0). rewrite <- Zlt_Qlt. lia.
Qed.

Lemma gradient_ratio_unit size x y :
  0 <= x < size → 0 <= y < size →
  (0 <= gradient_ratio size x y ∧ gradient_ratio size x y <= 1)%Q.
Proof.
  intros Hx Hy. unfold gradient_ratio.
  destruct (GradientFacts.Qdiv_unit_interval (x + y) (2 * size)) as [H0 H1];
    [lia..|].
  destruct rn_of_ends as [E0 E1]. split.
  - rewrite <- E0. by apply rn_mono.
  - rewrite <- E1. apply rn_mono. lra.
Qed.

Lemma red_of_mono r r' : (r <= r')%Q → red_of r <= red_of r'.
Proof.
  intros H. unfold red_of. apply int_of_float_mono, rn_mono.
  pose proof (rn_mono (16 * r) (16 * r') ltac:(lra)). lra.
Qed.

Lemma green_of_mono r r' : (r <= r')%Q → green_of r' <= green_of r.
Proof.
  intros H. unfold green_of. apply int_of_float_mono, rn_mono.
  pose proof (rn_mono (-51 * r') (-51 * r) ltac:(lra)). lra.
Qed.

Lemma blue_of_mono r r' : (r <= r')%Q → blue_of r' <= blue_of r.
Proof.
  intros H. unfold blue_of. apply int_of_float_mono, rn_mono.
  pose proof (rn_mono (-72 * r') (-72 * r) ltac:(lra)). lra.
Qed.

Lemma channels_in_range r :
  (0 <= r)%Q → (r <= 1)%Q →
  102 <= red_of r <= 118 ∧ 75 <= green_of r <= 126 ∧ 162 <= blue_of r <= 234.
Proof.
  intros H0 H1.
  destruct channels_at_ends as (R0 & R1 & G0 & G1 & B0 & B1).
  pose proof (red_of_mono 0 r H0). pose proof (red_of_mono r 1 H1).
  pose proof (green_of_mono 0 r H0). pose proof (green_of_mono r 1 H1).
  pose proof (blue_of_mono 0 r H0). pose proof (blue_of_mono r 1 H1).
  lia.
Qed.

Lemma gradient_pixel_channels size x y :
  0 <= x < size → 0 <= y < size →
  let r := gradient_ratio size x y in
  gradient_pixel size x y = RGBA (red_of r) (green_of r) (blue_of r) 255.
Proof.
  intros Hx Hy r. subst r.
  destruct (gradient_ratio_unit size x y Hx Hy) as [H0 H1].
  destruct (channels_in_range _ H0 H1) as (Hr & Hg & Hb).
  unfold gradient_pixel, ink. by rewrite !clip8_id by lia.
Qed.

End GradientOrder.

(** X3: the gradient runs along the diagonal.  For a side N > 0 that
    Pillow and the machine take, the pixels of one anti-diagonal, those
    with the same [x + y], are equal; towards the bottom right, as [x + y]
    grows, red never decreases and green and blue never increase. *)
Theorem gradient_runs_along_diagonal (P : Pillow) (N : Z) :
  0 < N → room_for N →
  ∃ img, create_gradient N color1 color2 = Ok img
    ∧ ∀ x y x' y',
        0 <= x < N → 0 <= y < N → 0 <= x' < N → 0 <= y' < N →
        ∃ p p', getpixel img x y = Some p ∧ getpixel img x' y' = Some p'
          ∧ (x + y = x' + y' → p = p')
          ∧ (x + y <= x' + y' →
             red p <= red p' ∧ green p' <= green p ∧ blue p' <= blue p).
Proof.
  intros HN Hroom.
  destruct (GradientFacts.create_gradient_spec N ltac:(lia) Hroom)
    as (img & E & [Hw Hh] & Hpix).
  exists img. split; [exact E|]. intros x y x' y' Hx Hy Hx' Hy'.
  exists (gradient_pixel N x y), (gradient_pixel N x' y').
  unfold getpixel.
  assert (inside img x y = true) as -> by (apply inside_iff; lia).
  assert (inside img x' y' = true) as -> by (apply inside_iff; lia).
  rewrite !Hpix by done. split; [done|]. split; [done|]. split.
  - intros Heq. unfold gradient_pixel, gradient_ratio. by rewrite Heq.
  - intros Hle. rewrite !GradientOrder.gradient_pixel_channels by done.
    pose proof (GradientOrder.gradient_ratio_mono N x y x' y' HN Hle) as Hr.
    cbn [red green blue]. split; [|split].
    + by apply GradientOrder.red_of_mono.
    + by apply GradientOrder.green_of_mono.
    + by apply GradientOrder.blue_of_mono.
Qed.

Lemma gradient_runs_along_diagonal_4 :
  ∃ img, create_gradient (P := plain_pillow) 4 color1 color2 = Ok img
         ∧ getpixel img 1 2 = getpixel img 3 0.
Proof.
  destruct (gradient_runs_along_diagonal plain_pillow 4 ltac:(lia)
              (GradientFacts.room_for_small 4 ltac:(lia)))
    as (img & E & H).
  destruct (H 1 2 3 0 ltac:(lia) ltac:(lia) ltac:(lia) ltac:(lia))
    as (p & p' & E1 & E2 & Heq & _).
  exists img. split; [exact E|]. rewrite E1, E2. f_equal. apply Heq. reflexivity.
Defined.

(** X4: the gradient never leaves the range between its two colours: for
    a side N > 0 that Pillow and the machine take, at every pixel red is
    from 102 to 118, green from 75 to 126, blue from 162 to 234, and alpha
    is 255. *)
Theorem gradient_stays_between_colours (P : Pillow) (N : Z) :
  0 < N → room_for N →
  ∃ img, create_gradient N color1 color2 = Ok img
    ∧ ∀ x y, 0 <= x < N → 0 <= y < N →
        ∃ p, getpixel img x y = Some p
          ∧ 102 <= red p <= 118 ∧ 75 <= green p <= 126
          ∧ 162 <= blue p <= 234 ∧ alpha p = 255.
Proof.
  intros HN Hroom.
  destruct (GradientFacts.create_gradient_spec N ltac:(lia) Hroom)
    as (img & E & [Hw Hh] & Hpix).
  exists img. split; [exact E|]. intros x y Hx Hy.
  exists (gradient_pixel N x y). unfold getpixel.
  assert (inside img x y = true) as -> by (apply inside_iff; lia).
  rewrite Hpix by done. split; [done|].
  rewrite GradientOrder.gradient_pixel_channels by done.
  destruct (GradientOrder.gradient_ratio_unit N x y Hx Hy) as [H0 H1].
  destruct (GradientOrder.channels_in_range _ H0 H1) as (Hr & Hg & Hb).
  cbn [red green blue alpha]. done.
Qed.

Lemma gradient_stays_between_colours_3 :
  ∃ img p, create_gradient (P := plain_pillow) 3 color1 color2 = Ok img
           ∧ getpixel img 2 1 = Some p ∧ 102 <= red p <= 118.
Proof.
  destruct (gradient_stays_between_colours plain_pillow 3 ltac:(lia)
              (GradientFacts.room_for_small 3 ltac:(lia)))
    as (img & E & H).
  destruct (H 2 1 ltac:(lia) ltac:(lia)) as (p & Hp & Hr & _).
  exists img, p. split; [exact E|]. split; [exact Hp|exact Hr].
Defined.

(** ** [draw_rounded_rect] *)

Lemma well_ordered_iff x0 y0 x1 y1 :
  well_ordered (x0, y0, x1, y1) = true ↔ x0 <= x1 ∧ y0 <= y1.
Proof. unfold well_ordered. rewrite andb_true_iff, !Z.leb_le. done. Qed.

Lemma rect_mask_iff x0 y0 x1 y1 x y :
  rect_mask (x0, y0, x1, y1) x y = true ↔ x0 <= x <= x1 ∧ y0 <= y <= y1.
Proof. unfold rect_mask. rewrite !andb_true_iff, !Z.leb_le. lia. Qed.

Lemma plain_pillow_strict : strict plain_pillow.
Proof. by intros s b. Qed.

Section RoundedRect.
Context {P : Pillow}.

Lemma draw_shape_strict s img b c :
  strict P →
  draw_shape s img b c
  = if well_ordered b then Ok (paint img (shape_mask s b) (ink c))
    else Raise ValueError.
Proof. intros HS. unfold draw_shape. by rewrite HS. Qed.

Lemma draw_rounded_rect_ok img x1 y1 x2 y2 r fill :
  fits_corners (x1, y1, x2, y2) r →
  draw_rounded_rect img (x1, y1, x2, y2) r fill
  = Ok (paint (paint (paint (paint (paint (paint img
         (rect_mask (x1 + r, y1, x2 - r, y2)) (ink fill))
         (rect_mask (x1, y1 + r, x2, y2 - r)) (ink fill))
         (ellipse_mask (x1, y1, x1 + 2 * r, y1 + 2 * r)) (ink fill))
         (ellipse_mask (x2 - 2 * r, y1, x2, y1 + 2 * r)) (ink fill))
         (ellipse_mask (x1, y2 - 2 * r, x1 + 2 * r, y2)) (ink fill))
         (ellipse_mask (x2 - 2 * r, y2 - 2 * r, x2, y2)) (ink fill)).
Proof.
  intros (Hr & Hw & Hh).
  unfold draw_rounded_rect, draw_rectangle, draw_ellipse.
  rewrite draw_shape_ok by (apply well_ordered_iff; lia). rewrite bind_Ok.
  rewrite draw_shape_ok by (apply well_ordered_iff; lia). rewrite bind_Ok.
  rewrite draw_shape_ok by (apply well_ordered_iff; lia). rewrite bind_Ok.
  rewrite draw_shape_ok by (apply well_ordered_iff; lia). rewrite bind_Ok.
  rewrite draw_shape_ok by (apply well_ordered_iff; lia). rewrite bind_Ok.
  rewrite draw_shape_ok by (apply well_ordered_iff; lia). reflexivity.
Qed.

Lemma draw_rounded_rect_strict img x1 y1 x2 y2 r fill :
  strict P → ¬ fits_corners (x1, y1, x2, y2) r →
  draw_rounded_rect img (x1, y1, x2, y2) r fill = Raise ValueError.
Proof.
  intros HS Hno.
  unfold draw_rounded_rect, draw_rectangle, draw_ellipse.
  rewrite draw_shape_strict by done.
  destruct (well_ordered _) eqn:E1; [|done]. rewrite bind_Ok.
  rewrite draw_shape_strict by done.
  destruct (well_ordered (x1, _, _, _)) eqn:E2; [|done]. rewrite bind_Ok.
  rewrite draw_shape_strict by done.
  destruct (well_ordered (x1, y1, _, _)) eqn:E3; [|done].
  apply well_ordered_iff in E1, E2, E3. exfalso. apply Hno.
  unfold fits_corners. lia.
Qed.

End RoundedRect.

Section RoundedRectPixels.
Context {P : Pillow} {L : PillowLaws P}.

Lemma ellipse_outside b x y :
  rect_mask b x y = false → ellipse_mask b x y = false.
Proof. exact (shape_mask_outside Ellipse b x y). Qed.

Lemma draw_rounded_rect_pixels (img : image) (coords : box) (radius : Z)
    (fill : colour) :
  fits_corners coords radius →
  ∃ img', draw_rounded_rect img coords radius fill = Ok img'
    ∧ width img' = width img ∧ height img' = height img
    ∧ ∀ x y,
        (rect_mask coords x y = false → pixels img' x y = pixels img x y)
        ∧ (inside img x y = true → in_strips coords radius x y →
           pixels img' x y = ink fill)
        ∧ (pixels img' x y = ink fill ∨ pixels img' x y = pixels img x y).
Proof.
  destruct coords as [[[x1 y1] x2] y2]. intros Hfit.
  eexists. split; [by apply draw_rounded_rect_ok|].
  destruct Hfit as (Hr & Hw & Hh).
  split; [done|]. split; [done|]. intros x y.
  rewrite !pixels_paint, !inside_paint.
  split; [|split].
  - intros Hout. apply not_true_iff_false in Hout.
    rewrite rect_mask_iff in Hout.
    assert (rect_mask (x1 + radius, y1, x2 - radius, y2) x y = false) as ->.
    { apply not_true_iff_false. rewrite rect_mask_iff. lia. }
    assert (rect_mask (x1, y1 + radius, x2, y2 - radius) x y = false) as ->.
    { apply not_true_iff_false. rewrite rect_mask_iff. lia. }
    rewrite !ellipse_outside, !andb_false_r; [done|..];
      apply not_true_iff_false; rewrite rect_mask_iff; lia.
  - intros Hin Hs. rewrite Hin. cbn [andb].
    assert (rect_mask (x1 + radius, y1, x2 - radius, y2) x y = true
            ∨ rect_mask (x1, y1 + radius, x2, y2 - radius) x y = true) as Hm.
    { rewrite !rect_mask_iff. exact Hs. }
    repeat match goal with |- context [if ?m x y then _ else _] =>
             destruct (m x y) end; try done; by destruct Hm.
  - destruct (inside img x y); cbn [andb]; [|by right].
    repeat match goal with |- context [if ?m x y then _ else _] =>
             destruct (m x y) end; auto.
Qed.

(** X5: where the radius fits the box, [draw_rounded_rect] returns an image
    of the same size; a pixel outside the box [coords] is left as it was; a
    pixel of the image in one of the two strips takes the fill; and every
    pixel either takes the fill or is left as it was (the corners are cut
    the way Pillow draws its circles). *)
Theorem rounded_rect_stays_in_box (img : image) (coords : box) (radius : Z)
    (fill : colour) :
  fits_corners coords radius →
  ∃ img', draw_rounded_rect img coords radius fill = Ok img'
    ∧ width img' = width img ∧ height img' = height img
    ∧ ∀ x y,
        (rect_mask coords x y = false → pixels img' x y = pixels img x y)
        ∧ (inside img x y = true → in_strips coords radius x y →
           pixels img' x y = ink fill)
        ∧ (pixels img' x y = ink fill ∨ pixels img' x y = pixels img x y).
Proof. apply draw_rounded_rect_pixels. Qed.

End RoundedRectPixels.

Lemma rounded_rect_stays_in_box_example :
  ∃ img', draw_rounded_rect (P := plain_pillow)
            (Image 8 8 (λ _ _, RGBA 0 0 0 0)) (1, 1, 6, 6) 2 (9, 9, 9, 255)
          = Ok img'
          ∧ pixels img' 0 0 = RGBA 0 0 0 0 ∧ pixels img' 3 1 = RGBA 9 9 9 255.
Proof.
  destruct (rounded_rect_stays_in_box (L := plain_pillow_laws)
              (Image 8 8 (λ _ _, RGBA 0 0 0 0)) (1, 1, 6, 6) 2 (9, 9, 9, 255))
    as (img' & E & _ & _ & H).
  { unfold fits_corners. lia. }
  exists img'. split; [exact E|].
  destruct (H 0 0) as (H0 & _ & _). destruct (H 3 1) as (_ & H1 & _). split.
  - apply H0. reflexivity.
  - apply H1; [reflexivity|]. unfold in_strips. lia.
Defined.

(** X6: with a Pillow that refuses a box whose corners are in the wrong
    order, [draw_rounded_rect] returns exactly when the radius fits the
    box, and raises ValueError when it is negative or more than half the
    width or the height of the box. *)
Theorem rounded_rect_needs_room (P : Pillow) (img : image) (coords : box)
    (radius : Z) (fill : colour) :
  strict P →
  (fits_corners coords radius →
   ∃ img', draw_rounded_rect img coords radius fill = Ok img')
  ∧ (¬ fits_corners coords radius →
     draw_rounded_rect img coords radius fill = Raise ValueError).
Proof.
  destruct coords as [[[x1 y1] x2] y2]. intros HS. split.
  - intros Hfit. eexists. by apply draw_rounded_rect_ok.
  - intros Hno. by apply draw_rounded_rect_strict.
Qed.

Lemma rounded_rect_needs_room_example :
  draw_rounded_rect (P := plain_pillow)
    (Image 8 8 (λ _ _, RGBA 0 0 0 0)) (1, 1, 6, 6) 3 (9, 9, 9, 255)
  = Raise ValueError.
Proof.
  apply (rounded_rect_needs_room plain_pillow); [exact plain_pillow_strict|].
  unfold fits_corners. lia.
Defined.

(** ** The layout of the icon *)

Module Layout.
Import Py PyFacts.

Ltac plain_numbers :=
  repeat match goal with
         | |- context [inject_Z (Zpos ?p)] =>
             change (inject_Z (Zpos p)) with (Zpos p # 1)%Q
         end.

Ltac about_measure :=
  unfold about; split; [assumption|];
  match goal with
  | |- context [(1000 * ?k + 1)%Z] =>
      let a := eval vm_compute in (1000 * k + 1)%Z in
      let b := eval vm_compute in (1000 * k - 1)%Z in
      change (1000 * k + 1)%Z with a; change (1000 * k - 1)%Z with b
  end;
  split; [apply Z.lt_succ_r; unfold Z.succ|];
  apply Measures.Zlt_of_Q;
  repeat rewrite ?inject_Z_plus, ?inject_Z_mult;
  plain_numbers; lra.

(** Every measure of a side [N >= 1] that converts to a float, within one
    of its share of [N]. *)
Lemma measures_about N :
  1 <= N → fits_float N →
  ∃ box_size inset zipper_width tooth_height tooth_gap crown crown_width gem_size,
    scaled N (dec 5 10) = Ok box_size
    ∧ scaled N (dec 5 100) = Ok inset
    ∧ scaled N (dec 8 100) = Ok zipper_width
    ∧ scaled N (dec 4 100) = Ok tooth_height
    ∧ scaled N (dec 6 100) = Ok tooth_gap
    ∧ scaled N (dec 12 100) = Ok crown
    ∧ scaled N (dec 25 100) = Ok crown_width
    ∧ scaled N (dec 25 1000) = Ok gem_size
    ∧ about 500 N box_size ∧ about 50 N inset ∧ about 80 N zipper_width
    ∧ about 40 N tooth_height ∧ about 60 N tooth_gap ∧ about 120 N crown
    ∧ about 250 N crown_width ∧ about 25 N gem_size.
Proof.
  intros HN [f Hf].
  destruct (float_of_int_bounds N f ltac:(lia) Hf) as (F0 & F1 & F2 & F3).
  pose proof (Measures.Qle_of_Z 1 N HN) as HNq.
  change (inject_Z 1) with 1%Q in HNq.
  destruct (scaled_bounds N f (dec 5 10) Hf F0 F1) as (bs & Ebs & Bbs0 & Bbs1 & Bbs2);
    [rewrite dec_0_5; lra..|].
  destruct (scaled_bounds N f (dec 5 100) Hf F0 F1) as (ins & Eins & Bins0 & Bins1 & Bins2);
    [rewrite dec_0_05; lra..|].
  destruct (scaled_bounds N f (dec 8 100) Hf F0 F1) as (zw & Ezw & Bzw0 & Bzw1 & Bzw2);
    [rewrite dec_0_08; lra..|].
  destruct (scaled_bounds N f (dec 4 100) Hf F0 F1) as (th & Eth & Bth0 & Bth1 & Bth2);
    [rewrite dec_0_04; lra..|].
  destruct (scaled_bounds N f (dec 6 100) Hf F0 F1) as (gap & Egap & Bgap0 & Bgap1 & Bgap2);
    [rewrite dec_0_06; lra..|].
  destruct (scaled_bounds N f (dec 12 100) Hf F0 F1) as (cr & Ecr & Bcr0 & Bcr1 & Bcr2);
    [rewrite dec_0_12; lra..|].
  destruct (scaled_bounds N f (dec 25 100) Hf F0 F1) as (cw & Ecw & Bcw0 & Bcw1 & Bcw2);
    [rewrite dec_0_25; lra..|].
  destruct (scaled_bounds N f (dec 25 1000) Hf F0 F1) as (gs & Egs & Bgs0 & Bgs1 & Bgs2);
    [rewrite dec_0_025; lra..|].
  exists bs, ins, zw, th, gap, cr, cw, gs.
  rewrite dec_0_5 in Bbs1, Bbs2. rewrite dec_0_05 in Bins1, Bins2.
  rewrite dec_0_08 in Bzw1, Bzw2. rewrite dec_0_04 in Bth1, Bth2.
  rewrite dec_0_06 in Bgap1, Bgap2. rewrite dec_0_12 in Bcr1, Bcr2.
  rewrite dec_0_25 in Bcw1, Bcw2. rewrite dec_0_025 in Bgs1, Bgs2.
  unfold eps in *.
  repeat (split; [assumption|]).
  repeat (split; [about_measure|]). about_measure.
Qed.

Ltac small_side :=
  subst; eexists _, _, _, _, _, _, _, _;
  repeat (split; [vm_compute; reflexivity|]);
  unfold layout_facts; cbv zeta;
  repeat split; vm_compute; (reflexivity || (intros ?; discriminate)).

(** The measures of a side from 25 on, in the order the layout needs. *)
Lemma layout N :
  25 <= N → fits_float N →
  ∃ bs ins zw th gap cr cw gs,
    scaled N (dec 5 10) = Ok bs
    ∧ scaled N (dec 5 100) = Ok ins
    ∧ scaled N (dec 8 100) = Ok zw
    ∧ scaled N (dec 4 100) = Ok th
    ∧ scaled N (dec 6 100) = Ok gap
    ∧ scaled N (dec 12 100) = Ok cr
    ∧ scaled N (dec 25 100) = Ok cw
    ∧ scaled N (dec 25 1000) = Ok gs
    ∧ layout_facts N bs ins zw th gap cr cw gs.
Proof.
  intros HN Hf. destruct (Z.le_gt_cases N 26) as [Hs|Hb].
  - assert (N = 25 ∨ N = 26) as H by lia.
    destruct H as [H|H]; small_side.
  - destruct (measures_about N ltac:(lia) Hf)
      as (bs & ins & zw & th & gap & cr & cw & gs & Ebs & Eins & Ezw & Eth & Egap
          & Ecr & Ecw & Egs & Abs & Ains & Azw & Ath & Agap & Acr & Acw & Ags).
    exists bs, ins, zw, th, gap, cr, cw, gs.
    repeat (split; [assumption|]).
    unfold about in *. unfold layout_facts. cbv zeta.
    pose proof (Z.mul_div_le N 2 ltac:(lia)).
    pose proof (Z.mul_succ_div_gt N 2 ltac:(lia)).
    pose proof (Z.mul_div_le bs 2 ltac:(lia)).
    pose proof (Z.mul_succ_div_gt bs 2 ltac:(lia)).
    generalize dependent (N / 2). generalize dependent (bs / 2).
    intros half_box ? ? center ? ?. lia.
Qed.

End Layout.

(** ** What each drawing call leaves of the icon *)

Lemma div2_bounds n : 2 * (n / 2) <= n < 2 * (n / 2) + 2.
Proof.
  pose proof (Z.mul_div_le n 2 ltac:(lia)).
  pose proof (Z.mul_succ_div_gt n 2 ltac:(lia)). lia.
Qed.

(** Every half [a / 2] of the goal and of the hypotheses becomes a number
    [h] with [2 * h <= a < 2 * h + 2], for [lia]. *)
Ltac halves :=
  repeat match goal with
         | |- context [?a / 2] =>
             let h := fresh "half" in
             pose proof (div2_bounds a); set (h := a / 2) in *; clearbody h
         | H : context [?a / 2] |- _ =>
             let h := fresh "half" in
             pose proof (div2_bounds a); set (h := a / 2) in *; clearbody h
         end.

Lemma rect_mask_out x0 y0 x1 y1 x y :
  rect_mask (x0, y0, x1, y1) x y = false ↔ x < x0 ∨ x1 < x ∨ y < y0 ∨ y1 < y.
Proof. rewrite <- not_true_iff_false, rect_mask_iff. lia. Qed.

Section IconPixels.
Context {P : Pillow} {L : PillowLaws P}.
Import Py PyFacts.

Lemma tooth_box_ordered zx zw th yk tg :
  2 <= zw → 0 <= th → well_ordered (tooth_box zx zw th yk tg) = true.
Proof.
  intros Hzw Hth. unfold tooth_box. destruct tg; apply well_ordered_iff; lia.
Qed.

Lemma tooth_misses zx zw th yk tg x y :
  x < zx - zw ∨ zx + zw < x ∨ y < yk ∨ yk + th < y
  ∨ (tg = true ∧ zx - 2 < x) ∨ (tg = false ∧ x < zx + 2) →
  rect_mask (tooth_box zx zw th yk tg) x y = false.
Proof.
  intros Hx. unfold tooth_box.
  destruct tg; apply rect_mask_out;
    destruct Hx as [?|[?|[?|[?|[[? ?]|[? ?]]]]]]; (discriminate || lia).
Qed.

(** The loop leaves a pixel as it was if not one of its teeth holds it. *)
Lemma teeth_loop_keeps_if zx zw th gap zb x y fuel :
  2 <= zw → 0 <= th →
  ∀ img ys tg img',
    (∀ k : nat, ys + Z.of_nat k * gap < zb - th →
       rect_mask (tooth_box zx zw th (ys + Z.of_nat k * gap)
                            (xorb tg (Nat.odd k))) x y = false) →
    teeth_loop fuel zx zw th gap zb img ys tg = Ok img' →
    pixels img' x y = pixels img x y.
Proof.
  intros Hzw Hth.
  induction fuel as [|fuel IH]; intros img ys tg img' Hk; simpl;
    destruct (Z.ltb_spec ys (zb - th)) as [Hlt|Hge];
    try discriminate; try (by intros [= <-]).
  intros E. apply bind_Ok_inv in E as (img1 & E1 & E2).
  assert (Hrest : pixels img' x y = pixels img1 x y).
  { apply (IH _ (ys + gap) (negb tg)); [|exact E2].
    intros k Hlt'. specialize (Hk (S k)).
    replace (ys + Z.of_nat (S k) * gap) with (ys + gap + Z.of_nat k * gap)
      in Hk by lia.
    replace (xorb tg (Nat.odd (S k))) with (xorb (negb tg) (Nat.odd k)) in Hk.
    { by apply Hk. }
    rewrite Nat.odd_succ, <- Nat.negb_odd. by destruct tg, (Nat.odd k). }
  rewrite Hrest.
  apply (draw_shape_keeps _ _ _ _ _ _ _ E1); [by apply tooth_box_ordered|].
  specialize (Hk 0%nat).
  replace (ys + Z.of_nat 0 * gap) with ys in Hk by lia.
  rewrite xorb_false_r in Hk. by apply Hk.
Qed.

Lemma teeth_loop_inside zx zw th gap zb x y fuel :
  ∀ img ys tg img',
    teeth_loop fuel zx zw th gap zb img ys tg = Ok img' →
    inside img' x y = inside img x y.
Proof.
  induction fuel as [|fuel IH]; intros img ys tg img'; simpl;
    destruct (Z.ltb_spec ys (zb - th)) as [Hlt|Hge];
    try discriminate; try (by intros [= <-]).
  intros E. apply bind_Ok_inv in E as (img1 & E1 & E2).
  rewrite (IH _ _ _ _ E2). by apply (inside_draw_shape _ _ _ _ _ _ _ E1).
Qed.

(** A pixel of the tooth of turn [j] ends with the colour of that tooth:
    the teeth after it are on the other side or further down. *)
Lemma teeth_loop_sets zx zw th gap zb x y fuel :
  2 <= zw → 0 <= th → 0 <= gap → th < 2 * gap →
  ∀ (j : nat) img ys tg img',
    teeth_loop fuel zx zw th gap zb img ys tg = Ok img' →
    ys + Z.of_nat j * gap < zb - th →
    rect_mask (tooth_box zx zw th (ys + Z.of_nat j * gap)
                         (xorb tg (Nat.odd j))) x y = true →
    inside img x y = true →
    pixels img' x y = ink (tooth_fill (xorb tg (Nat.odd j))).
Proof.
  intros Hzw Hth Hgap Hth2.
  induction fuel as [|fuel IH]; intros j img ys tg img' E Hj Hin Hins;
    simpl in E; destruct (Z.ltb_spec ys (zb - th)) as [Hlt|Hge];
    try discriminate; try (exfalso; nia).
  apply bind_Ok_inv in E as (img1 & E1 & E2).
  destruct j as [|j].
  - replace (ys + Z.of_nat 0 * gap) with ys in Hin by lia.
    rewrite xorb_false_r in *.
    assert (Hrest : pixels img' x y = pixels img1 x y).
    { apply (teeth_loop_keeps_if zx zw th gap zb x y fuel Hzw Hth
               img1 (ys + gap) (negb tg)); [|exact E2].
      intros k Hk. apply tooth_misses.
      unfold tooth_box in Hin.
      destruct tg; apply rect_mask_iff in Hin;
        destruct k as [|k]; cbn [Nat.odd Nat.even negb xorb];
        try (right; right; right; right;
             ((left; split; [done|lia]) || (right; split; [done|lia])));
        right; right; left; nia. }
    rewrite Hrest.
    apply (draw_rectangle_sets _ _ _ _ _ _ E1);
      [by apply tooth_box_ordered|done..].
  - assert (Hc : ys + gap + Z.of_nat j * gap = ys + Z.of_nat (S j) * gap) by lia.
    assert (Hp : xorb (negb tg) (Nat.odd j) = xorb tg (Nat.odd (S j))).
    { rewrite Nat.odd_succ, <- Nat.negb_odd. by destruct tg, (Nat.odd j). }
    specialize (IH j img1 (ys + gap) (negb tg) img' E2).
    rewrite Hc, Hp in IH. apply IH; [done..|].
    by rewrite (inside_draw_shape _ _ _ _ _ _ _ E1).
Qed.

End IconPixels.

(** ** The icon, region by region *)

(** The box around points that all lie in a box lies in that box. *)
Lemma bounding_box_fold bx0 by0 bx1 by1 (rest : list point) a0 b0 a1 b1 :
  bx0 <= a0 ∧ a1 <= bx1 ∧ by0 <= b0 ∧ b1 <= by1 →
  Forall (λ p : point, bx0 <= p.1 <= bx1 ∧ by0 <= p.2 <= by1) rest →
  ∀ x0 y0 x1 y1,
    foldr (λ '(px, py) '(x0, y0, x1, y1),
             (Z.min px x0, Z.min py y0, Z.max px x1, Z.max py y1))
          (a0, b0, a1, b1) rest
    = (x0, y0, x1, y1) →
    bx0 <= x0 ∧ x1 <= bx1 ∧ by0 <= y0 ∧ y1 <= by1.
Proof.
  intros Hacc Hrest.
  induction Hrest as [|p rest Hp _ IH]; intros x0 y0 x1 y1 E.
  - injection E as <- <- <- <-. exact Hacc.
  - destruct p as [px py]. cbn [foldr] in E.
    destruct (foldr _ _ rest) as [[[u0 v0] u1] v1].
    specialize (IH _ _ _ _ eq_refl). injection E as <- <- <- <-.
    cbn [fst snd] in Hp. lia.
Qed.

Lemma bounding_box_in (b : box) (pts : list point) x y :
  Forall (λ p : point, rect_mask b p.1 p.2 = true) pts →
  rect_mask b x y = false → rect_mask (bounding_box pts) x y = false.
Proof.
  destruct b as [[[bx0 by0] bx1] by1]. intros Hpts Hout.
  destruct pts as [|[px py] rest];
    [unfold bounding_box; apply rect_mask_out; lia|].
  apply Forall_cons in Hpts as [Hp Hrest]. apply rect_mask_iff in Hp.
  cbn [fst snd] in Hp. unfold bounding_box.
  destruct (foldr _ _ rest) as [[[x0 y0] x1] y1] eqn:E.
  apply (bounding_box_fold bx0 by0 bx1 by1) in E; [|lia|].
  - apply rect_mask_out in Hout. apply rect_mask_out. lia.
  - eapply Forall_impl; [exact Hrest|]. intros [qx qy] Hq.
    by apply rect_mask_iff in Hq.
Qed.

Section IconRegions.
Context {P : Pillow} {L : PillowLaws P}.
Import Py PyFacts.

(** After the loop of the teeth: the pull, the crown and the gem change no
    pixel outside their boxes. *)
Lemma compose_icon_regions loop N bg bs ins zw cr cw gs img :
  compose_icon loop N bg bs ins zw cr cw gs = Ok img →
  0 <= zw → 0 <= gs → 0 <= cr → 0 <= cw →
  ∃ i1 i2,
    draw_rounded_rect bg (icon_box N bs ins) ins (255, 255, 255, 230) = Ok i1
    ∧ loop i1 = Ok i2
    ∧ ∀ x y,
        rect_mask (pull_box N bs ins zw) x y = false →
        rect_mask (crown_box N cr cw) x y = false →
        rect_mask (gem_box N cr gs) x y = false →
        pixels img x y = pixels i2 x y.
Proof.
  intros E Hzw Hgs Hcr Hcw. unfold compose_icon in E. cbv zeta in E.
  apply bind_Ok_inv in E as (i1 & E1 & E).
  apply bind_Ok_inv in E as (i2 & E2 & E).
  apply bind_Ok_inv in E as (i3 & E3 & E4).
  exists i1, i2. split; [exact E1|]. split; [exact E2|].
  intros x y Hpull Hcrown Hgem.
  unfold pull_box, crown_box, gem_box, box_top_of in *.
  apply rect_mask_out in Hpull, Hcrown, Hgem.
  unfold draw_ellipse in *.
  rewrite (draw_shape_keeps _ _ _ _ _ x y E4);
    [|apply well_ordered_iff; lia|apply rect_mask_out; lia].
  rewrite draw_polygon_keeps.
  - apply (draw_shape_keeps _ _ _ _ _ x y E3);
      [apply well_ordered_iff; lia|apply rect_mask_out; lia].
  - apply (bounding_box_in (N / 2 - cw, cr, N / 2 + cw, cr + cr));
      [|apply rect_mask_out; lia].
    pose proof (div2_bounds cr). pose proof (div2_bounds cw).
    set (hr := cr / 2) in *. set (hw := cw / 2) in *. clearbody hr hw.
    repeat (constructor; [apply rect_mask_iff; cbn [fst snd]; lia|]).
    constructor.
Qed.

(** The stages of [create_icon] at a side from 25 on that Pillow and the
    machine take. *)
Lemma icon_anatomy N fuel :
  25 <= N → room_for N → (Z.to_nat N <= fuel)%nat →
  ∃ img bg i1 i2 bs ins zw th gap cr cw gs,
    create_icon fuel N = Ok img
    ∧ (scaled N (dec 5 10) = Ok bs ∧ scaled N (dec 5 100) = Ok ins
       ∧ scaled N (dec 8 100) = Ok zw ∧ scaled N (dec 4 100) = Ok th
       ∧ scaled N (dec 6 100) = Ok gap ∧ scaled N (dec 12 100) = Ok cr
       ∧ scaled N (dec 25 100) = Ok cw ∧ scaled N (dec 25 1000) = Ok gs)
    ∧ layout_facts N bs ins zw th gap cr cw gs
    ∧ (∀ x y, inside img x y = true ↔ 0 <= x < N ∧ 0 <= y < N)
    ∧ (∀ x y, 0 <= x < N → 0 <= y < N → pixels bg x y = gradient_pixel N x y)
    ∧ (∀ x y, inside bg x y = inside img x y)
    ∧ draw_rounded_rect bg (icon_box N bs ins) ins (255, 255, 255, 230) = Ok i1
    ∧ teeth_loop fuel (N / 2) zw th gap (box_bottom_of N bs ins - zw) i1
                 (box_top_of N bs ins + zw) true = Ok i2
    ∧ ∀ x y,
        rect_mask (pull_box N bs ins zw) x y = false →
        rect_mask (crown_box N cr cw) x y = false →
        rect_mask (gem_box N cr gs) x y = false →
        pixels img x y = pixels i2 x y.
Proof.
  intros HN Hroom Hfuel.
  pose proof (GradientFacts.room_for_float N ltac:(lia) Hroom) as Hf.
  destruct (Layout.layout N HN Hf)
    as (bs & ins & zw & th & gap & cr & cw & gs & Ebs & Eins & Ezw & Eth & Egap
        & Ecr & Ecw & Egs & Hlay).
  destruct (create_icon_returns N fuel ltac:(by left) Hroom Hfuel) as [img E].
  destruct (GradientFacts.create_gradient_spec N ltac:(lia) Hroom)
    as (bg & Ebg & [Hbw Hbh] & Hpix).
  destruct (create_icon_painted _ _ _ E) as [[Hw Hh] _].
  pose proof E as E'.
  rewrite (create_icon_measured fuel N bg bs ins zw th gap cr cw gs) in E'
    by assumption.
  assert (Hl := Hlay). unfold layout_facts in Hl. cbv zeta in Hl.
  destruct (compose_icon_regions _ _ _ _ _ _ _ _ _ _ E')
    as (i1 & i2 & R1 & R2 & Hafter); [lia..|].
  exists img, bg, i1, i2, bs, ins, zw, th, gap, cr, cw, gs.
  split; [exact E|]. split; [by repeat split|]. split; [exact Hlay|].
  split; [intros x y; rewrite inside_iff; lia|].
  split; [exact Hpix|].
  split; [intros x y; unfold inside; by rewrite Hbw, Hbh, Hw, Hh|].
  split; [exact R1|]. split; [exact R2|]. exact Hafter.
Qed.

Ltac unfold_layout :=
  unfold layout_facts, frame, icon_box, pull_box, crown_box, gem_box,
    box_bottom_of, box_top_of, fits_corners, in_strips in *;
  cbv zeta in *.

(** X7: at a side from 25 on that Pillow and the machine take (a side
    below 2^31, and memory for the canvas) nothing is drawn outside the
    frame, the smallest box around the box of the icon and its crown; the
    frame stays at least one pixel off every edge, so the rim of the
    canvas, and every pixel outside the frame, is still the gradient. *)
Theorem icon_margin_keeps_gradient (N : Z) (fuel : nat) :
  25 <= N → room_for N → (Z.to_nat N <= fuel)%nat →
  ∃ img bs ins cr cw,
    create_icon fuel N = Ok img
    ∧ scaled N (dec 5 10) = Ok bs ∧ scaled N (dec 5 100) = Ok ins
    ∧ scaled N (dec 12 100) = Ok cr ∧ scaled N (dec 25 100) = Ok cw
    ∧ (∀ x y, rect_mask (frame N bs ins cr cw) x y = true →
              1 <= x <= N - 2 ∧ 1 <= y <= N - 2)
    ∧ ∀ x y, 0 <= x < N → 0 <= y < N →
        rect_mask (frame N bs ins cr cw) x y = false →
        getpixel img x y = Some (gradient_pixel N x y).
Proof.
  intros HN Hf Hfuel.
  destruct (icon_anatomy N fuel HN Hf Hfuel)
    as (img & bg & i1 & i2 & bs & ins & zw & th & gap & cr & cw & gs & E
        & (Ebs & Eins & Ezw & Eth & Egap & Ecr & Ecw & Egs) & Hlay & Hin & Hpix
        & Hbg & R1 & R2 & Hafter).
  exists img, bs, ins, cr, cw. repeat (split; [assumption|]). split.
  - intros x y Hm. unfold_layout. apply rect_mask_iff in Hm. halves. lia.
  - intros x y Hx Hy Hout. unfold getpixel.
    assert (inside img x y = true) as -> by (by apply Hin).
    f_equal. rewrite <- Hpix by done.
    destruct (draw_rounded_rect_pixels bg (icon_box N bs ins) ins
                (255, 255, 255, 230))
      as (i1' & R1' & _ & _ & Hrect).
    { unfold_layout. lia. }
    assert (i1' = i1) as -> by congruence.
    destruct (Hrect x y) as (Hkeep & _ & _).
    apply rect_mask_out in Hout.
    rewrite Hafter by (unfold_layout; apply rect_mask_out; halves; lia).
    assert (Hteeth : pixels i2 x y = pixels i1 x y).
    { apply (teeth_loop_keeps_if (N / 2) zw th gap
               (box_bottom_of N bs ins - zw) x y fuel
               ltac:(unfold_layout; lia) ltac:(unfold_layout; lia)
               i1 (box_top_of N bs ins + zw) true); [|exact R2].
      intros k Hk. apply tooth_misses. unfold_layout. halves. nia. }
    rewrite Hteeth. apply Hkeep. unfold_layout. apply rect_mask_out. halves. lia.
Qed.

(** X8: at a side from 25 on that Pillow and the machine take, the two
    strips of the box, left and right of the column of the zipper, are
    white with alpha 230 all over: they lie below the crown and its gem,
    and beside the teeth and the pull. *)
Theorem icon_box_is_white (N : Z) (fuel : nat) :
  25 <= N → room_for N → (Z.to_nat N <= fuel)%nat →
  ∃ img bs ins zw,
    create_icon fuel N = Ok img
    ∧ scaled N (dec 5 10) = Ok bs ∧ scaled N (dec 5 100) = Ok ins
    ∧ scaled N (dec 8 100) = Ok zw
    ∧ ∀ x y, in_strips (icon_box N bs ins) ins x y →
        x < N / 2 - zw ∨ N / 2 + zw < x →
        getpixel img x y = Some (RGBA 255 255 255 230).
Proof.
  intros HN Hf Hfuel.
  destruct (icon_anatomy N fuel HN Hf Hfuel)
    as (img & bg & i1 & i2 & bs & ins & zw & th & gap & cr & cw & gs & E
        & (Ebs & Eins & Ezw & Eth & Egap & Ecr & Ecw & Egs) & Hlay & Hin & Hpix
        & Hbg & R1 & R2 & Hafter).
  exists img, bs, ins, zw. repeat (split; [assumption|]).
  intros x y Hs Hx. unfold getpixel.
  assert (Hxy : 0 <= x < N ∧ 0 <= y < N).
  { unfold_layout. halves. lia. }
  assert (inside img x y = true) as -> by (by apply Hin).
  f_equal.
  destruct (draw_rounded_rect_pixels bg (icon_box N bs ins) ins
              (255, 255, 255, 230))
    as (i1' & R1' & _ & _ & Hrect).
  { unfold_layout. lia. }
  assert (i1' = i1) as -> by congruence.
  destruct (Hrect x y) as (_ & Hset & _).
  rewrite Hafter by (unfold_layout; apply rect_mask_out; halves; lia).
  assert (Hteeth : pixels i2 x y = pixels i1 x y).
  { apply (teeth_loop_keeps_if (N / 2) zw th gap
             (box_bottom_of N bs ins - zw) x y fuel
             ltac:(unfold_layout; lia) ltac:(unfold_layout; lia)
             i1 (box_top_of N bs ins + zw) true); [|exact R2].
    intros k Hk. apply tooth_misses. lia. }
  rewrite Hteeth, Hset; [reflexivity| |exact Hs]. rewrite Hbg. by apply Hin.
Qed.

(** X9: at a side from 25 on that Pillow and the machine take, every
    tooth the loop draws below the pull (tooth [j] with
    [j * tooth_gap > zipper_width]) shows whole in the icon: each pixel of
    its box has the colour of the tooth, the start colour on the left and
    the end colour on the right. *)
Theorem teeth_show_below_pull (N : Z) (fuel : nat) :
  25 <= N → room_for N → (Z.to_nat N <= fuel)%nat →
  ∃ img bs ins zw th gap,
    create_icon fuel N = Ok img
    ∧ scaled N (dec 5 10) = Ok bs ∧ scaled N (dec 5 100) = Ok ins
    ∧ scaled N (dec 8 100) = Ok zw ∧ scaled N (dec 4 100) = Ok th
    ∧ scaled N (dec 6 100) = Ok gap
    ∧ ∀ (j : nat) x y,
        let yj := box_top_of N bs ins + zw + Z.of_nat j * gap in
        yj < box_bottom_of N bs ins - zw - th →
        zw < Z.of_nat j * gap →
        rect_mask (tooth_box (N / 2) zw th yj (Nat.even j)) x y = true →
        getpixel img x y
        = Some (if Nat.even j then RGBA 102 126 234 255
                else RGBA 118 75 162 255).
Proof.
  intros HN Hf Hfuel.
  destruct (icon_anatomy N fuel HN Hf Hfuel)
    as (img & bg & i1 & i2 & bs & ins & zw & th & gap & cr & cw & gs & E
        & (Ebs & Eins & Ezw & Eth & Egap & Ecr & Ecw & Egs) & Hlay & Hin & Hpix
        & Hbg & R1 & R2 & Hafter).
  exists img, bs, ins, zw, th, gap. repeat (split; [assumption|]).
  intros j x y yj Hj Hbelow Hm. unfold getpixel.
  assert (Hbox : N / 2 - zw <= x <= N / 2 + zw ∧ yj <= y <= yj + th).
  { unfold tooth_box in Hm. destruct (Nat.even j);
      apply rect_mask_iff in Hm; unfold_layout; lia. }
  assert (Hxy : 0 <= x < N ∧ 0 <= y < N).
  { subst yj. unfold_layout. halves. lia. }
  assert (inside img x y = true) as -> by (by apply Hin).
  f_equal.
  destruct (draw_rounded_rect_pixels bg (icon_box N bs ins) ins
              (255, 255, 255, 230))
    as (i1' & R1' & Hw1 & Hh1 & _).
  { unfold_layout. lia. }
  assert (i1' = i1) as -> by congruence.
  rewrite Hafter
    by (subst yj; unfold_layout; apply rect_mask_out; halves; lia).
  assert (Hside : xorb true (Nat.odd j) = Nat.even j).
  { rewrite <- Nat.negb_odd. by destruct (Nat.odd j). }
  rewrite (teeth_loop_sets (N / 2) zw th gap (box_bottom_of N bs ins - zw) x y
             fuel ltac:(unfold_layout; lia) ltac:(unfold_layout; lia)
             ltac:(unfold_layout; lia) ltac:(unfold_layout; lia)
             j i1 (box_top_of N bs ins + zw) true i2 R2).
  - rewrite Hside. by destruct (Nat.even j).
  - subst yj. lia.
  - by rewrite Hside.
  - assert (inside i1 x y = inside bg x y) as ->
      by (unfold inside; by rewrite Hw1, Hh1).
    rewrite Hbg. by apply Hin.
Qed.

End IconRegions.

Lemma icon_margin_keeps_gradient_1024 :
  ∃ img, create_icon (P := plain_pillow) 1024 1024 = Ok img
         ∧ getpixel img 0 0 = Some (RGBA 102 126 234 255)
         ∧ getpixel img 1023 100 = Some (gradient_pixel 1024 1023 100).
Proof.
  destruct (icon_margin_keeps_gradient (L := plain_pillow_laws) 1024 1024
              ltac:(lia) (room_for_1024 plain_pillow) ltac:(lia))
    as (img & bs & ins & cr & cw & E & Ebs & Eins & Ecr & Ecw & _ & H).
  assert (bs = 512) as -> by (vm_compute in Ebs; congruence).
  assert (ins = 51) as -> by (vm_compute in Eins; congruence).
  assert (cr = 122) as -> by (vm_compute in Ecr; congruence).
  assert (cw = 256) as -> by (vm_compute in Ecw; congruence).
  exists img. split; [exact E|]. split.
  - rewrite (H 0 0) by (lia || reflexivity).
    exact (f_equal Some (CornerFacts.gradient_origin 1024)).
  - apply H; (lia || reflexivity).
Defined.

Lemma icon_box_is_white_1024 :
  ∃ img, create_icon (P := plain_pillow) 1024 1024 = Ok img
         ∧ getpixel img 300 600 = Some (RGBA 255 255 255 230)
         ∧ getpixel img 700 400 = Some (RGBA 255 255 255 230).
Proof.
  destruct (icon_box_is_white (L := plain_pillow_laws) 1024 1024
              ltac:(lia) (room_for_1024 plain_pillow) ltac:(lia))
    as (img & bs & ins & zw & E & Ebs & Eins & Ezw & H).
  assert (bs = 512) as -> by (vm_compute in Ebs; congruence).
  assert (ins = 51) as -> by (vm_compute in Eins; congruence).
  assert (zw = 81) as -> by (vm_compute in Ezw; congruence).
  exists img. split; [exact E|]. split.
  - apply H; [|left; reflexivity]. right. vm_compute. intuition discriminate.
  - apply H; [|right; reflexivity]. right. vm_compute. intuition discriminate.
Defined.

Lemma teeth_show_below_pull_1024 :
  ∃ img, create_icon (P := plain_pillow) 1024 1024 = Ok img
         ∧ getpixel img 440 520 = Some (RGBA 102 126 234 255)
         ∧ getpixel img 590 600 = Some (RGBA 118 75 162 255).
Proof.
  destruct (teeth_show_below_pull (L := plain_pillow_laws) 1024 1024
              ltac:(lia) (room_for_1024 plain_pillow) ltac:(lia))
    as (img & bs & ins & zw & th & gap & E & Ebs & Eins & Ezw & Eth & Egap & H).
  assert (bs = 512) as -> by (vm_compute in Ebs; congruence).
  assert (ins = 51) as -> by (vm_compute in Eins; congruence).
  assert (zw = 81) as -> by (vm_compute in Ezw; congruence).
  assert (th = 40) as -> by (vm_compute in Eth; congruence).
  assert (gap = 61) as -> by (vm_compute in Egap; congruence).
  exists img. split; [exact E|]. split.
  - apply (H 2%nat 440 520); reflexivity.
  - apply (H 3%nat 590 600); reflexivity.
Defined.

(** ** The teeth among themselves *)

Lemma same_side_two_apart (j k : nat) :
  Nat.even j = Nat.even k → j ≠ k → (j + 2 <= k ∨ k + 2 <= j)%nat.
Proof.
  intros He Hne.
  destruct (Nat.Even_or_Odd j) as [[a ->]|[a ->]],
           (Nat.Even_or_Odd k) as [[b ->]|[b ->]]; try lia; exfalso.
  - rewrite Nat.even_even, Nat.add_1_r, Nat.even_succ, Nat.odd_even in He.
    discriminate.
  - rewrite Nat.even_even, Nat.add_1_r, Nat.even_succ, Nat.odd_even in He.
    discriminate.
Qed.

(** X10: at a side from 25 on that Pillow and the machine take, the loop
    of [create_icon] is the drawing of the rectangles [teeth ... n], and
    every one of them has its corners in order, lies inside the box of the
    icon, and shares no pixel with any other: two teeth of the same side are
    at least two steps apart, which is more than the height of a tooth. *)
Theorem teeth_keep_apart (P : Pillow) (N : Z) (fuel : nat) :
  25 <= N → room_for N → (Z.to_nat N <= fuel)%nat →
  ∃ bs ins zw th gap n,
    Py.scaled N (Py.dec 5 10) = Ok bs ∧ Py.scaled N (Py.dec 5 100) = Ok ins
    ∧ Py.scaled N (Py.dec 8 100) = Ok zw ∧ Py.scaled N (Py.dec 4 100) = Ok th
    ∧ Py.scaled N (Py.dec 6 100) = Ok gap
    ∧ let y0 := box_top_of N bs ins + zw in
      let drawn := teeth (N / 2) zw th gap y0 n in
      (∃ img, create_icon fuel N = Ok img)
      ∧ (∀ canvas,
           teeth_loop fuel (N / 2) zw th gap (box_bottom_of N bs ins - zw)
                      canvas y0 true
           = draw_all drawn canvas)
      ∧ (∀ k : nat, (k < n)%nat
                    ↔ y0 + Z.of_nat k * gap < box_bottom_of N bs ins - zw - th)
      ∧ ∀ (j : nat) b c, drawn !! j = Some (b, c) →
          well_ordered b = true
          ∧ ∀ x y, rect_mask b x y = true →
              rect_mask (icon_box N bs ins) x y = true
              ∧ ∀ (k : nat) b' c', k ≠ j → drawn !! k = Some (b', c') →
                  rect_mask b' x y = false.
Proof.
  intros HN Hroom Hfuel.
  pose proof (GradientFacts.room_for_float N ltac:(lia) Hroom) as Hf.
  destruct (Layout.layout N HN Hf)
    as (bs & ins & zw & th & gap & cr & cw & gs & Ebs & Eins & Ezw & Eth & Egap
        & Ecr & Ecw & Egs & Hlay).
  exists bs, ins, zw, th, gap.
  exists (tooth_count (box_top_of N bs ins + zw)
                      (box_bottom_of N bs ins - zw - th) gap).
  repeat (split; [assumption|]). cbv zeta.
  unfold layout_facts in Hlay. cbv zeta in Hlay.
  assert (Hcount : ∀ k : nat,
            (k < tooth_count (box_top_of N bs ins + zw)
                             (box_bottom_of N bs ins - zw - th) gap)%nat
            ↔ box_top_of N bs ins + zw + Z.of_nat k * gap
              < box_bottom_of N bs ins - zw - th).
  { intros k. apply tooth_count_spec. lia. }
  split; [by apply create_icon_returns; [left|..]|].
  split.
  { intros canvas.
    apply (teeth_step_teeth fuel N bs ins zw th gap canvas); (lia || done). }
  split; [exact Hcount|].
  intros j b c Hjb.
  assert (Hj : (j < tooth_count (box_top_of N bs ins + zw)
                                (box_bottom_of N bs ins - zw - th) gap)%nat).
  { apply lookup_lt_Some in Hjb. by rewrite teeth_length in Hjb. }
  rewrite teeth_lookup in Hjb by done. injection Hjb as <- <-.
  apply Hcount in Hj.
  split; [apply tooth_box_ordered; lia|].
  intros x y Hm. split.
  - unfold tooth_box in Hm. unfold icon_box, box_bottom_of, box_top_of in *.
    apply rect_mask_iff.
    destruct (Nat.even j); apply rect_mask_iff in Hm; halves; nia.
  - intros k b' c' Hne Hkb.
    assert (Hk : (k < tooth_count (box_top_of N bs ins + zw)
                                  (box_bottom_of N bs ins - zw - th) gap)%nat).
    { apply lookup_lt_Some in Hkb. by rewrite teeth_length in Hkb. }
    rewrite teeth_lookup in Hkb by done. injection Hkb as <- <-.
    apply tooth_misses.
    destruct (Bool.bool_dec (Nat.even j) (Nat.even k)) as [He|He].
    + assert (Hrows : box_top_of N bs ins + zw + Z.of_nat j * gap <= y
                      <= box_top_of N bs ins + zw + Z.of_nat j * gap + th).
      { unfold tooth_box in Hm.
        destruct (Nat.even j); apply rect_mask_iff in Hm; lia. }
      destruct (same_side_two_apart j k He ltac:(congruence)) as [H2|H2].
      * assert (Z.of_nat (j + 2) * gap <= Z.of_nat k * gap)
          by (apply Z.mul_le_mono_nonneg_r; lia).
        right; right; left. lia.
      * assert (Z.of_nat (k + 2) * gap <= Z.of_nat j * gap)
          by (apply Z.mul_le_mono_nonneg_r; lia).
        right; right; right; left. lia.
    + unfold tooth_box in Hm.
      destruct (Nat.even j), (Nat.even k); try done;
        apply rect_mask_iff in Hm; right; right; right; right;
        [right|left]; (split; [done|lia]).
Qed.

Lemma teeth_keep_apart_1024 :
  rect_mask (icon_box 1024 512 51) 440 520 = true
  ∧ rect_mask (tooth_box (1024 / 2) 81 40 (box_top_of 1024 512 51 + 81
                                            + Z.of_nat 4 * 61) true)
              440 520 = false.
Proof.
  destruct (teeth_keep_apart plain_pillow 1024 1024 ltac:(lia)
              (room_for_1024 plain_pillow) ltac:(lia))
    as (bs & ins & zw & th & gap & n & Ebs & Eins & Ezw & Eth & Egap & _ & _
        & Hn & H).
  assert (bs = 512) as -> by (vm_compute in Ebs; congruence).
  assert (ins = 51) as -> by (vm_compute in Eins; congruence).
  assert (zw = 81) as -> by (vm_compute in Ezw; congruence).
  assert (th = 40) as -> by (vm_compute in Eth; congruence).
  assert (gap = 61) as -> by (vm_compute in Egap; congruence).
  assert (H2 : (2 < n)%nat) by (apply Hn; reflexivity).
  assert (H4 : (4 < n)%nat) by (apply Hn; reflexivity).
  destruct (H 2%nat _ _ (teeth_lookup _ _ _ _ _ n 2 H2)) as [_ Hpx].
  destruct (Hpx 440 520 ltac:(reflexivity)) as [Hbox Hk].
  split; [exact Hbox|].
  apply (Hk 4%nat _ _ ltac:(lia) (teeth_lookup _ _ _ _ _ n 4 H4)).
Defined.

(** ** The sides whose teeth are too narrow *)

Section NarrowTeeth.
Context {P : Pillow}.
Import Py PyFacts.

Ltac narrow_side :=
  match goal with
  | HS : strict P, Hbg : create_gradient ?N color1 color2 = Ok ?bg
    |- create_icon (S ?fuel) ?N = _ =>
      erewrite (create_icon_measured (S fuel) N bg) by
        (exact Hbg || (vm_compute; reflexivity));
      unfold compose_icon; cbv zeta;
      rewrite draw_rounded_rect_ok by (unfold fits_corners; vm_compute;
                                       repeat split; intros ?; discriminate);
      rewrite bind_Ok; unfold teeth_step;
      rewrite teeth_loop_step by (vm_compute; reflexivity);
      unfold draw_rectangle; rewrite (draw_shape_strict _ _ _ _ HS);
      reflexivity
  end.

(** From side 17 to side 24 the width [int(0.08 * N)] of a tooth is 1: the
    box of the first tooth runs from [N/2 - 1] back to [N/2 - 2]. *)
Lemma narrow_teeth_raise N fuel :
  strict P → 17 <= N <= 24 → create_icon (S fuel) N = Raise ValueError.
Proof.
  intros HS HN.
  destruct (GradientFacts.create_gradient_spec N ltac:(lia)
              (GradientFacts.room_for_small N ltac:(lia))) as (bg & Hbg & _).
  assert (N = 17 ∨ N = 18 ∨ N = 19 ∨ N = 20 ∨ N = 21 ∨ N = 22 ∨ N = 23
          ∨ N = 24) as H by lia.
  repeat (destruct H as [->|H]; [narrow_side|]). subst N. narrow_side.
Qed.

End NarrowTeeth.

(** X11: with a Pillow that refuses a box whose corners are in the wrong
    order, [create_icon] raises ValueError at every side from 17 to 24, as
    soon as the loop draws its first tooth. *)
Theorem narrow_teeth_are_an_error (P : Pillow) (N : Z) (fuel : nat) :
  strict P → 17 <= N <= 24 → (1 <= fuel)%nat →
  create_icon fuel N = Raise ValueError.
Proof.
  intros HS HN Hfuel. destruct fuel as [|fuel]; [lia|].
  by apply narrow_teeth_raise.
Qed.

Lemma narrow_teeth_are_an_error_20 :
  create_icon (P := plain_pillow) 5 20 = Raise ValueError.
Proof.
  apply (narrow_teeth_are_an_error plain_pillow 20 5);
    [exact plain_pillow_strict|lia|lia].
Defined.

(** ** Termination of the loop of the teeth (C10) *)

(** C10, as stated, fails on its conclusion: a gap of one or more makes the
    loop terminate, not [create_icon] return.  At side 20 the gap
    int(0.06 * 20) is 1, but the width int(0.08 * 20) of a tooth is 1 as
    well, so the first tooth has the box [9, 7, 8, 7]; a Pillow that
    refuses such a box raises ValueError there, and [create_icon] returns
    no image, whatever fuel it is given.  Nor is the precondition the same
    as N >= 17: at side 2^1024 the product 0.06 * N raises OverflowError. *)
Lemma narrow_side_returns_nothing :
  (∃ gap, Py.scaled 20 (Py.dec 6 100) = Ok gap ∧ 1 <= gap)
  ∧ tooth_box (20 / 2) 1 0 7 true = (9, 7, 8, 7)
  ∧ create_icon (P := plain_pillow) 20 20 = Raise ValueError
  ∧ (∀ fuel img, create_icon (P := plain_pillow) fuel 20 ≠ Ok img)
  ∧ 17 <= 2 ^ 1024
  ∧ Py.scaled (2 ^ 1024) (Py.dec 6 100) = Raise OverflowError.
Proof.
  split; [exists 1; split; [vm_compute; reflexivity|lia]|].
  split; [reflexivity|].
  split; [exact (narrow_teeth_are_refused 20 ltac:(lia))|].
  split; [|split; [vm_compute; discriminate|vm_compute; reflexivity]].
  intros [|fuel] img.
  - vm_compute. discriminate.
  - rewrite (narrow_teeth_raise (P := plain_pillow) 20 fuel
               plain_pillow_strict ltac:(lia)).
    discriminate.
Qed.

Section Termination.
Context (P : Pillow).
Import Py PyFacts.

(** C10 (amended): for every side N with int(0.06 * N) >= 1, which are the
    sides N >= 17 that convert to a float, the loop of the zipper teeth
    terminates: each turn moves its cursor up by the gap, the loop ends
    after [tooth_count] turns, and [create_icon] halts, with the same
    outcome whatever fuel it is given beyond one unit per pixel of the side.
    It halts with an image for every side from 25 on that Pillow and the
    machine take; from side 17 to side 24 it does so where Pillow accepts
    every box with its corners in the wrong order, and raises ValueError
    where Pillow refuses them all; from side 2^31 on it raises
    OverflowError. *)
Theorem teeth_loop_terminates (N : Z) :
  ((∃ gap, scaled N (dec 6 100) = Ok gap ∧ 1 <= gap)
   ↔ 17 <= N ∧ fits_float N)
  ∧ ∀ gap, scaled N (dec 6 100) = Ok gap → 1 <= gap →
      (∀ fuel zx zw th zb img y toggle,
         y < zb - th →
         y < y + gap
         ∧ teeth_loop (S fuel) zx zw th gap zb img y toggle
           = (img ← draw_rectangle img (tooth_box zx zw th y toggle)
                                   (tooth_fill toggle);
              teeth_loop fuel zx zw th gap zb img (y + gap) (negb toggle)))
      ∧ (∀ fuel zx zw th zb img y0,
           (tooth_count y0 (zb - th) gap <= fuel)%nat →
           teeth_loop fuel zx zw th gap zb img y0 true ≠ OutOfFuel
           ∧ (tooth_count y0 (zb - th) gap <= Z.to_nat (zb - th - y0))%nat)
      ∧ (∀ fuel, (Z.to_nat N <= fuel)%nat →
           create_icon (P := P) fuel N ≠ OutOfFuel
           ∧ create_icon fuel N = create_icon (Z.to_nat N) N)
      ∧ (room_for N → 25 <= N ∨ lenient P →
         ∀ fuel, (Z.to_nat N <= fuel)%nat →
                 ∃ img, create_icon (P := P) fuel N = Ok img)
      ∧ (N <= 24 → strict P →
         ∀ fuel, (1 <= fuel)%nat →
                 create_icon (P := P) fuel N = Raise ValueError)
      ∧ (2 ^ 31 <= N →
         ∀ fuel, create_icon (P := P) fuel N = Raise OverflowError).
Proof.
  split; [apply tooth_gap_positive|].
  intros gap Egap Hgap.
  assert (HN : 17 <= N ∧ fits_float N).
  { apply tooth_gap_positive. eauto. }
  destruct HN as [HN [f Hf]].
  split; [|split; [|split; [|split; [|split]]]].
  - intros fuel zx zw th zb img y toggle Hy. split; [lia|].
    by apply teeth_loop_step.
  - intros fuel zx zw th zb img y0 Hfuel. split.
    + rewrite teeth_loop_teeth by done. apply draw_all_halts.
    + by apply tooth_count_le.
  - intros fuel Hfuel. by apply (create_icon_halts N f).
  - intros Hroom H25 fuel Hfuel. apply create_icon_returns; [|done|done].
    destruct H25; [by left|right; done].
  - intros H24 HS fuel Hfuel. destruct fuel as [|fuel]; [lia|].
    apply narrow_teeth_raise; [done|lia].
  - intros Hbig fuel. unfold create_icon.
    by rewrite (GradientFacts.create_gradient_overflow N color1 color2 Hbig).
Qed.

End Termination.

Lemma teeth_loop_terminates_1024 :
  (∃ img, create_icon (P := plain_pillow) 1024 1024 = Ok img)
  ∧ create_icon (P := plain_pillow) 1024 1024 ≠ OutOfFuel.
Proof.
  destruct (teeth_loop_terminates plain_pillow 1024) as [_ H].
  destruct (H 61 ltac:(vm_compute; reflexivity) ltac:(lia))
    as (_ & _ & Hh & Hr & _).
  split.
  - exact (Hr (room_for_1024 plain_pillow) ltac:(left; lia) 1024%nat
              ltac:(lia)).
  - exact (proj1 (Hh 1024%nat ltac:(lia))).
Defined.

(** ** A run on any size table *)

(** X12: on any size table whose pixel sizes [int(logical * scale)] are all
    positive and taken by Pillow and the machine (below 2^31, with memory
    for the image), a run with enough fuel returns.  It has rendered the
    master at side 1024 and then, for each Size Spec in order, saved one
    image of that pixel size under [icon_{a}x{a}.png] and printed one line;
    the loop leaves the manifest with one entry per Size Spec in order, and
    at the end the run has saved its text and printed its line. *)
Theorem run_on_any_table (P : Pillow) (os : platform)
    (table : list (Py.number * Z)) (pixel_sizes : list Z) (dir : string)
    (fuel : nat) (w : world) :
  (1024 <= fuel)%nat → sized table pixel_sizes →
  ∃ master,
    create_icon fuel 1024 = Ok master
    ∧ main_with os table dir fuel w
      = Ok (World (replay (table_output os dir master table pixel_sizes)
                          (files w))
                  (trace w ++ table_output os dir master table pixel_sizes))
    ∧ exports os dir master table empty_contents
      = Ok (pixel_sizes ≫= export_events os dir master,
            manifest_of (table_entries table pixel_sizes))
    ∧ length (table_entries table pixel_sizes) = length table
    ∧ length (saved_images (table_output os dir master table pixel_sizes))
      = length table.
Proof.
  intros Hfuel Hs. destruct (master_1024 fuel Hfuel) as (master & E & _ & _).
  exists master. split; [exact E|]. split; [|split].
  - by rewrite main_with_output, E, bind_Ok, (run_output_sized _ _ _ _ _ Hs).
  - change empty_contents with (manifest_of []).
    by rewrite (exports_sized _ _ _ _ _ Hs).
  - pose proof (Forall2_length _ _ _ Hs) as Hlen. split.
    + unfold table_entries. rewrite length_zip_with. lia.
    + unfold table_output, saved_images. rewrite omap_app. cbn [omap].
      rewrite app_nil_r, Hlen. clear.
      induction pixel_sizes as [|a l IH]; [done|]. cbn. by rewrite IH.
Qed.

Lemma run_on_any_table_example :
  ∃ master w',
    create_icon (P := plain_pillow) 1024 1024 = Ok master
    ∧ main_with (P := plain_pillow) Posix
        [(Py.Int 16, 2); (Py.Float (Py.dec 5 10), 3)] "out" 1024 fresh
      = Ok w'
    ∧ files w' !! "out/icon_32x32.png"
      = Some (Png (Image 32 32 (nearest master 32 32)))
    ∧ files w' !! "out/icon_1x1.png"
      = Some (Png (Image 1 1 (nearest master 1 1))).
Proof.
  destruct (run_on_any_table plain_pillow Posix
              [(Py.Int 16, 2); (Py.Float (Py.dec 5 10), 3)] [32; 1] "out"
              1024 fresh ltac:(lia))
    as (master & E & Hrun & _).
  { repeat (apply sized_cons; [reflexivity|lia|]). constructor. }
  exists master. eexists. split; [exact E|]. split; [exact Hrun|].
  split; reflexivity.
Defined.

(** X13: the run stops at the first Size Spec whose pixel size
    [int(logical * scale)] Pillow refuses, when the specs before it have
    pixel sizes that are positive and taken by Pillow and the machine: with
    ValueError if that size is zero or negative (and fits a C int), with
    OverflowError if it is 2^31 or more or below -2^31, whatever the specs
    after it.  (The sizes are taken below 10^4300: the file name is
    formatted before the resize, and Python refuses to print a longer
    int.) *)
Theorem run_stops_at_empty_size (P : Pillow) (os : platform)
    (good : list (Py.number * Z)) (pixel_sizes : list Z)
    (bad : Py.number * Z) (a : Z) (rest : list (Py.number * Z))
    (dir : string) (fuel : nat) (w : world) :
  (1024 <= fuel)%nat → sized good pixel_sizes →
  actual_size bad.1 bad.2 = Ok a →
  (- 2 ^ 31 <= a <= 0 →
   main_with os (good ++ bad :: rest) dir fuel w = Raise ValueError)
  ∧ (- 10 ^ 4300 < a < - 2 ^ 31 ∨ 2 ^ 31 <= a < 10 ^ 4300 →
     main_with os (good ++ bad :: rest) dir fuel w = Raise OverflowError).
Proof.
  intros Hfuel Hgood Ea.
  destruct (master_1024 fuel Hfuel) as (master & E & _ & _).
  rewrite main_with_output, E, bind_Ok. unfold run_output.
  change empty_contents with (manifest_of []). split; intros Ha.
  - rewrite (exports_stopped _ _ _ _ _ _ ValueError _ Hgood); [done|].
    by apply (export_output_refused _ _ _ _ a).
  - rewrite (exports_stopped _ _ _ _ _ _ OverflowError _ Hgood); [done|].
    apply (export_output_overflow _ _ _ _ a); [done|].
    destruct Ha as [[_ Ha]|[Ha _]]; [by left|by right].
Qed.

Lemma run_stops_at_empty_size_example :
  main_with (P := plain_pillow) Windows
    [(Py.Int 20, 1); (Py.Float (Py.dec 5 10), 1); (Py.Int 40, 1)]
    "out" 1024 fresh
  = Raise ValueError
  ∧ main_with (P := plain_pillow) Windows
      [(Py.Int 20, 1); (Py.Int 65536, 32768); (Py.Int 40, 1)]
      "out" 1024 fresh
    = Raise OverflowError.
Proof.
  split.
  - apply (run_stops_at_empty_size plain_pillow Windows
             [(Py.Int 20, 1)] [20] (Py.Float (Py.dec 5 10), 1) 0
             [(Py.Int 40, 1)] "out" 1024 fresh);
      [lia|apply sized_cons; [reflexivity|lia|constructor]|reflexivity|].
    split; [vm_compute; discriminate|lia].
  - apply (run_stops_at_empty_size plain_pillow Windows
             [(Py.Int 20, 1)] [20] (Py.Int 65536, 32768) (2 ^ 31)
             [(Py.Int 40, 1)] "out" 1024 fresh);
      [lia|apply sized_cons; [reflexivity|lia|constructor]|reflexivity|].
    right. split; [vm_compute; discriminate|vm_compute; reflexivity].
Defined.

(** X14: on an empty size table a run still renders the master, saves no
    image, and writes a manifest whose list of images is empty; this is
    the text of that manifest, line by line. *)
Theorem run_on_empty_table (P : Pillow) (os : platform) (dir : string)
    (fuel : nat) (w : world) :
  (1024 <= fuel)%nat →
  ∃ master,
    create_icon fuel 1024 = Ok master
    ∧ main_with os [] dir fuel w
      = Ok (World (<[path_join os dir "Contents.json" :=
                       Text (text_bytes os (dump empty_contents))]> (files w))
                  (trace w
                   ++ [ Saved (path_join os dir "Contents.json")
                              (Text (text_bytes os (dump empty_contents)));
                        Printed "Created: Contents.json" ]))
    ∧ dump empty_contents
      = join newline
          [ "{";
            "  " +:+ quoted "images" +:+ ": [],";
            "  " +:+ quoted "info" +:+ ": {";
            "    " +:+ quoted "author" +:+ ": " +:+ quoted "xcode" +:+ ",";
            "    " +:+ quoted "version" +:+ ": 1";
            "  }";
            "}" ].
Proof.
  intros Hfuel. destruct (master_1024 fuel Hfuel) as (master & E & _ & _).
  exists master. split; [exact E|]. split; [|reflexivity].
  by rewrite main_with_output, E, bind_Ok.
Qed.

Lemma run_on_empty_table_fresh :
  ∃ w', main_with (P := plain_pillow) Posix [] "out" 1024 fresh = Ok w'
        ∧ saved_images (trace w') = []
        ∧ is_Some (files w' !! "out/Contents.json").
Proof.
  destruct (run_on_empty_table plain_pillow Posix "out" 1024 fresh ltac:(lia))
    as (master & _ & E & _).
  eexists. split; [exact E|]. split; [reflexivity|]. by eexists.
Defined.

(** ** The files of a run *)

Lemma append_inv_head (a p q : string) : a +:+ p = a +:+ q → p = q.
Proof. induction a as [|c a IH]; [done|]. intros [= H]. by apply IH. Qed.

(** In one directory two names that start with no separator are joined to
    different paths. *)
Lemma path_join_inj os dir p q c d :
  first_char p = Some c → is_sep os c = false →
  first_char q = Some d → is_sep os d = false →
  path_join os dir p = path_join os dir q → p = q.
Proof.
  intros Hp Hc Hq Hd. unfold path_join. rewrite Hp, Hq, Hc, Hd.
  destruct (last_char (after_drive os dir)) as [l|]; [|apply append_inv_head].
  destruct (is_sep os l); [apply append_inv_head|].
  intros H%append_inv_head. by apply append_inv_head in H.
Qed.

Lemma icon_filename_first os a :
  ∃ c, first_char (icon_filename a) = Some c ∧ is_sep os c = false.
Proof. exists "i"%char. split; [reflexivity|by destruct os]. Qed.

Lemma icon_path_inj os dir a b :
  path_join os dir (icon_filename a) = path_join os dir (icon_filename b) →
  a = b.
Proof.
  destruct (icon_filename_first os a) as (c & Hc & Hs).
  destruct (icon_filename_first os b) as (d & Hd & Hs').
  intros H%(path_join_inj _ _ _ _ _ _ Hc Hs Hd Hs'). by apply icon_filename_inj.
Qed.

Lemma icon_path_not_manifest os dir a :
  path_join os dir (icon_filename a) ≠ path_join os dir "Contents.json".
Proof.
  destruct (icon_filename_first os a) as (c & Hc & Hs).
  intros H%(path_join_inj _ _ _ _ c "C"%char Hc Hs); [|done|by destruct os].
  discriminate.
Qed.

Lemma last_saved_none path evs :
  (∀ f, Saved path f ∉ evs) → last_saved path evs = None.
Proof.
  induction evs as [|e evs IH] using rev_ind; [done|]. intros Hno.
  rewrite last_saved_snoc. destruct e as [p f|line].
  - destruct (String.eqb_spec p path) as [->|Hne].
    + exfalso. apply (Hno f). apply elem_of_app. right. by apply list_elem_of_singleton.
    + apply IH. intros g Hg. apply (Hno g). apply elem_of_app. by left.
  - apply IH. intros g Hg. apply (Hno g). apply elem_of_app. by left.
Qed.

(** The file a path holds after a trace all of whose writes to that path
    carry the same file. *)
Lemma last_saved_same path f0 evs :
  Saved path f0 ∈ evs → (∀ f, Saved path f ∈ evs → f = f0) →
  last_saved path evs = Some f0.
Proof.
  induction evs as [|e evs IH] using rev_ind; [by intros ?%elem_of_nil|].
  intros Hin Hall. rewrite last_saved_snoc. destruct e as [p f|line].
  - destruct (String.eqb_spec p path) as [->|Hne].
    + f_equal. apply Hall. apply elem_of_app. right. by apply list_elem_of_singleton.
    + apply IH.
      * apply elem_of_app in Hin as [H|H%list_elem_of_singleton]; [done|].
        congruence.
      * intros g Hg. apply Hall. apply elem_of_app. by left.
  - apply IH.
    + apply elem_of_app in Hin as [H|H%list_elem_of_singleton]; [done|].
      discriminate.
    + intros g Hg. apply Hall. apply elem_of_app. by left.
Qed.

Section RunFiles.
Context {P : Pillow}.

Lemma export_events_saved os dir master a path f :
  Saved path f ∈ export_events os dir master a ↔
  path = path_join os dir (icon_filename a)
  ∧ f = Png (Image a a (resample master a a)).
Proof.
  unfold export_events. rewrite elem_of_cons, list_elem_of_singleton. split.
  - intros [[= -> ->]|[=]]. done.
  - intros [-> ->]. by left.
Qed.

(** The writes of the export loop: icons, each under the name of its size. *)
Lemma exports_saved os dir master table :
  ∀ contents evs c path f,
    exports os dir master table contents = Ok (evs, c) →
    Saved path f ∈ evs →
    ∃ a, path = path_join os dir (icon_filename a)
         ∧ f = Png (Image a a (resample master a a)).
Proof.
  induction table as [|spec table IH]; intros contents evs c path f E Hin.
  - injection E as <- <-. by apply elem_of_nil in Hin.
  - cbn [exports] in E.
    apply bind_Ok_inv in E as ([evs1 e] & E1 & E).
    apply bind_Ok_inv in E as ([evs2 c2] & E2 & [= <- <-]).
    cbn [fst] in Hin. apply elem_of_app in Hin as [Hin|Hin].
    + unfold export_output in E1.
      apply bind_Ok_inv in E1 as (a & _ & E1).
      apply bind_Ok_inv in E1 as (icon & Eicon & [= <- <-]).
      apply resize_inv in Eicon as (_ & _ & ->). exists a.
      apply elem_of_cons in Hin as [[= -> ->]|Hin]; [done|].
      apply list_elem_of_singleton in Hin. discriminate.
    + by eapply IH.
Qed.

Lemma run_output_saved os dir master table out path f :
  run_output os table dir master = Ok out →
  Saved path f ∈ out →
  (∃ a, path = path_join os dir (icon_filename a)
        ∧ f = Png (Image a a (resample master a a)))
  ∨ path = path_join os dir "Contents.json".
Proof.
  unfold run_output. intros E Hin.
  apply bind_Ok_inv in E as ([evs c] & E & [= <-]).
  cbn [fst] in Hin. apply elem_of_app in Hin as [Hin|Hin].
  - left. by eapply exports_saved.
  - right. apply elem_of_cons in Hin as [[= -> _]|Hin]; [done|].
    apply list_elem_of_singleton in Hin. discriminate.
Qed.

End RunFiles.

(** X15: a run writes nothing but its icons and its manifest.  Whatever
    the size table, a file that is neither [Contents.json] nor an
    [icon_{a}x{a}.png] of the output directory is after the run what it
    was before, and no file that was there is gone. *)
Theorem run_writes_only_its_files (P : Pillow) (os : platform)
    (table : list (Py.number * Z)) (dir : string) (fuel : nat)
    (w w' : world) :
  main_with os table dir fuel w = Ok w' →
  (∀ path, path ≠ path_join os dir "Contents.json" →
           (∀ a, path ≠ path_join os dir (icon_filename a)) →
           files w' !! path = files w !! path)
  ∧ (∀ path, is_Some (files w !! path) → is_Some (files w' !! path)).
Proof.
  rewrite main_with_output. intros E.
  apply bind_Ok_inv in E as (master & _ & E).
  apply bind_Ok_inv in E as (out & Eout & [= <-]). cbn [files]. split.
  - intros path Hm Hi. rewrite replay_lookup, last_saved_none; [done|].
    intros f Hin.
    destruct (run_output_saved _ _ _ _ _ _ _ Eout Hin) as [(a & -> & _)| ->];
      [by apply (Hi a)|done].
  - intros path Hsome. rewrite replay_lookup.
    by destruct (last_saved path out).
Qed.

Lemma run_writes_only_its_files_example :
  ∃ w', main_with (P := plain_pillow) Posix [(Py.Int 20, 1)] "out" 1024
          (World {[ "notes.txt" := Text "kept" ]} []) = Ok w'
        ∧ files w' !! "notes.txt" = Some (Text "kept").
Proof.
  destruct (master_1024 (P := plain_pillow) 1024 ltac:(lia))
    as (master & E & _ & _).
  assert (Hrun : ∃ w', main_with (P := plain_pillow) Posix [(Py.Int 20, 1)]
                         "out" 1024
                         (World {[ "notes.txt" := Text "kept" ]} []) = Ok w').
  { eexists. rewrite main_with_output, E, bind_Ok.
    rewrite (run_output_sized _ _ _ _ [20])
      by (apply sized_cons; [reflexivity|lia|constructor]).
    reflexivity. }
  destruct Hrun as [w' Hrun]. exists w'. split; [exact Hrun|].
  destruct (run_writes_only_its_files plain_pillow Posix [(Py.Int 20, 1)]
              "out" 1024 _ w' Hrun) as [Hkeep _].
  rewrite Hkeep; [reflexivity|intros H; discriminate H|].
  intros a H. apply (f_equal first_char) in H. discriminate H.
Defined.

(** X16: two Size Specs of one pixel size do no harm.  On a size table
    whose pixel sizes are all positive and taken by Pillow and the machine,
    when the run is over every pixel size [a] of the table has its file
    [icon_{a}x{a}.png], holding the master resized to [a] by [a], however
    many specs wrote it. *)
Theorem every_size_has_its_file (P : Pillow) (os : platform)
    (table : list (Py.number * Z)) (pixel_sizes : list Z) (dir : string)
    (fuel : nat) (w : world) :
  (1024 <= fuel)%nat → sized table pixel_sizes →
  ∃ master w',
    create_icon fuel 1024 = Ok master
    ∧ main_with os table dir fuel w = Ok w'
    ∧ ∀ a, a ∈ pixel_sizes →
           files w' !! path_join os dir (icon_filename a)
           = Some (Png (Image a a (resample master a a))).
Proof.
  intros Hfuel Hs. destruct (master_1024 fuel Hfuel) as (master & E & _ & _).
  exists master. eexists. split; [exact E|]. split.
  { by rewrite main_with_output, E, bind_Ok, (run_output_sized _ _ _ _ _ Hs). }
  clear E. cbn [files].
  intros a Ha. rewrite replay_lookup.
  rewrite (last_saved_same _ (Png (Image a a (resample master a a)))); [done|..].
  - unfold table_output. apply elem_of_app. left.
    apply list_elem_of_bind. exists a. split; [|done].
    by apply export_events_saved.
  - intros f Hin.
    destruct (run_output_saved os dir master table _ _ _
                (run_output_sized _ _ _ _ _ Hs) Hin) as [(b & Hb & ->)|Hm].
    + by apply icon_path_inj in Hb as <-.
    + by apply icon_path_not_manifest in Hm.
Qed.

Lemma every_size_has_its_file_example :
  ∃ master w',
    create_icon (P := plain_pillow) 1024 1024 = Ok master
    ∧ main_with (P := plain_pillow) Windows
        [(Py.Int 20, 2); (Py.Int 40, 1)] "out" 1024 fresh = Ok w'
    ∧ files w' !! path_join Windows "out" "icon_40x40.png"
      = Some (Png (Image 40 40 (nearest master 40 40))).
Proof.
  destruct (every_size_has_its_file plain_pillow Windows
              [(Py.Int 20, 2); (Py.Int 40, 1)] [40; 40] "out" 1024 fresh
              ltac:(lia))
    as (master & w' & E & Hrun & Hfiles).
  { repeat (apply sized_cons; [reflexivity|lia|]). constructor. }
  exists master, w'. split; [exact E|]. split; [exact Hrun|].
  apply (Hfiles 40). by left.
Defined.

(** ** The layers of the icon *)

Section IconLayers.
Context {P : Pillow}.
Import Py PyFacts.

(** The last three drawing calls, one over the other. *)
Lemma compose_icon_layers loop N bg bs ins zw cr cw gs img :
  compose_icon loop N bg bs ins zw cr cw gs = Ok img →
  0 <= zw → 0 <= gs →
  ∃ i2,
    (∀ x y, inside i2 x y = inside img x y)
    ∧ ∀ x y,
        pixels img x y
        = if inside img x y && ellipse_mask (gem_box N cr gs) x y
          then RGBA 255 100 100 255
          else if inside img x y && polygon_mask (crown_points N cr cw) x y
          then RGBA 255 215 0 255
          else if inside img x y && ellipse_mask (pull_box N bs ins zw) x y
          then RGBA 255 215 0 255
          else pixels i2 x y.
Proof.
  intros E Hzw Hgs. unfold compose_icon in E. cbv zeta in E.
  apply bind_Ok_inv in E as (i1 & E1 & E).
  apply bind_Ok_inv in E as (i2 & E2 & E).
  apply bind_Ok_inv in E as (i3 & E3 & E4).
  unfold draw_ellipse in E3, E4.
  rewrite draw_shape_ok in E3 by (apply well_ordered_iff; lia).
  rewrite draw_shape_ok in E4 by (apply well_ordered_iff; lia).
  injection E3 as <-. injection E4 as <-.
  exists i2. split; [done|]. intros x y.
  rewrite !pixels_paint, !inside_paint.
  replace (N / 2 - bs / 2 + ins + zw - zw) with (box_top_of N bs ins)
    by (unfold box_top_of; lia).
  replace (box_top_of N bs ins + zw * 2) with (box_top_of N bs ins + 2 * zw)
    by lia.
  reflexivity.
Qed.

End IconLayers.

Section IconLayersTheorem.
Context {P : Pillow}.
Import Py PyFacts.

(** X17: the last shapes lie over the earlier ones.  At a side from 25 on
    that Pillow and the machine take, a pixel that Pillow fills for the gem
    is the red of the gem; one that it fills for the crown or for the pull,
    and not for the gem, is gold; whatever lies under them, box or tooth,
    does not show there. *)
Theorem icon_layers (N : Z) (fuel : nat) :
  25 <= N → room_for N → (Z.to_nat N <= fuel)%nat →
  ∃ img bs ins zw cr cw gs,
    create_icon fuel N = Ok img
    ∧ scaled N (dec 5 10) = Ok bs ∧ scaled N (dec 5 100) = Ok ins
    ∧ scaled N (dec 8 100) = Ok zw ∧ scaled N (dec 12 100) = Ok cr
    ∧ scaled N (dec 25 100) = Ok cw ∧ scaled N (dec 25 1000) = Ok gs
    ∧ ∀ x y, 0 <= x < N → 0 <= y < N →
        (ellipse_mask (gem_box N cr gs) x y = true →
         getpixel img x y = Some (RGBA 255 100 100 255))
        ∧ (ellipse_mask (gem_box N cr gs) x y = false →
           polygon_mask (crown_points N cr cw) x y = true
           ∨ ellipse_mask (pull_box N bs ins zw) x y = true →
           getpixel img x y = Some (RGBA 255 215 0 255)).
Proof.
  intros HN Hroom Hfuel.
  pose proof (GradientFacts.room_for_float N ltac:(lia) Hroom) as Hf.
  destruct (Layout.layout N HN Hf)
    as (bs & ins & zw & th & gap & cr & cw & gs & Ebs & Eins & Ezw & Eth & Egap
        & Ecr & Ecw & Egs & Hlay).
  destruct (create_icon_returns N fuel ltac:(by left) Hroom Hfuel) as [img E].
  destruct (create_icon_painted _ _ _ E) as [[Hw Hh] _].
  pose proof E as E'.
  destruct (GradientFacts.create_gradient_spec N ltac:(lia) Hroom)
    as (bg & Ebg & _ & _).
  rewrite (create_icon_measured fuel N bg bs ins zw th gap cr cw gs) in E'
    by assumption.
  assert (Hl := Hlay). unfold layout_facts in Hl. cbv zeta in Hl.
  destruct (compose_icon_layers _ _ _ _ _ _ _ _ _ _ E')
    as (i2 & _ & Hpx); [lia..|].
  exists img, bs, ins, zw, cr, cw, gs. repeat (split; [assumption|]).
  clear E E' Ebg. intros x y Hx Hy. unfold getpixel.
  assert (inside img x y = true) as Hin by (apply inside_iff; lia).
  rewrite Hin, Hpx, Hin. cbn [andb]. split.
  - by intros ->.
  - intros -> [-> | ->]; [done|].
    by destruct (polygon_mask (crown_points N cr cw) x y).
Qed.

End IconLayersTheorem.

Lemma icon_layers_1024 :
  ∃ img, create_icon (P := plain_pillow) 1024 1024 = Ok img
         ∧ getpixel img 512 172 = Some (RGBA 255 100 100 255)
         ∧ getpixel img 512 388 = Some (RGBA 255 215 0 255).
Proof.
  destruct (icon_layers (P := plain_pillow) 1024 1024 ltac:(lia)
              (room_for_1024 plain_pillow) ltac:(lia))
    as (img & bs & ins & zw & cr & cw & gs & E & Ebs & Eins & Ezw & Ecr & Ecw
        & Egs & H).
  assert (bs = 512) as -> by (vm_compute in Ebs; congruence).
  assert (ins = 51) as -> by (vm_compute in Eins; congruence).
  assert (zw = 81) as -> by (vm_compute in Ezw; congruence).
  assert (cr = 122) as -> by (vm_compute in Ecr; congruence).
  assert (cw = 256) as -> by (vm_compute in Ecw; congruence).
  assert (gs = 25) as -> by (vm_compute in Egs; congruence).
  exists img. split; [exact E|].
  destruct (H 512 172 ltac:(lia) ltac:(lia)) as [Hgem _].
  destruct (H 512 388 ltac:(lia) ltac:(lia)) as [_ Hgold].
  split; [apply Hgem; reflexivity|].
  apply Hgold; [reflexivity|]. right. reflexivity.
Defined.

(** ** How many teeth the loop draws *)

Module ToothCount.
Import Py PyFacts Layout.

Ltac counted_side :=
  eexists _, _, _, _, _, _;
  repeat (split; [vm_compute; reflexivity|]);
  split; [lia|intros; lia].

(** The sides below 40, one by one. *)
Lemma small_sides :
  Forall (λ N,
    ∃ bs ins zw th gap n,
      scaled N (dec 5 10) = Ok bs ∧ scaled N (dec 5 100) = Ok ins
      ∧ scaled N (dec 8 100) = Ok zw ∧ scaled N (dec 4 100) = Ok th
      ∧ scaled N (dec 6 100) = Ok gap
      ∧ n = tooth_count (box_top_of N bs ins + zw)
                        (box_bottom_of N bs ins - zw - th) gap
      ∧ (5 <= n <= 11)%nat ∧ (100 <= N → (n <= 6)%nat))
    (seqZ 17 23).
Proof.
  let l := eval vm_compute in (seqZ 17 23) in change (seqZ 17 23) with l.
  repeat (constructor; [counted_side|]). constructor.
Qed.

(** The sides from 100 to 119, one by one. *)
Lemma middle_sides :
  Forall (λ N,
    ∃ bs ins zw th gap n,
      scaled N (dec 5 10) = Ok bs ∧ scaled N (dec 5 100) = Ok ins
      ∧ scaled N (dec 8 100) = Ok zw ∧ scaled N (dec 4 100) = Ok th
      ∧ scaled N (dec 6 100) = Ok gap
      ∧ n = tooth_count (box_top_of N bs ins + zw)
                        (box_bottom_of N bs ins - zw - th) gap
      ∧ (5 <= n <= 11)%nat ∧ (100 <= N → (n <= 6)%nat))
    (seqZ 100 20).
Proof.
  let l := eval vm_compute in (seqZ 100 20) in change (seqZ 100 20) with l.
  repeat (constructor; [counted_side|]). constructor.
Qed.

Lemma large_sides N :
  40 <= N → ¬ (100 <= N < 120) → fits_float N →
  ∃ bs ins zw th gap n,
    scaled N (dec 5 10) = Ok bs ∧ scaled N (dec 5 100) = Ok ins
    ∧ scaled N (dec 8 100) = Ok zw ∧ scaled N (dec 4 100) = Ok th
    ∧ scaled N (dec 6 100) = Ok gap
    ∧ n = tooth_count (box_top_of N bs ins + zw)
                      (box_bottom_of N bs ins - zw - th) gap
    ∧ (5 <= n <= 11)%nat ∧ (100 <= N → (n <= 6)%nat).
Proof.
  intros HN Hmid Hf.
  destruct (measures_about N ltac:(lia) Hf)
    as (bs & ins & zw & th & gap & cr & cw & gs & Ebs & Eins & Ezw & Eth & Egap
        & Ecr & Ecw & Egs & Abs & Ains & Azw & Ath & Agap & Acr & Acw & Ags).
  exists bs, ins, zw, th, gap. eexists. repeat (split; [eassumption|]).
  split; [reflexivity|].
  set (y0 := box_top_of N bs ins + zw).
  set (limit := box_bottom_of N bs ins - zw - th).
  assert (Hgap : 1 <= gap) by (unfold about in *; lia).
  pose proof (tooth_count_spec y0 limit gap 4 Hgap) as H4.
  pose proof (tooth_count_spec y0 limit gap 11 Hgap) as H11.
  pose proof (tooth_count_spec y0 limit gap 6 Hgap) as H6.
  assert (F4 : y0 + Z.of_nat 4 * gap < limit).
  { subst y0 limit. unfold about, box_bottom_of, box_top_of in *.
    generalize dependent (N / 2). generalize dependent (bs / 2). intros. lia. }
  assert (F11 : ¬ y0 + Z.of_nat 11 * gap < limit).
  { subst y0 limit. unfold about, box_bottom_of, box_top_of in *.
    generalize dependent (N / 2). generalize dependent (bs / 2). intros. lia. }
  assert (F6 : 100 <= N → ¬ y0 + Z.of_nat 6 * gap < limit).
  { intros H100. subst y0 limit. unfold about, box_bottom_of, box_top_of in *.
    generalize dependent (N / 2). generalize dependent (bs / 2). intros. lia. }
  split; [|intros H100; specialize (F6 H100)]; lia.
Qed.

End ToothCount.

(** X18: at a side from 25 on that Pillow and the machine take, the loop
    of [create_icon] is the drawing of [n] rectangles, all of which are
    drawn, with [n] from 5 to 11, and 5 or 6 from side 100 on. *)
Theorem tooth_count_bounds (P : Pillow) (N : Z) (fuel : nat) :
  25 <= N → room_for N → (Z.to_nat N <= fuel)%nat →
  ∃ bs ins zw th gap n,
    Py.scaled N (Py.dec 5 10) = Ok bs ∧ Py.scaled N (Py.dec 5 100) = Ok ins
    ∧ Py.scaled N (Py.dec 8 100) = Ok zw ∧ Py.scaled N (Py.dec 4 100) = Ok th
    ∧ Py.scaled N (Py.dec 6 100) = Ok gap
    ∧ n = tooth_count (box_top_of N bs ins + zw)
                      (box_bottom_of N bs ins - zw - th) gap
    ∧ (∃ img, create_icon fuel N = Ok img)
    ∧ (∀ canvas,
         teeth_loop fuel (N / 2) zw th gap (box_bottom_of N bs ins - zw)
                    canvas (box_top_of N bs ins + zw) true
         = draw_all (teeth (N / 2) zw th gap (box_top_of N bs ins + zw) n)
                    canvas)
    ∧ (∀ canvas, ∃ canvas',
         draw_all (teeth (N / 2) zw th gap (box_top_of N bs ins + zw) n)
                  canvas = Ok canvas')
    ∧ length (teeth (N / 2) zw th gap (box_top_of N bs ins + zw) n) = n
    ∧ (5 <= n <= 11)%nat ∧ (100 <= N → (n <= 6)%nat).
Proof.
  intros HN Hroom Hfuel.
  pose proof (GradientFacts.room_for_float N ltac:(lia) Hroom) as Hf.
  assert (Hcount :
    ∃ bs ins zw th gap n,
      Py.scaled N (Py.dec 5 10) = Ok bs ∧ Py.scaled N (Py.dec 5 100) = Ok ins
      ∧ Py.scaled N (Py.dec 8 100) = Ok zw ∧ Py.scaled N (Py.dec 4 100) = Ok th
      ∧ Py.scaled N (Py.dec 6 100) = Ok gap
      ∧ n = tooth_count (box_top_of N bs ins + zw)
                        (box_bottom_of N bs ins - zw - th) gap
      ∧ (5 <= n <= 11)%nat ∧ (100 <= N → (n <= 6)%nat)).
  { destruct (Z.lt_ge_cases N 40) as [Hs|Hb].
    - apply (proj1 (Forall_forall _ _) ToothCount.small_sides).
      apply elem_of_seqZ. lia.
    - destruct (decide (100 <= N < 120)) as [Hm|Hm].
      + apply (proj1 (Forall_forall _ _) ToothCount.middle_sides).
        apply elem_of_seqZ. lia.
      + by apply ToothCount.large_sides. }
  destruct Hcount as (bs & ins & zw & th & gap & n & Ebs & Eins & Ezw & Eth
                      & Egap & En & Hn & Hn').
  destruct Hf as [f Hf].
  destruct (Measures.measures N f ltac:(lia) Hf)
    as (bs' & ins' & zw' & th' & gap' & cr & cw & gs & Ebs' & Eins' & Ezw'
        & Eth' & Egap' & _ & _ & _ & Hins & Hbox & HbsN & Hzw & Hth & Hgap
        & Hgs & Hzw2 & Hgap1 & _).
  assert (bs' = bs) as -> by congruence.
  assert (ins' = ins) as -> by congruence.
  assert (zw' = zw) as -> by congruence.
  assert (th' = th) as -> by congruence.
  assert (gap' = gap) as -> by congruence.
  specialize (Hzw2 HN). specialize (Hgap1 ltac:(lia)).
  exists bs, ins, zw, th, gap, n. repeat (split; [assumption|]).
  split; [by apply create_icon_returns; [left|..]|].
  split; [|split; [|split; [|split]]].
  - intros canvas. rewrite En.
    exact (teeth_step_teeth fuel N bs ins zw th gap canvas Hgap1 Hzw Hth HbsN
             Hfuel).
  - intros canvas. apply draw_all_ok. by apply teeth_well_ordered.
  - apply teeth_length.
  - exact Hn.
  - exact Hn'.
Qed.

Lemma tooth_count_bounds_1024 :
  teeth_loop (P := plain_pillow) 1024 (1024 / 2) 81 40 61
             (box_bottom_of 1024 512 51 - 81) (Image 0 0 (λ _ _, RGBA 0 0 0 0))
             (box_top_of 1024 512 51 + 81) true
  = draw_all (P := plain_pillow)
      (teeth (1024 / 2) 81 40 61 (box_top_of 1024 512 51 + 81) 6)
      (Image 0 0 (λ _ _, RGBA 0 0 0 0)).
Proof.
  destruct (tooth_count_bounds plain_pillow 1024 1024 ltac:(lia)
              (room_for_1024 plain_pillow) ltac:(lia))
    as (bs & ins & zw & th & gap & n & Ebs & Eins & Ezw & Eth & Egap & En & _
        & Hloop & _).
  assert (bs = 512) as -> by (vm_compute in Ebs; congruence).
  assert (ins = 51) as -> by (vm_compute in Eins; congruence).
  assert (zw = 81) as -> by (vm_compute in Ezw; congruence).
  assert (th = 40) as -> by (vm_compute in Eth; congruence).
  assert (gap = 61) as -> by (vm_compute in Egap; congruence).
  assert (n = 6%nat) as -> by (rewrite En; reflexivity).
  exact (Hloop (Image 0 0 (λ _ _, RGBA 0 0 0 0))).
Defined.

(** ** Sides below one *)

(** X19: a negative side is refused at once: [Image.new] raises ValueError
    before any pixel is computed, in [create_gradient] and so in
    [create_icon].  Side 0 is accepted: both loops of [create_gradient] are
    empty, so that its division by [2 * size] is never reached, and
    [create_icon] returns an image without pixels. *)
Theorem sides_below_one (P : Pillow) (N : Z) (fuel : nat) (c1 c2 : rgb) :
  N <= 0 →
  (N < 0 →
   create_gradient N c1 c2 = Raise ValueError
   ∧ create_icon fuel N = Raise ValueError)
  ∧ (N = 0 →
     create_gradient N c1 c2 = Ok (Image 0 0 (λ _ _, RGBA 0 0 0 0))
     ∧ ∃ img, create_icon fuel N = Ok img ∧ square 0 img).
Proof.
  intros HN. split.
  - intros Hneg. unfold create_icon, create_gradient, Image_new.
    destruct (Z.ltb_spec N 0) as [_|?]; [|lia]. done.
  - intros ->.
    assert (Ebg : ∀ a b : rgb,
              create_gradient 0 a b = Ok (Image 0 0 (λ _ _, RGBA 0 0 0 0))).
    { intros a b. unfold create_gradient.
      rewrite GradientFacts.Image_new_ok
        by (done || apply GradientFacts.fits_memory_small; lia).
      reflexivity. }
    split; [exact (Ebg c1 c2)|].
    destruct (compose_icon_returns (teeth_step fuel 0 0 0 0 0 0) 0
                (Image 0 0 (λ _ _, RGBA 0 0 0 0)) 0 0 0 0 0 0)
      as [img E]; [|lia..|].
    { intros i. exists i. reflexivity || (unfold teeth_step;
        by apply teeth_loop_done). }
    rewrite <- (create_icon_measured fuel 0 _ 0 0 0 0 0 0 0 0) in E
      by (exact (Ebg color1 color2) || reflexivity).
    exists img. split; [exact E|].
    by destruct (create_icon_painted _ _ _ E).
Qed.

Lemma sides_below_one_example :
  create_icon (P := plain_pillow) 10 (-5) = Raise ValueError.
Proof.
  destruct (sides_below_one plain_pillow (-5) 10 color1 color2 ltac:(lia))
    as [Hneg _].
  apply Hneg. lia.
Defined.
